(** * jsongroup: a shallow embedding of the group-filtered serializer

    This development models the Go package [jsongroup]: the group filter
    [shouldIncludeField], the traversal engine [valueToMap] (with
    [structToMap], [mapToMap] and [sliceToSlice]), the serialization
    context ([withPath], [enterLevel], [checkPointer]), the public entry
    points [MarshalByGroupsWithOptions] and [MarshalToMapWithOptions], and
    the LRU field cache ([getFieldsInfo], [evict], [SetMaxSize]).

    Go's [reflect.Value] is modelled by the inductive [val]; reference
    types (pointers, slices, maps) point into an explicit heap, so that
    identities, sharing and cycles are those of the Go program.  Panics
    are a separate outcome, next to returned errors. *)

From Stdlib Require Import ZArith Lia Ascii.
From stdpp Require Import base gmap strings list pretty.

Set Warnings "-register-all".
Open Scope Z_scope.

(* ------------------------------------------------------------------ *)
(** ** Errors (errors.go) *)

Inductive ErrType :=
| ErrTypeUnknown
| ErrTypeMaxDepthExceeded
| ErrTypeCircularReference
| ErrTypeUnsupportedType
| ErrTypeReflection
| ErrTypeCacheOverflow.

(** A Go [error] value.  [GoError] is the package's [*Error] (its
    [Message], [Path] and [Cause]); [RawError] is any other error, such as
    [errors.New("skip_field")] or a [*reflect.ValueError]; [JSONUnsupportedType]
    is the [*json.UnsupportedTypeError] of the encoder.  Messages are kept
    in English; only their identity matters below. *)
Inductive goerr :=
| GoError (t : ErrType) (msg : string) (path : string) (cause : option goerr)
| RawError (msg : string)
| JSONUnsupportedType (ty : string).

(** The [Error] method of [*Error] (and of the other errors). *)
Fixpoint Error (e : goerr) : string :=
  match e with
  | GoError _ msg path cause =>
      let msg := if String.eqb path "" then msg
                 else msg +:+ " at path '" +:+ path +:+ "'" in
      match cause with
      | Some c => msg +:+ ": " +:+ Error c
      | None => msg
      end
  | RawError msg => msg
  | JSONUnsupportedType ty => "json: unsupported type: " +:+ ty
  end.

Definition MaxDepthError (path : string) : goerr :=
  GoError ErrTypeMaxDepthExceeded "max recursion depth exceeded" path None.

Definition CircularReferenceError (path : string) : goerr :=
  GoError ErrTypeCircularReference "circular reference detected" path None.

Definition UnsupportedTypeError (path ty : string) : goerr :=
  GoError ErrTypeUnsupportedType ("unsupported type: " +:+ ty) path None.

Definition ReflectionError (path : string) (err : goerr) : goerr :=
  GoError ErrTypeReflection "reflection error" path (Some err).

Definition CacheOverflowError : goerr :=
  GoError ErrTypeCacheOverflow "cache reached its maximum size" "" None.

(** [WrapJSONError] (for a non-nil [err]): the package's own errors are
    returned unchanged, encoder errors are translated, anything else
    becomes an [ErrTypeUnknown] error carrying its message. *)
Definition WrapJSONError (err : goerr) (path : string) : goerr :=
  match err with
  | GoError _ _ _ _ => err
  | JSONUnsupportedType ty => UnsupportedTypeError path ty
  | RawError msg => GoError ErrTypeUnknown msg path (Some err)
  end.

(** The sentinel of the nil-pointer policy: [errors.New("skip_field")]. *)
Definition skip_field : goerr := RawError "skip_field".

(** A value passed to [panic]: an [error] or anything else. *)
Inductive panicv :=
| PanicErr (e : goerr)
| PanicVal (s : string).

(* ------------------------------------------------------------------ *)
(** ** Options and field metadata *)

(** [GroupMode] is a Go [int] with two named constants. *)
Definition GroupMode := Z.
Definition GroupModeOr : GroupMode := 0.
Definition GroupModeAnd : GroupMode := 1.

(** The fields of [Options] that the traversal reads. *)
Record Options := {
  GroupModeOpt : GroupMode;
  TopLevelKey : string;
  TagKey : string;
  NullIfEmpty : bool;
  IgnoreNilPointers : bool;
  MaxDepth : Z;
  DisableCircularCheck : bool
}.

Record fieldInfo := {
  Index : list Z;
  Name : string;
  JSONName : string;
  Groups : list string;
  OmitEmpty : bool;
  OmitZero : bool;
  Anonymous : bool
}.

(** [slices.Contains] on strings. *)
Definition contains (xs : list string) (g : string) : bool :=
  existsb (String.eqb g) xs.

(** [shouldIncludeField] *)
Definition shouldIncludeField (field : fieldInfo) (mode : GroupMode)
    (groups : list string) : bool :=
  if Nat.eqb (length groups) 0 then true
  else if Nat.eqb (length (Groups field)) 0 then false
  else if Z.eqb mode GroupModeOr then
    existsb (fun g => contains (Groups field) g) groups
  else if Z.eqb mode GroupModeAnd then
    forallb (fun g => contains (Groups field) g) groups
  else false.

(* ------------------------------------------------------------------ *)
(** ** Values, heap and the intermediate representation *)

(** Floating-point values, by the classes the traversal distinguishes:
    NaN, the two infinities, and finite numbers (abstracted to [Z]). *)
Inductive gofloat :=
| FNaN
| FInf (positive : bool)
| FNum (z : Z).

(** Map keys, by the kinds [mapToMap] distinguishes; [MKOther] carries
    the text [fmt.Sprint] prints for the key. *)
Inductive mkey :=
| MKString (s : string)
| MKInt (z : Z)
| MKUint (z : Z)
| MKOther (printed : string).

(** A [reflect.Value], by kind.  Reference kinds carry [None] for nil and
    [Some a] for an identity [a] (what [Pointer()] returns) into the heap.
    A struct carries its resolved fields, in the order [getFieldsInfo]
    returns them, each paired with [v.FieldByIndex(field.Index)].
    [VTime] is [time.Time] with its [IsZero()]; [VOther] stands for the
    kinds handled by the default branch (channels, functions, ...). *)
Inductive val :=
| VString (s : string)
| VBool (b : bool)
| VInt (z : Z)
| VUint (z : Z)
| VFloat (f : gofloat)
| VComplex (printed : string)
| VPtr (p : option nat)
| VIface (x : option val)
| VStruct (fields : list (fieldInfo * val))
| VTime (isZero : bool)
| VMap (p : option nat)
| VSlice (p : option nat)
| VArray (elems : list val)
| VOther (typeName : string).

(** Heap objects: the pointee of a pointer, the elements of a slice's
    backing array, the entries of a map (in one iteration order). *)
Inductive hobj :=
| HCell (v : val)
| HArr (elems : list val)
| HMap (entries : list (mkey * val)).

Abbreviation heap := (gmap nat hobj).

(** The visited-identity map of [serializeContext.pointers]. *)
Abbreviation pointers := (gmap nat string).

(** IR values: [nil], scalars, [[]any], [map[string]any] (as an
    association list with unique keys), a [time.Time] and any other value
    passed through to the encoder. *)
Inductive ir :=
| IRNull
| IRBool (b : bool)
| IRInt (z : Z)
| IRUint (z : Z)
| IRFloat (z : Z)
| IRString (s : string)
| IRSeq (xs : list ir)
| IRMap (kvs : list (string * ir))
| IRTime (isZero : bool)
| IROpaque (typeName : string).

(** [m[k] = x] on a [map[string]any]. *)
Fixpoint set_key (k : string) (x : ir) (m : list (string * ir))
    : list (string * ir) :=
  match m with
  | [] => [(k, x)]
  | (k', y) :: m' => if String.eqb k k' then (k, x) :: m'
                     else (k', y) :: set_key k x m'
  end.

Definition is_nil (x : ir) : bool :=
  match x with IRNull => true | _ => false end.

(** A runtime fault: a reflection call on a value of the wrong kind
    (e.g. [Len] of a dangling identity), which panics with an error. *)
Definition fault : panicv := PanicErr (RawError "reflect: call on invalid Value").

(** The panic of [reflect.Value.IsNil] on an array. *)
Definition isNilArrayPanic : panicv :=
  PanicErr (RawError "reflect: call of reflect.Value.IsNil on array Value").

Definition slice_elems (h : heap) (p : option nat) : option (list val) :=
  match p with
  | None => Some []
  | Some a => match h !! a with Some (HArr xs) => Some xs | _ => None end
  end.

Definition map_entries (h : heap) (p : option nat)
    : option (list (mkey * val)) :=
  match p with
  | None => Some []
  | Some a => match h !! a with Some (HMap kvs) => Some kvs | _ => None end
  end.

(** [v.Len()]; [None] where Go's reflection panics. *)
Definition Len (h : heap) (v : val) : option nat :=
  match v with
  | VSlice p => length <$> slice_elems h p
  | VMap p => length <$> map_entries h p
  | VArray xs => Some (length xs)
  | VString s => Some (String.length s)
  | _ => None
  end.

Definition isSpecialFloat (f : gofloat) : bool :=
  match f with FNum _ => false | _ => true end.

Definition floatToString (f : gofloat) : string :=
  match f with
  | FNaN => "NaN"
  | FInf true => "Infinity"
  | FInf false => "-Infinity"
  | FNum z => pretty z
  end.

Definition float_is_zero (f : gofloat) : bool :=
  match f with FNum z => Z.eqb z 0 | _ => false end.

Definition ptr_is_nil (p : option nat) : bool :=
  match p with None => true | Some _ => false end.

(** [isEmptyValue]; [None] where [Len] panics. *)
Definition isEmptyValue (h : heap) (v : val) : option bool :=
  match v with
  | VArray _ | VMap _ | VSlice _ | VString _ => Nat.eqb 0 <$> Len h v
  | VBool b => Some (negb b)
  | VInt z | VUint z => Some (Z.eqb z 0)
  | VFloat f => Some (float_is_zero f)
  | VIface x => Some (match x with None => true | Some _ => false end)
  | VPtr p => Some (ptr_is_nil p)
  | _ => Some false
  end.

(** [isZeroValue]: collections are never zero. *)
Definition isZeroValue (v : val) : bool :=
  match v with
  | VBool b => negb b
  | VInt z | VUint z => Z.eqb z 0
  | VFloat f => float_is_zero f
  | VString s => String.eqb s ""
  | VIface x => match x with None => true | Some _ => false end
  | VPtr p => ptr_is_nil p
  | VTime z => z
  | VStruct _ => false
  | VArray _ | VMap _ | VSlice _ => false
  | _ => false
  end.

(** The key text of [mapToMap]: [strconv.FormatInt]/[FormatUint] in
    decimal for integers, [fmt.Sprint] otherwise. *)
Definition keyString (k : mkey) : string :=
  match k with
  | MKString s => s
  | MKInt z | MKUint z => pretty z
  | MKOther s => s
  end.

(* ------------------------------------------------------------------ *)
(** ** The serialization context *)

(** [serializeContext] without its [pointers] map, which is threaded as
    state (it is shared by reference by every context of one call) and
    without [opts], a section variable below.  [depth] is copied by
    [withPath], so it behaves as a value. *)
Record serializeContext := { path : string; depth : Z }.

Definition newContext : serializeContext := {| path := ""; depth := 0 |}.

Definition withPath (ctx : serializeContext) (segment : string)
    : serializeContext :=
  {| path := if String.eqb (path ctx) "" then segment
             else path ctx +:+ "." +:+ segment;
     depth := depth ctx |}.

(** The result of a traversal step: a value (or unit) with the
    [pointers] map after it, a returned error with that map, a panic in
    flight, or the Go stack overflowing (fuel exhausted). *)
Inductive outcome (A : Type) :=
| ROk (a : A) (st : pointers)
| RErr (e : goerr) (st : pointers)
| RPanic (p : panicv)
| ROutOfFuel.
Arguments ROk {A} a st.
Arguments RErr {A} e st.
Arguments RPanic {A} p.
Arguments ROutOfFuel {A}.

(** The deferred [recover] of [valueToMap]: a panic is re-raised as the
    package error of the current path. *)
Definition recoverAt {A} (p : string) (o : outcome A) : outcome A :=
  match o with
  | RPanic (PanicErr e) => RPanic (PanicErr (WrapJSONError e p))
  | RPanic (PanicVal s) => RPanic (PanicErr (ReflectionError p (RawError s)))
  | _ => o
  end.

(* ------------------------------------------------------------------ *)
(** ** The traversal engine (marshal.go) *)

Section Traversal.

Variable opts : Options.
Variable h : heap.
Variable groups : list string.
Variable mode : GroupMode.

(** [enterLevel] on a context whose depth is already incremented. *)
Definition depthExceeded (ctx : serializeContext) : bool :=
  (0 <? MaxDepth opts) && (MaxDepth opts <? depth ctx).

(** The identity [ptr.Pointer()] of a non-nil pointer, map or slice. *)
Definition refAddr (v : val) : option nat :=
  match v with
  | VPtr p | VMap p | VSlice p => p
  | _ => None
  end.

(** [checkPointer] *)
Definition checkPointer (ctx : serializeContext) (st : pointers) (v : val)
    : outcome unit :=
  if DisableCircularCheck opts then ROk tt st else
  let record :=
    match refAddr v with
    | Some a =>
        match st !! a with
        | Some _ => RErr (CircularReferenceError (path ctx)) st
        | None => ROk tt (<[a := path ctx]> st)
        end
    | None => ROk tt st
    end in
  match v with
  | VMap _ | VSlice _ =>
      match Len h v with
      | None => RPanic fault
      | Some 0%nat => ROk tt st
      | Some _ => record
      end
  | _ => record
  end.

Variable rec : serializeContext -> pointers -> val -> outcome ir.

Section Loop.

(** The recursive [structToMap] call on an anonymous struct field. *)
Variable emb : serializeContext -> pointers -> val
               -> outcome (list (string * ir)).

(** The loop of [structToMap] over the resolved fields, building
    [result]. *)
Fixpoint structFields (ctx : serializeContext) (st : pointers)
    (result : list (string * ir)) (fs : list (fieldInfo * val))
    : outcome (list (string * ir)) :=
  match fs with
  | [] => ROk result st
  | (field, fieldValue) :: rest =>
      let fieldCtx := withPath ctx (Name field) in
      let plain :=
        let isNilPointer :=
          match fieldValue with VPtr None => true | _ => false end in
        if isNilPointer && IgnoreNilPointers opts
        then structFields ctx st result rest
        else
        match isEmptyValue h fieldValue with
        | None => RPanic fault
        | Some empty =>
          let isNilOrEmpty := isNilPointer || empty in
          let isZero := isZeroValue fieldValue in
          if (OmitEmpty field && isNilOrEmpty && negb (NullIfEmpty opts)) ||
             (OmitZero field && isZero && negb (NullIfEmpty opts))
          then structFields ctx st result rest
          else if isNilOrEmpty && NullIfEmpty opts
          then structFields ctx st (set_key (JSONName field) IRNull result) rest
          else
          match rec fieldCtx st fieldValue with
          | ROk x st' =>
              if negb (is_nil x)
              then structFields ctx st' (set_key (JSONName field) x result) rest
              else if NullIfEmpty opts
              then structFields ctx st' (set_key (JSONName field) IRNull result) rest
              else structFields ctx st' result rest
          | RErr e st' =>
              if String.eqb (Error e) "skip_field"
              then structFields ctx st' result rest
              else RErr e st'
          | RPanic p => RPanic p
          | ROutOfFuel => ROutOfFuel
          end
        end in
      if negb (shouldIncludeField field mode groups)
      then structFields ctx st result rest
      else
      match fieldValue with
      | VStruct _ =>
          if Anonymous field then
            match emb fieldCtx st fieldValue with
            | ROk embedded st' =>
                structFields ctx st'
                  (fold_left (fun m kv => set_key kv.1 kv.2 m) embedded result)
                  rest
            | RErr e st' => RErr e st'
            | RPanic p => RPanic p
            | ROutOfFuel => ROutOfFuel
            end
          else plain
      | _ => plain
      end
  end.

End Loop.

(** [structToMap] as a map-building function: the embedded recursion is
    on the struct value itself. *)
Fixpoint structEmbedded (ctx : serializeContext) (st : pointers) (v : val)
    {struct v} : outcome (list (string * ir)) :=
  match v with
  | VStruct fs => structFields structEmbedded ctx st [] fs
  | _ => ROk [] st
  end.

(** The loop of [mapToMap] over the entries, in iteration order. *)
Fixpoint mapEntries (ctx : serializeContext) (st : pointers)
    (resultMap : list (string * ir)) (kvs : list (mkey * val))
    : outcome (list (string * ir)) :=
  match kvs with
  | [] => ROk resultMap st
  | (k, mapVal) :: rest =>
      let keyStr := keyString k in
      match rec (withPath ctx keyStr) st mapVal with
      | ROk x st' =>
          mapEntries ctx st'
            (if negb (is_nil x) || NullIfEmpty opts
             then set_key keyStr x resultMap else resultMap) rest
      | RErr e st' => RErr e st'
      | RPanic p => RPanic p
      | ROutOfFuel => ROutOfFuel
      end
  end.

(** The loop of [sliceToSlice]: element [i] gets the segment ["[i]"]. *)
Fixpoint sliceElems (ctx : serializeContext) (st : pointers) (i : nat)
    (result : list ir) (xs : list val) : outcome (list ir) :=
  match xs with
  | [] => ROk result st
  | item :: rest =>
      match rec (withPath ctx ("[" +:+ pretty i +:+ "]")) st item with
      | ROk x st' =>
          sliceElems ctx st' (S i)
            (if negb (is_nil x) || NullIfEmpty opts
             then result ++ [x] else result) rest
      | RErr e st' => RErr e st'
      | RPanic p => RPanic p
      | ROutOfFuel => ROutOfFuel
      end
  end.

Definition structToMap (ctx : serializeContext) (st : pointers)
    (fs : list (fieldInfo * val)) : outcome ir :=
  match structFields structEmbedded ctx st [] fs with
  | ROk m st' => ROk (IRMap m) st'
  | RErr e st' => RErr e st'
  | RPanic p => RPanic p
  | ROutOfFuel => ROutOfFuel
  end.

Definition mapToMap (ctx : serializeContext) (st : pointers)
    (kvs : list (mkey * val)) : outcome ir :=
  match mapEntries ctx st [] kvs with
  | ROk m st' => ROk (IRMap m) st'
  | RErr e st' => RErr e st'
  | RPanic p => RPanic p
  | ROutOfFuel => ROutOfFuel
  end.

Definition sliceToSlice (ctx : serializeContext) (st : pointers)
    (xs : list val) : outcome ir :=
  match sliceElems ctx st 0 [] xs with
  | ROk l st' => ROk (IRSeq l) st'
  | RErr e st' => RErr e st'
  | RPanic p => RPanic p
  | ROutOfFuel => ROutOfFuel
  end.

(** The part of [valueToMap] after the depth and cycle checks, for a
    non-scalar, non-nil value; [ctx] has the incremented depth. *)
Definition dispatch (ctx : serializeContext) (st : pointers) (v : val)
    : outcome ir :=
  match v with
  | VPtr (Some a) =>
      match h !! a with
      | Some (HCell x) => rec (withPath ctx "") st x
      | _ => RPanic fault
      end
  | VIface (Some x) => rec (withPath ctx "") st x
  | VTime z =>
      if z && NullIfEmpty opts then ROk IRNull st else ROk (IRTime z) st
  | VStruct fs => structToMap ctx st fs
  | VMap p =>
      match map_entries h p with
      | None => RPanic fault
      | Some kvs =>
          if Nat.eqb (length kvs) 0 && NullIfEmpty opts then ROk IRNull st
          else mapToMap ctx st kvs
      end
  | VSlice p =>
      match slice_elems h p with
      | None => RPanic fault
      | Some [] =>
          if NullIfEmpty opts then
            (if ptr_is_nil p then ROk IRNull st else ROk (IRSeq []) st)
          else ROk (IRSeq []) st
      | Some xs => sliceToSlice ctx st xs
      end
  | VArray [] =>
      if NullIfEmpty opts then RPanic isNilArrayPanic else ROk (IRSeq []) st
  | VArray xs => sliceToSlice ctx st xs
  | VOther ty => ROk (IROpaque ty) st
  | _ => ROk IRNull st (* scalars and nil references do not reach here *)
  end.

(** One call of [valueToMap], with [rec] for its recursive calls. *)
Definition valueToMap_body (ctx : serializeContext) (st : pointers) (v : val)
    : outcome ir :=
  match v with
  | VString s =>
      if String.eqb s "" && NullIfEmpty opts then ROk IRNull st
      else ROk (IRString s) st
  | VBool b => ROk (IRBool b) st
  | VInt z => ROk (IRInt z) st
  | VUint z => ROk (IRUint z) st
  | VFloat f =>
      if isSpecialFloat f then ROk (IRString (floatToString f)) st
      else ROk (IRFloat match f with FNum z => z | _ => 0 end) st
  | VComplex s => ROk (IRString s) st
  | VPtr None =>
      if IgnoreNilPointers opts then RErr skip_field st else ROk IRNull st
  | VIface None => ROk IRNull st
  | _ =>
      let ctx1 := {| path := path ctx; depth := depth ctx + 1 |} in
      if depthExceeded ctx1 then
        match v with
        | VSlice _ | VMap _ =>
            match Len h v with
            | None => RPanic fault
            | Some 0%nat =>
                if NullIfEmpty opts then ROk IRNull st
                else match v with
                     | VSlice _ => ROk (IRSeq []) st
                     | _ => ROk (IRMap []) st
                     end
            | Some _ => RErr (MaxDepthError (path ctx)) st
            end
        | _ => RErr (MaxDepthError (path ctx)) st
        end
      else
      match (match v with
             | VPtr _ | VMap _ | VSlice _ => checkPointer ctx1 st v
             | _ => ROk tt st
             end) with
      | ROk _ st' => dispatch ctx1 st' v
      | RErr e st' => RErr e st'
      | RPanic p => RPanic p
      | ROutOfFuel => ROutOfFuel
      end
  end.

End Traversal.

(** [valueToMap]: each call consumes one unit of fuel (one Go stack
    frame); its deferred [recover] re-raises panics as package errors. *)
Fixpoint valueToMap (opts : Options) (h : heap) (groups : list string)
    (mode : GroupMode) (fuel : nat) (ctx : serializeContext) (st : pointers)
    (v : val) : outcome ir :=
  match fuel with
  | O => ROutOfFuel
  | S fuel' =>
      recoverAt (path ctx)
        (valueToMap_body opts h groups mode
           (valueToMap opts h groups mode fuel') ctx st v)
  end.

(* ------------------------------------------------------------------ *)
(** ** Public entry points *)

(** What the caller of an entry point observes: a result, a returned
    error, a panic unwinding out of the call, or a stack overflow. *)
Inductive result (A : Type) :=
| Ok (a : A)
| Err (e : goerr)
| Panic (p : panicv)
| StackOverflow.
Arguments Ok {A} a.
Arguments Err {A} e.
Arguments Panic {A} p.
Arguments StackOverflow {A}.

(** The deferred function of the entry points: it recovers a panic and
    calls [panic] again with the wrapped value. *)
Definition recoverRoot {A} (r : result A) : result A :=
  match r with
  | Panic (PanicErr e) => Panic (PanicErr (WrapJSONError e "Root"))
  | Panic (PanicVal s) => Panic (PanicErr (ReflectionError "Root" (RawError s)))
  | _ => r
  end.

Section Marshal.

(** [json.Marshal] on an IR value: the external encoder. *)
Variable jsonMarshal : ir -> string + goerr.

(** [MarshalByGroupsWithOptions]; [v = None] is a nil [any]. *)
Definition MarshalByGroupsWithOptions (fuel : nat) (h : heap)
    (v : option val) (opts : Options) (groups : list string)
    : result string :=
  recoverRoot
    match v with
    | None => Ok "null"
    | Some x =>
        match valueToMap opts h groups (GroupModeOpt opts) fuel newContext ∅ x
        with
        | RErr e _ => Err (WrapJSONError e "Root")
        | RPanic p => Panic p
        | ROutOfFuel => StackOverflow
        | ROk data _ =>
            let data := if String.eqb (TopLevelKey opts) "" then data
                        else IRMap [(TopLevelKey opts, data)] in
            match jsonMarshal data with
            | inl bytes => Ok bytes
            | inr e => Err (WrapJSONError e "Root")
            end
        end
    end.

End Marshal.

(** [MarshalToMapWithOptions]; [Ok None] is the nil map. *)
Definition MarshalToMapWithOptions (fuel : nat) (h : heap) (v : option val)
    (opts : Options) (groups : list string)
    : result (option (list (string * ir))) :=
  recoverRoot
    match v with
    | None => Ok None
    | Some x =>
        match valueToMap opts h groups (GroupModeOpt opts) fuel newContext ∅ x
        with
        | RErr e _ => Err (WrapJSONError e "Root")
        | RPanic p => Panic p
        | ROutOfFuel => StackOverflow
        | ROk (IRMap m) _ => Ok (Some m)
        | ROk r _ => Ok (Some [("value", r)])
        end
    end.

(* ------------------------------------------------------------------ *)
(** ** Test fixtures *)

(** The option values the README lists as defaults ([MaxDepth] 32, nil
    pointers ignored, cycle check on). *)
Definition readmeOpts : Options := {|
  GroupModeOpt := GroupModeOr; TopLevelKey := ""; TagKey := "groups";
  NullIfEmpty := false; IgnoreNilPointers := true; MaxDepth := 32;
  DisableCircularCheck := false |}.

Definition withMaxDepth (o : Options) (d : Z) : Options := {|
  GroupModeOpt := GroupModeOpt o; TopLevelKey := TopLevelKey o;
  TagKey := TagKey o; NullIfEmpty := NullIfEmpty o;
  IgnoreNilPointers := IgnoreNilPointers o; MaxDepth := d;
  DisableCircularCheck := DisableCircularCheck o |}.

(** [WithNullIfEmpty(true)]: it also turns [IgnoreNilPointers] off. *)
Definition withNullIfEmpty (o : Options) : Options := {|
  GroupModeOpt := GroupModeOpt o; TopLevelKey := TopLevelKey o;
  TagKey := TagKey o; NullIfEmpty := true;
  IgnoreNilPointers := false; MaxDepth := MaxDepth o;
  DisableCircularCheck := DisableCircularCheck o |}.


(** A field [name] at index [i] with JSON name [json] and groups [gs]. *)
Definition fld (i : Z) (name json : string) (gs : list string)
    (omitempty omitzero : bool) : fieldInfo := {|
  Index := [i]; Name := name; JSONName := json; Groups := gs;
  OmitEmpty := omitempty; OmitZero := omitzero; Anonymous := false |}.

(** The [Node] struct of [TestCircularReferenceDetection]. *)
Definition node (value : Z) (next prev : option nat) (data : string) : val :=
  VStruct [(fld 0 "Value" "value" ["public"] false false, VInt value);
           (fld 1 "Next" "next" ["public"] true false, VPtr next);
           (fld 2 "Prev" "prev" ["public"] true false, VPtr prev);
           (fld 3 "Data" "data" ["public"] true false, VString data)].

(** nodeA (at 1) -> nodeB (at 2) -> nodeA. *)
Definition cycleAB : heap :=
  {[ 1%nat := HCell (node 1 (Some 2%nat) None "A");
     2%nat := HCell (node 2 (Some 1%nat) None "B") ]}.

(** The field loop of [structToMap] at fuel [n] for its recursive
    [valueToMap] calls. *)
Definition structLoopAt (opts : Options) (h : heap) (groups : list string)
    (mode : GroupMode) (n : nat) :=
  structFields opts h groups mode (valueToMap opts h groups mode n)
    (structEmbedded opts h groups mode (valueToMap opts h groups mode n)).

(** The scenario of the spec: [omitzero] and [omitempty] empty slices. *)
Definition omitStruct : val :=
  VStruct [(fld 0 "Zero" "zero" [] false true, VSlice None);
           (fld 1 "Empty" "empty" [] true false, VSlice None)].

(** A struct with one pointer field [P] to an empty struct. *)
Definition ptrField : val :=
  VStruct [(fld 0 "P" "p" [] false false, VPtr (Some 0%nat))].
Definition ptrFieldHeap : heap := {[ 0%nat := HCell (VStruct []) ]}.

(** The message of the [reflect.ValueError] raised by [IsNil] on an array. *)
Definition isNilArrayMsg : string :=
  "reflect: call of reflect.Value.IsNil on array Value".

(** A slice (at 0) and a map (at 1) holding one nil pointer each. *)
Definition nilElemHeap : heap :=
  {[ 0%nat := HArr [VPtr None];
     1%nat := HMap [(MKString "k", VPtr None)] ]}.

(** A struct whose field [Items] is that slice. *)
Definition itemsStruct : val :=
  VStruct [(fld 0 "ID" "id" [] false false, VInt 7);
           (fld 1 "Items" "items" [] false false, VSlice (Some 0%nat))].

(** A struct with fields in the groups [public] and [admin]. *)
Definition profileFields : list (fieldInfo * val) :=
  [(fld 0 "ID" "id" ["public"] false false, VInt 7);
   (fld 1 "Password" "password" ["admin"] false false, VString "s");
   (fld 2 "Email" "email" ["public"] true false, VString "")].

(* ------------------------------------------------------------------ *)
(** ** Measures, chains and fixtures of the traversal *)

(** Induction on values through the fields of structs, the elements of
    arrays and the dynamic value of interfaces. *)
Section ValInd.
Variable P : val -> Prop.
Hypothesis HString : forall s, P (VString s).
Hypothesis HBool : forall b, P (VBool b).
Hypothesis HInt : forall z, P (VInt z).
Hypothesis HUint : forall z, P (VUint z).
Hypothesis HFloat : forall f, P (VFloat f).
Hypothesis HComplex : forall s, P (VComplex s).
Hypothesis HPtr : forall p, P (VPtr p).
Hypothesis HIfaceNone : P (VIface None).
Hypothesis HIfaceSome : forall x, P x -> P (VIface (Some x)).
Hypothesis HStruct : forall fs, Forall (fun fv => P fv.2) fs -> P (VStruct fs).
Hypothesis HTime : forall z, P (VTime z).
Hypothesis HMapV : forall p, P (VMap p).
Hypothesis HSlice : forall p, P (VSlice p).
Hypothesis HArray : forall xs, Forall P xs -> P (VArray xs).
Hypothesis HOther : forall s, P (VOther s).

Fixpoint val_nested_ind (v : val) : P v :=
  match v with
  | VString s => HString s
  | VBool b => HBool b
  | VInt z => HInt z
  | VUint z => HUint z
  | VFloat f => HFloat f
  | VComplex s => HComplex s
  | VPtr p => HPtr p
  | VIface None => HIfaceNone
  | VIface (Some x) => HIfaceSome x (val_nested_ind x)
  | VStruct fs =>
      HStruct fs
        ((fix go (fs : list (fieldInfo * val)) : Forall (fun fv => P fv.2) fs :=
            match fs with
            | [] => List.Forall_nil _
            | (f, x) :: fs' => @List.Forall_cons _ (fun fv => P fv.2) (f, x) fs'
                                 (val_nested_ind x) (go fs')
            end) fs)
  | VTime z => HTime z
  | VMap p => HMapV p
  | VSlice p => HSlice p
  | VArray xs =>
      HArray xs
        ((fix go (xs : list val) : Forall P xs :=
            match xs with
            | [] => List.Forall_nil _
            | x :: xs' => List.Forall_cons _ x xs' (val_nested_ind x) (go xs')
            end) xs)
  | VOther s => HOther s
  end.
End ValInd.

(** The inline nesting height of a value: interfaces, structs and arrays
    hold their parts inline; references lead into the heap. *)
Fixpoint vheight (v : val) : nat :=
  match v with
  | VIface (Some x) => S (vheight x)
  | VStruct fs => S (list_max (map (fun fv => vheight fv.2) fs))
  | VArray xs => S (list_max (map vheight xs))
  | _ => 0
  end.

Definition oheight (o : hobj) : nat :=
  match o with
  | HCell v => vheight v
  | HArr xs => list_max (map vheight xs)
  | HMap kvs => list_max (map (fun kv => vheight kv.2) kvs)
  end.

(** The largest height of a value stored in the heap. *)
Definition hheight (h : heap) : nat :=
  list_max (map (fun ao => oheight ao.2) (map_to_list h)).

(** The heap identities not yet visited. *)
Definition unvisited (h : heap) (st : pointers) : nat :=
  size (dom h ∖ dom st).

(** A fuel that suffices for [valueToMap] on [v] with visited map [st]. *)
Definition fuelBound (h : heap) (st : pointers) (v : val) : nat :=
  S (vheight v + unvisited h st * S (S (hheight h))).

(** The outcome is a result, not the stack running out. *)
Definition fuel_ok {A} (o : outcome A) : Prop :=
  match o with ROutOfFuel => False | _ => True end.

(** The visited map after the step contains the one before it. *)
Definition grows {A} (st : pointers) (o : outcome A) : Prop :=
  match o with
  | ROk _ st' | RErr _ st' => st ⊆ st'
  | _ => True
  end.

(** The values [dispatch] recurses into: inline parts, or the heap object
    of a reference. *)
Definition kids (h : heap) (v : val) : list val :=
  match v with
  | VPtr (Some a) => match h !! a with Some (HCell x) => [x] | _ => [] end
  | VIface (Some x) => [x]
  | VStruct fs => map snd fs
  | VMap p => match map_entries h p with Some kvs => map snd kvs | None => [] end
  | VSlice p => match slice_elems h p with Some xs => xs | None => [] end
  | VArray xs => xs
  | _ => []
  end.

(** One level of a chain of nesting. *)
Inductive layer := LPtr | LIface | LStruct | LSlice | LMap | LArray.

(** [build ls a leaf]: the chain [ls] ending in [leaf], its heap objects
    at the identities [a], [a+1], ... *)
Fixpoint build (ls : list layer) (a : nat) (leaf : val) : val * heap :=
  match ls with
  | [] => (leaf, ∅)
  | l :: ls' =>
      let '(v, hp) := build ls' (S a) leaf in
      match l with
      | LPtr => (VPtr (Some a), <[a := HCell v]> hp)
      | LIface => (VIface (Some v), hp)
      | LStruct => (VStruct [(fld 0 "F" "f" [] false false, v)], hp)
      | LSlice => (VSlice (Some a), <[a := HArr [v]]> hp)
      | LMap => (VMap (Some a), <[a := HMap [(MKString "k", v)]]> hp)
      | LArray => (VArray [v], hp)
      end
  end.

(** The leaves of a chain: scalars, empty slices and maps (nil or not)
    and the zero-length array. *)
Definition chain_leaf (h : heap) (v : val) : bool :=
  match v with
  | VString _ | VBool _ | VInt _ | VUint _ | VFloat _ | VComplex _ => true
  | VSlice p => match slice_elems h p with Some [] => true | _ => false end
  | VMap p => match map_entries h p with Some [] => true | _ => false end
  | VArray [] => true
  | _ => false
  end.

(** Whether the last level of a chain is a struct. *)
Fixpoint last_struct (ls : list layer) : bool :=
  match ls with
  | [] => false
  | [LStruct] => true
  | [_] => false
  | _ :: ls' => last_struct ls'
  end.

(** The levels a leaf adds to the chain [ls]: one for a zero-length
    array, which is not exempt from the depth limit, except as the field
    of a struct under the null-if-empty policy, which renders it as null
    without visiting it. *)
Definition leaf_levels (nullIfEmpty : bool) (ls : list layer) (v : val) : nat :=
  match v with
  | VArray [] => if nullIfEmpty && last_struct ls then 0 else 1
  | _ => 0
  end.

(** A zero-length array visited under the null-if-empty policy panics
    ([IsNil] on an array). *)
Definition leaf_panics (nullIfEmpty : bool) (ls : list layer) (v : val) : bool :=
  match v with
  | VArray [] => nullIfEmpty && negb (last_struct ls)
  | _ => false
  end.

(** A non-nil pointer, or a slice or map of non-zero length: the values
    whose identity [checkPointer] records. *)
Definition nonempty_ref (h : heap) (v : val) : bool :=
  match v with
  | VPtr (Some _) => true
  | VMap _ | VSlice _ => match Len h v with Some (S _) => true | _ => false end
  | _ => false
  end.

(** Two sibling fields [A] and [B] pointing at the same integer. *)
Definition siblingHeap : heap := {[ 0%nat := HCell (VInt 1) ]}.
Definition siblingStruct : val :=
  VStruct [(fld 0 "A" "a" [] false false, VPtr (Some 0%nat));
           (fld 1 "B" "b" [] false false, VPtr (Some 0%nat))].

(** A field [A] pointing at an integer, and a field [B] holding a slice
    whose element points at the same integer. *)
Definition sharedDeepHeap : heap :=
  {[ 0%nat := HCell (VInt 1); 1%nat := HArr [VPtr (Some 0%nat)] ]}.
Definition sharedDeepStruct : val :=
  VStruct [(fld 0 "A" "a" [] false false, VPtr (Some 0%nat));
           (fld 1 "B" "b" [] false false, VSlice (Some 1%nat))].

(** The outcome of traversing a chain: the depth-exceeded error when [b]
    holds, else a panic when [pan] holds, a result otherwise. *)
Definition chain_outcome (b pan : bool) (o : outcome ir) : Prop :=
  if b then exists p st', o = RErr (MaxDepthError p) st'
  else if pan then exists p, o = RPanic p
  else exists x st', o = ROk x st'.

(* ================================================================== *)
(** * The field cache (cache.go) *)

Module Cache.

(** A [reflect.Type]: its identity and whether its kind is [Struct]. *)
Record rtype := { type_id : nat; type_is_struct : bool }.

Definition rtype_eqb (a b : rtype) : bool :=
  Nat.eqb (type_id a) (type_id b) && Bool.eqb (type_is_struct a) (type_is_struct b).

Record cacheEntry := { createdAt : Z; value : list fieldInfo }.

(** *** [container/list] *)

(** An [Element] of a doubly linked list: [inList] is [e.list == l];
    [None] links are nil pointers.  Elements live in a node heap; node 0
    is the list's root sentinel, whose [Value] is [None]. *)
Record Element := {
  prev : option nat; next : option nat; inList : bool;
  Value : option cacheEntry }.

Record List := { nodes : gmap nat Element; len : nat }.

Definition root : nat := 0.

(** The updates of single fields; [None] is a nil-pointer dereference. *)
Definition update (l : List) (x : nat) (f : Element -> Element) : option List :=
  ex ← nodes l !! x; Some {| nodes := <[x := f ex]> (nodes l); len := len l |}.

Definition setPrev (l : List) (x : nat) (y : option nat) : option List :=
  update l x (fun ex => {| prev := y; next := next ex; inList := inList ex; Value := Value ex |}).
Definition setNext (l : List) (x : nat) (y : option nat) : option List :=
  update l x (fun ex => {| prev := prev ex; next := y; inList := inList ex; Value := Value ex |}).
Definition setInList (l : List) (x : nat) (b : bool) : option List :=
  update l x (fun ex => {| prev := prev ex; next := next ex; inList := b; Value := Value ex |}).

(** [list.New] *)
Definition New : List := {|
  nodes := {[ root := {| prev := Some root; next := Some root; inList := false;
                         Value := None |} ]};
  len := 0 |}.

(** [l.Init()]: resets the root and the length; elements are untouched. *)
Definition Init (l : List) : option List :=
  l ← setNext l root (Some root); l ← setPrev l root (Some root);
  Some {| nodes := nodes l; len := 0 |}.

(** [l.insert(e, at)] *)
Definition insert (l : List) (e at_ : nat) : option List :=
  l ← setPrev l e (Some at_);
  atEl ← nodes l !! at_; l ← setNext l e (next atEl);
  l ← setNext l at_ (Some e);
  e_el ← nodes l !! e; n ← next e_el; l ← setPrev l n (Some e);
  l ← setInList l e true;
  Some {| nodes := nodes l; len := S (len l) |}.

(** [l.remove(e)] *)
Definition remove (l : List) (e : nat) : option List :=
  e_el ← nodes l !! e; p ← prev e_el; l ← setNext l p (next e_el);
  e_el ← nodes l !! e; n ← next e_el; l ← setPrev l n (prev e_el);
  l ← setNext l e None; l ← setPrev l e None; l ← setInList l e false;
  Some {| nodes := nodes l; len := Nat.pred (len l) |}.

(** [l.move(e, at)] *)
Definition move (l : List) (e at_ : nat) : option List :=
  if Nat.eqb e at_ then Some l else
  e_el ← nodes l !! e; p ← prev e_el; l ← setNext l p (next e_el);
  e_el ← nodes l !! e; n ← next e_el; l ← setPrev l n (prev e_el);
  l ← setPrev l e (Some at_);
  atEl ← nodes l !! at_; l ← setNext l e (next atEl);
  l ← setNext l at_ (Some e);
  e_el ← nodes l !! e; n ← next e_el; setPrev l n (Some e).

(** [l.Back()]: [None] is a nil element. *)
Definition Back (l : List) : option nat :=
  if Nat.eqb (len l) 0 then None else r ← nodes l !! root; prev r.

(** [l.Remove(e)] *)
Definition Remove (l : List) (e : nat) : option List :=
  e_el ← nodes l !! e; if inList e_el then remove l e else Some l.

(** [l.PushFront(v)], the new element being node [e]. *)
Definition PushFront (l : List) (v : cacheEntry) (e : nat) : option List :=
  insert {| nodes := <[e := {| prev := None; next := None; inList := false;
                               Value := Some v |}]> (nodes l);
            len := len l |} e root.

(** [l.MoveToFront(e)] *)
Definition MoveToFront (l : List) (e : nat) : option List :=
  e_el ← nodes l !! e; r ← nodes l !! root;
  if negb (inList e_el) || bool_decide (next r = Some e) then Some l
  else move l e root.

(** *** The cache *)

(** [map[reflect.Type]*list.Element] as an association list with
    unique keys. *)
Fixpoint mlookup (t : rtype) (m : list (rtype * nat)) : option nat :=
  match m with
  | [] => None
  | (t', e) :: m' => if rtype_eqb t t' then Some e else mlookup t m'
  end.

Definition mdelete (t : rtype) (m : list (rtype * nat)) : list (rtype * nat) :=
  filter (fun kv => negb (rtype_eqb t kv.1)) m.

Definition minsert (t : rtype) (e : nat) (m : list (rtype * nat))
    : list (rtype * nat) :=
  (t, e) :: mdelete t m.

(** [fieldCache]; [fresh] allocates the node of the next element. *)
Record fieldCache := {
  cache : list (rtype * nat);
  evictList : List;
  maxSize : Z;
  hits : Z; misses : Z; evictions : Z;
  fresh : nat }.

Definition newFieldCache (size : Z) : fieldCache := {|
  cache := []; evictList := New; maxSize := size;
  hits := 0; misses := 0; evictions := 0; fresh := 1 |}.

Definition with_list (c : fieldCache) (l : List) : fieldCache := {|
  cache := cache c; evictList := l; maxSize := maxSize c; hits := hits c;
  misses := misses c; evictions := evictions c; fresh := fresh c |}.

(** [evict]; [None] is a nil-pointer panic. *)
Definition evict (c : fieldCache) : option (fieldCache * option goerr) :=
  if Nat.eqb (len (evictList c)) 0 then Some (c, None) else
  match Back (evictList c) with
  | None => Some (c, None)
  | Some e =>
      l ← Remove (evictList c) e;
      e_el ← nodes l !! e;
      match Value e_el with
      | None => Some (with_list c l, Some CacheOverflowError)
      | Some _ =>
          match List.find (fun kv => Nat.eqb kv.2 e) (cache c) with
          | Some (typ, _) =>
              Some ({| cache := mdelete typ (cache c); evictList := l;
                       maxSize := maxSize c; hits := hits c;
                       misses := misses c; evictions := evictions c + 1;
                       fresh := fresh c |}, None)
          | None => Some (with_list c l, Some CacheOverflowError)
          end
      end
  end.

(** The eviction loop of [getFieldsInfo] (errors ignored).  Each round
    that does not shorten the list leaves the state as it is, so running
    out of the [len + 1] rounds means the Go loop does not stop. *)
Fixpoint evictForInsert (fuel : nat) (c : fieldCache) : option fieldCache :=
  let n := Z.of_nat (len (evictList c)) in
  if (maxSize c <=? n) && (0 <? n) then
    match fuel with
    | O => None
    | S f => r ← evict c; evictForInsert f r.1
    end
  else Some c.

(** The loop of [SetMaxSize]: it stops at the first eviction error. *)
Fixpoint shrink (fuel : nat) (c : fieldCache) : option fieldCache :=
  if (Z.of_nat (len (evictList c)) >? maxSize c) && (maxSize c >? 0) then
    match fuel with
    | O => None
    | S f =>
        r ← evict c;
        match r.2 with None => shrink f r.1 | Some _ => Some r.1 end
    end
  else Some c.

(** [SetMaxSize] *)
Definition SetMaxSize (size : Z) (c : fieldCache) : option fieldCache :=
  shrink (S (len (evictList c)))
    {| cache := cache c; evictList := evictList c; maxSize := size;
       hits := hits c; misses := misses c; evictions := evictions c;
       fresh := fresh c |}.

(** [Clear] *)
Definition Clear (c : fieldCache) : option fieldCache :=
  l ← Init (evictList c);
  Some {| cache := []; evictList := l; maxSize := maxSize c;
          hits := 0; misses := 0; evictions := 0; fresh := fresh c |}.

Section Get.

(** [parseFields], the resolver. *)
Variable parseFields : rtype -> string -> list fieldInfo + goerr.

(** [getFieldsInfo t tagKey] at time [now].  Besides the result and the
    new state it returns the element whose promotion a hit hands to a
    new goroutine ([go func() { ... MoveToFront(element) ... }]). *)
Definition getFieldsInfo (t : rtype) (tagKey : string) (now : Z)
    (c : fieldCache)
    : option (result (list fieldInfo) * fieldCache * option nat) :=
  let entryOf (e : nat) :=
    match nodes (evictList c) !! e with
    | Some el => Value el
    | None => None
    end in
  let miss :=
    match parseFields t tagKey with
    | inr err => Some (Err err, c, None)
    | inl fields =>
        match (e ← mlookup t (cache c); entry ← entryOf e; Some (e, entry)) with
        | Some (e, entry) =>
            l ← MoveToFront (evictList c) e;
            Some (Ok (value entry), with_list c l, None)
        | None =>
            c1 ← (if 0 <? maxSize c
                  then evictForInsert (S (len (evictList c))) c
                  else Some c);
            l ← PushFront (evictList c1) {| createdAt := now; value := fields |}
                  (fresh c1);
            Some (Ok fields,
                  {| cache := minsert t (fresh c1) (cache c1); evictList := l;
                     maxSize := maxSize c1; hits := hits c1;
                     misses := misses c1 + 1; evictions := evictions c1;
                     fresh := S (fresh c1) |}, None)
        end
    end in
  if negb (type_is_struct t) then Some (Ok [], c, None) else
  match (e ← mlookup t (cache c); entry ← entryOf e; Some (e, entry)) with
  | Some (e, entry) =>
      Some (Ok (value entry),
            {| cache := cache c; evictList := evictList c;
               maxSize := maxSize c; hits := hits c + 1; misses := misses c;
               evictions := evictions c; fresh := fresh c |}, Some e)
  | None => miss
  end.

(** The operations a program performs on the cache, including running a
    promotion goroutine spawned by an earlier hit. *)
Inductive op :=
| OpGet (t : rtype) (now : Z)
| OpPromote (e : nat)
| OpSetMaxSize (size : Z)
| OpClear.

(** Running a sequence of operations; [pending] collects the elements
    whose promotion goroutines have been spawned. *)
Fixpoint run (tagKey : string) (ops : list op) (c : fieldCache)
    (pending : list nat) : option (fieldCache * list nat) :=
  match ops with
  | [] => Some (c, pending)
  | OpGet t now :: ops' =>
      r ← getFieldsInfo t tagKey now c;
      let '(_, c', spawned) := r in
      run tagKey ops' c' (match spawned with Some e => e :: pending | None => pending end)
  | OpPromote e :: ops' =>
      l ← MoveToFront (evictList c) e; run tagKey ops' (with_list c l) pending
  | OpSetMaxSize size :: ops' => c' ← SetMaxSize size c; run tagKey ops' c' pending
  | OpClear :: ops' => c' ← Clear c; run tagKey ops' c' pending
  end.

End Get.

(** *** Fixtures *)

(** A resolver that always succeeds, and three struct types. *)
Definition fieldsFix (t : rtype) : list fieldInfo :=
  [fld (Z.of_nat (type_id t)) "F" "f" [] false false].

Definition parseFix (t : rtype) (tagKey : string) : list fieldInfo + goerr :=
  inl (fieldsFix t).

(** A resolver that always fails. *)
Definition parseFail (t : rtype) (tagKey : string) : list fieldInfo + goerr :=
  inr CacheOverflowError.

Definition t1 : rtype := {| type_id := 1; type_is_struct := true |}.
Definition t2 : rtype := {| type_id := 2; type_is_struct := true |}.
Definition t3 : rtype := {| type_id := 3; type_is_struct := true |}.

(** A hit on [t1] whose promotion goroutine runs only after [Clear],
    followed by two misses. *)
Definition clearRaceTrace : list op :=
  [OpGet t1 0; OpGet t1 1; OpClear; OpPromote 1; OpGet t2 2; OpGet t3 3].

(** The same calls, the promotion running before [Clear]. *)
Definition clearInOrderTrace : list op :=
  [OpGet t1 0; OpGet t1 1; OpPromote 1; OpClear; OpGet t2 2; OpGet t3 3].

(** A resolver whose field takes its groups from the tag key. *)
Definition parseByTag (t : rtype) (tagKey : string) : list fieldInfo + goerr :=
  inl [fld (Z.of_nat (type_id t)) "F" "f" [tagKey] false false].

End Cache.

(* ================================================================== *)
(** * Struct tags (parseJSONTag, parseGroupsTag, parseFields) *)

Module Tags.

(** [strings.Split(s, ",")]: the pieces between the commas; the empty
    string gives one empty piece. *)
Fixpoint splitComma (s : string) : list string :=
  match s with
  | EmptyString => [EmptyString]
  | String c s' =>
      let parts := splitComma s' in
      if Ascii.eqb c ","%char then EmptyString :: parts
      else match parts with
           | p :: ps => String c p :: ps
           | [] => [String c EmptyString]
           end
  end.

(** The UTF-8 encodings of the white-space runes of [unicode.IsSpace]:
    '\t', '\n', '\v', '\f', '\r', ' ', U+0085, U+00A0, U+1680,
    U+2000..U+200A, U+2028, U+2029, U+202F, U+205F and U+3000. *)
Definition spaceEnc : list (list Ascii.ascii) :=
  map (map Ascii.ascii_of_nat)
    ([[9]; [10]; [11]; [12]; [13]; [32]; [194; 133]; [194; 160];
      [225; 154; 128]] ++
     map (fun k => [226; 128; 128 + k]) (seq 0 11) ++
     [[226; 128; 168]; [226; 128; 169]; [226; 128; 175];
      [226; 129; 159]; [227; 128; 128]])%nat.

Fixpoint isPrefix (e l : list Ascii.ascii) : bool :=
  match e, l with
  | [], _ => true
  | a :: e', b :: l' => Ascii.eqb a b && isPrefix e' l'
  | _ :: _, [] => false
  end.

(** Remove leading encodings from [encs], at most [n] of them. *)
Fixpoint dropLeading (n : nat) (encs : list (list Ascii.ascii))
    (l : list Ascii.ascii) : list Ascii.ascii :=
  match n with
  | O => l
  | S n' =>
      match List.find (fun e => isPrefix e l) encs with
      | Some e => dropLeading n' encs (drop (length e) l)
      | None => l
      end
  end.

(** [strings.TrimSpace]: leading and trailing white space removed. *)
Definition TrimSpace (s : string) : string :=
  let l := String.list_ascii_of_string s in
  let l1 := dropLeading (length l) spaceEnc l in
  let l2 := rev (dropLeading (length l1) (map (@rev _) spaceEnc) (rev l1)) in
  String.string_of_list_ascii l2.

(** [parseJSONTag]: the JSON name (the field name when the tag or its
    first piece is empty) and the [omitempty] / [omitzero] options. *)
Definition parseJSONTag (fieldName jsonTag : string) : string * bool * bool :=
  if String.eqb jsonTag "" then (fieldName, false, false) else
  let parts := splitComma jsonTag in
  (* [strings.Split] never returns an empty slice, so [parts[0]] exists *)
  let name := default "" (head parts) in
  let name := if String.eqb name "" then fieldName else name in
  let '(omitEmpty, omitZero) :=
    fold_left (fun '(oe, oz) opt =>
                 if String.eqb opt "omitempty" then (true, oz)
                 else if String.eqb opt "omitzero" then (oe, true)
                 else (oe, oz))
              (tail parts) (false, false) in
  (name, omitEmpty, omitZero).

(** [parseGroupsTag]: the trimmed, non-empty comma-separated groups. *)
Definition parseGroupsTag (groupsTag : string) : list string :=
  if String.eqb groupsTag "" then [] else
  fold_left (fun groups part =>
               let g := TrimSpace part in
               if negb (String.eqb g "") then groups ++ [g] else groups)
            (splitComma groupsTag) [].

(** A struct type as [reflect] shows it to [parseFields]: for each field
    its name, whether it is exported, whether it is embedded, its tag (the
    [key:"value"] pairs in order) and its type.  Other kinds are opaque. *)
Inductive stype :=
| SStruct (fields : list sfield)
| SOther
with sfield :=
| SField (fname : string) (exported anonymous : bool)
         (ftag : list (string * string)) (ftype : stype).

Definition sf_name (f : sfield) : string := let 'SField n _ _ _ _ := f in n.
Definition sf_exported (f : sfield) : bool := let 'SField _ e _ _ _ := f in e.
Definition sf_anonymous (f : sfield) : bool := let 'SField _ _ a _ _ := f in a.
Definition sf_tag (f : sfield) : list (string * string) := let 'SField _ _ _ t _ := f in t.
Definition sf_type (f : sfield) : stype := let 'SField _ _ _ _ ty := f in ty.

(** [t.Kind() == reflect.Struct]. *)
Definition is_struct (t : stype) : bool :=
  match t with SStruct _ => true | SOther => false end.

(** [StructTag.Get]: the value of the first pair with this key, or [""]. *)
Definition TagGet (tag : list (string * string)) (key : string) : string :=
  match List.find (fun kv => String.eqb kv.1 key) tag with
  | Some kv => kv.2
  | None => ""
  end.

(** [parseFields]: the fields of a struct type, the fields of embedded
    structs flattened in place with their index path prefixed.  The Go
    function recovers from panics of [reflect], which do not occur on a
    struct type; its error is always [nil]. *)
Fixpoint parseFields (t : stype) (tagKey : string) : list fieldInfo :=
  match t with
  | SOther => []
  | SStruct fs =>
      (fix loop (i : Z) (fs : list sfield) (fields : list fieldInfo)
           : list fieldInfo :=
         match fs with
         | [] => fields
         | SField name exported anonymous tag ty :: rest =>
             if negb exported then loop (i + 1) rest fields else
             let jsonTag := TagGet tag "json" in
             let groupsTag := TagGet tag tagKey in
             let '(jsonName, omitEmpty, omitZero) := parseJSONTag name jsonTag in
             if String.eqb jsonName "-" then loop (i + 1) rest fields else
             let groups := parseGroupsTag groupsTag in
             if anonymous && is_struct ty then
               let nestedFields := parseFields ty tagKey in
               loop (i + 1) rest
                 (fields ++ map (fun nf =>
                    {| Index := i :: Index nf;
                       Name := name +:+ "." +:+ Name nf;
                       JSONName := JSONName nf;
                       Groups := Groups nf;
                       OmitEmpty := OmitEmpty nf;
                       OmitZero := OmitZero nf;
                       Anonymous := Anonymous nf |}) nestedFields)
             else
               loop (i + 1) rest
                 (fields ++ [{| Index := [i];
                                Name := name;
                                JSONName := jsonName;
                                Groups := groups;
                                OmitEmpty := omitEmpty;
                                OmitZero := omitZero;
                                Anonymous := anonymous |}])
         end) 0 fs []
  end.

(** [reflect.Type.FieldByIndex]: the fields met along an index path, the
    last one apart. *)
Fixpoint walk (t : stype) (idx : list Z) : option (list sfield * sfield) :=
  match idx, t with
  | i :: rest, SStruct fs =>
      if i <? 0 then None else
      match nth_error fs (Z.to_nat i) with
      | None => None
      | Some f =>
          match rest with
          | [] => Some ([], f)
          | _ :: _ =>
              match walk (sf_type f) rest with
              | Some (p, leaf) => Some (f :: p, leaf)
              | None => None
              end
          end
      end
  | _, _ => None
  end.

End Tags.

(* ================================================================== *)
(** * Properties *)

(** ** The traversal on a fixture *)

(** The A-B cycle of the spec is reported at the second visit of A. *)
Example cycleAB_detected :
  valueToMap readmeOpts cycleAB ["public"] GroupModeOr 20 newContext ∅
    (VPtr (Some 1%nat))
  = RErr (CircularReferenceError "Next..Next") (<[2%nat := "Next"]> (<[1%nat := ""]> ∅)).
Proof. vm_compute. reflexivity. Qed.

(** ** Group filter *)

Lemma contains_In (xs : list string) (g : string) :
  contains xs g = true <-> In g xs.
Proof.
  unfold contains. rewrite existsb_exists. split.
  - intros [x [Hin Heq]]. apply String.eqb_eq in Heq. subst. exact Hin.
  - intros Hin. exists g. split; [exact Hin | apply String.eqb_refl].
Qed.

(** C5: with no requested groups every field is included; otherwise a
    field is included iff it declares at least one group and, in ANY
    ([GroupModeOr]) mode, shares a group with the request, or, in ALL
    ([GroupModeAnd]) mode, declares every requested group.  In
    particular a field without groups is excluded whenever a group is
    requested, in every mode. *)
Theorem shouldIncludeField_spec (field : fieldInfo) (mode : GroupMode)
    (groups : list string) :
  shouldIncludeField field mode groups = true <->
  groups = [] \/
  (Groups field <> [] /\
   ((mode = GroupModeOr /\ exists g, In g groups /\ In g (Groups field)) \/
    (mode = GroupModeAnd /\ forall g, In g groups -> In g (Groups field)))).
Proof.
  unfold shouldIncludeField.
  destruct groups as [|g0 gs]; cbn [length Nat.eqb existsb forallb].
  - split; [intros _; left; reflexivity | reflexivity].
  - destruct (Groups field) as [|f0 fs] eqn:Hf; cbn [length Nat.eqb].
    + split; [discriminate|]. intros [H|[H _]]; [discriminate | congruence].
    + unfold GroupModeOr, GroupModeAnd.
      destruct (Z.eqb_spec mode 0) as [->|Hm0].
      * rewrite <- Hf. split.
        -- intros H. right. split; [congruence|]. left. split; [reflexivity|].
           apply orb_true_iff in H as [H|H].
           ++ exists g0. split; [left; reflexivity | apply contains_In; exact H].
           ++ apply existsb_exists in H as [g [Hin Hc]].
              exists g. split; [right; exact Hin | apply contains_In; exact Hc].
        -- intros [H|[_ [[_ [g [Hin Hc]]]|[H _]]]]; [discriminate| |discriminate].
           apply orb_true_iff. destruct Hin as [<-|Hin].
           ++ left. apply contains_In. exact Hc.
           ++ right. apply existsb_exists. exists g. split; [exact Hin|].
              apply contains_In. exact Hc.
      * destruct (Z.eqb_spec mode 1) as [->|Hm1].
        -- rewrite <- Hf. split.
           ++ intros H. right. split; [congruence|]. right. split; [reflexivity|].
              apply andb_true_iff in H as [H1 H2]. intros g [<-|Hin].
              ** apply contains_In. exact H1.
              ** rewrite forallb_forall in H2. apply contains_In. apply H2. exact Hin.
           ++ intros [H|[_ [[H _]|[_ Hall]]]]; [discriminate|discriminate|].
              apply andb_true_iff. split.
              ** apply contains_In. apply Hall. left. reflexivity.
              ** apply forallb_forall. intros g Hin. apply contains_In.
                 apply Hall. right. exact Hin.
        -- split; [discriminate|].
           intros [H|[_ [[H _]|[H _]]]]; [discriminate|congruence|congruence].
Qed.

(** ** Empty-versus-zero predicates *)

(** An empty slice (nil or not) is rendered as [[]] by [valueToMap] under
    the default policy, at any depth, and leaves the visited map as it
    was. *)
Lemma valueToMap_empty_slice (opts : Options) (h : heap)
    (groups : list string) (mode : GroupMode) (n : nat)
    (ctx : serializeContext) (st : pointers) (p : option nat) :
  NullIfEmpty opts = false -> slice_elems h p = Some [] ->
  valueToMap opts h groups mode (S n) ctx st (VSlice p) = ROk (IRSeq []) st.
Proof.
  intros Hnull Hel. cbn [valueToMap]. unfold valueToMap_body.
  unfold Len. rewrite Hel. cbn [fmap option_fmap option_map length].
  destruct (depthExceeded opts _).
  - rewrite Hnull. reflexivity.
  - unfold checkPointer. unfold Len. rewrite Hel.
    cbn [fmap option_fmap option_map length].
    destruct (DisableCircularCheck opts); cbn;
      rewrite Hel, Hnull; reflexivity.
Qed.

(** C8: under the default (non-null-if-empty) policy, an included
    struct field holding an empty slice is written as [[]] when it is
    tagged [omitzero] (and not [omitempty]), and is left out when it is
    tagged [omitempty]: [isZeroValue] does not count an empty slice as
    zero while [isEmptyValue] counts it as empty. *)
Theorem omitzero_keeps_empty_slice (opts : Options) (h : heap)
    (groups : list string) (mode : GroupMode) (n : nat)
    (ctx : serializeContext) (st : pointers) (result : list (string * ir))
    (field : fieldInfo) (p : option nat) (rest : list (fieldInfo * val)) :
  NullIfEmpty opts = false ->
  shouldIncludeField field mode groups = true ->
  slice_elems h p = Some [] ->
  isZeroValue (VSlice p) = false /\
  isEmptyValue h (VSlice p) = Some true /\
  (OmitZero field = true -> OmitEmpty field = false ->
   structLoopAt opts h groups mode (S n) ctx st result ((field, VSlice p) :: rest)
   = structLoopAt opts h groups mode (S n) ctx st
       (set_key (JSONName field) (IRSeq []) result) rest) /\
  (OmitEmpty field = true ->
   structLoopAt opts h groups mode (S n) ctx st result ((field, VSlice p) :: rest)
   = structLoopAt opts h groups mode (S n) ctx st result rest).
Proof.
  intros Hnull Hinc Hel.
  assert (Hemp : isEmptyValue h (VSlice p) = Some true).
  { unfold isEmptyValue, Len. rewrite Hel. reflexivity. }
  split; [reflexivity|]. split; [exact Hemp|]. split.
  - intros Hz He. unfold structLoopAt. cbn [structFields].
    rewrite Hinc. cbn [negb]. rewrite Hemp, Hnull, Hz, He. cbn -[valueToMap].
    rewrite (valueToMap_empty_slice opts h groups mode n _ st p Hnull Hel).
    reflexivity.
  - intros He. unfold structLoopAt. cbn [structFields].
    rewrite Hinc. cbn [negb]. rewrite Hemp, Hnull, He. reflexivity.
Qed.

(** C8 instance: an [omitzero] field holding a nil slice. *)
Lemma omitzero_keeps_empty_slice_witness :
  NullIfEmpty readmeOpts = false /\
  shouldIncludeField (fld 0 "Zero" "zero" [] false true) GroupModeOr [] = true /\
  slice_elems ∅ None = Some [] /\
  isZeroValue (VSlice None) = false /\ isEmptyValue ∅ (VSlice None) = Some true.
Proof.
  split; [reflexivity|]. split; [reflexivity|]. split; [reflexivity|].
  destruct (omitzero_keeps_empty_slice readmeOpts ∅ [] GroupModeOr 0 newContext
              ∅ [] (fld 0 "Zero" "zero" [] false true) None [] eq_refl eq_refl
              eq_refl) as [H1 [H2 _]].
  split; [exact H1 | exact H2].
Defined.

Example omitStruct_output :
  MarshalToMapWithOptions 10 ∅ (Some omitStruct) readmeOpts []
  = Ok (Some [("zero", IRSeq [])]).
Proof. vm_compute. reflexivity. Qed.

(** ** Paths through pointers *)

(** [withPath ctx ""] keeps the path only at the root; below it, it
    appends the separator. *)
Lemma withPath_empty_segment (ctx : serializeContext) :
  path (withPath ctx "") =
  if String.eqb (path ctx) "" then "" else path ctx +:+ ".".
Proof.
  unfold withPath. cbn [path]. destruct (String.eqb (path ctx) ""); reflexivity.
Qed.

(** C9 (code defect): the pointee of the pointer field [P] is traversed
    at path ["P."], not at the pointer's path ["P"]: with a maximum depth
    of 2 the depth error reports ["P."]. *)
Theorem pointer_indirection_adds_separator :
  path (withPath {| path := "P"; depth := 2 |} "") = "P." /\
  valueToMap (withMaxDepth readmeOpts 2) ptrFieldHeap [] GroupModeOr 10
    newContext ∅ ptrField
  = RErr (MaxDepthError "P.") (<[0%nat := "P"]> ∅).
Proof. split; vm_compute; reflexivity. Qed.

(** ** Fault conversion at the entry points *)

(** C1 (code defect): a zero-length array under the null-if-empty policy
    makes [valueToMap] call [IsNil] on an array, which panics; the
    deferred functions of [valueToMap] and of both entry points recover
    the panic and panic again, so the caller sees a panic, not a
    returned error. *)
Theorem entry_points_repanic (jsonMarshal : ir -> string + goerr) (n : nat) :
  MarshalByGroupsWithOptions jsonMarshal (S n) ∅ (Some (VArray []))
    (withNullIfEmpty readmeOpts) []
  = Panic (PanicErr (GoError ErrTypeUnknown isNilArrayMsg ""
                       (Some (RawError isNilArrayMsg)))) /\
  MarshalToMapWithOptions (S n) ∅ (Some (VArray []))
    (withNullIfEmpty readmeOpts) []
  = Panic (PanicErr (GoError ErrTypeUnknown isNilArrayMsg ""
                       (Some (RawError isNilArrayMsg)))).
Proof. split; reflexivity. Qed.

(** ** The drop signal inside sequences and maps *)

(** C2 (code defect): with nil pointers suppressed, a nil-pointer
    element does not vanish from its slice or map: [sliceToSlice] and
    [mapToMap] return the [skip_field] sentinel as an error.  At the top
    level the caller gets an unknown-kind error with message
    ["skip_field"]; inside a struct the sentinel is caught by
    [structToMap], which then drops the whole slice field. *)
Theorem drop_signal_escapes_collections :
  MarshalToMapWithOptions 10 nilElemHeap (Some (VSlice (Some 0%nat)))
    readmeOpts []
  = Err (GoError ErrTypeUnknown "skip_field" "Root" (Some skip_field)) /\
  MarshalToMapWithOptions 10 nilElemHeap (Some (VMap (Some 1%nat)))
    readmeOpts []
  = Err (GoError ErrTypeUnknown "skip_field" "Root" (Some skip_field)) /\
  MarshalToMapWithOptions 10 nilElemHeap (Some itemsStruct) readmeOpts []
  = Ok (Some [("id", IRInt 7)]).
Proof. split; [|split]; vm_compute; reflexivity. Qed.

(** ** The field cache *)

Module CacheFacts.
Import Cache.

Lemma rtype_eqb_refl (t : rtype) : rtype_eqb t t = true.
Proof.
  unfold rtype_eqb. rewrite Nat.eqb_refl. destruct (type_is_struct t); reflexivity.
Qed.

(** Deleting an absent key leaves the index as it is. *)
Lemma mdelete_absent (t : rtype) (m : list (rtype * nat)) :
  mlookup t m = None -> mdelete t m = m.
Proof.
  induction m as [|[t' e] m IH]; cbn; [reflexivity|].
  destruct (rtype_eqb t t'); [discriminate|]. cbn.
  intros H. f_equal. exact (IH H).
Qed.

(** The values carried by the nodes of a list. *)
Definition shape (l : List) : gmap nat (option cacheEntry) := Value <$> nodes l.

Lemma update_shape (l l' : List) (x : nat) (f : Element -> Element) :
  (forall ex, Value (f ex) = Value ex) ->
  update l x f = Some l' -> shape l' = shape l /\ len l' = len l.
Proof.
  intros Hf. unfold update. destruct (nodes l !! x) as [ex|] eqn:Hx; [|discriminate].
  cbn. intros [= <-]. unfold shape. cbn. split; [|reflexivity].
  rewrite fmap_insert, Hf. apply insert_id. rewrite lookup_fmap, Hx. reflexivity.
Qed.

Lemma setPrev_shape l l' x y :
  setPrev l x y = Some l' -> shape l' = shape l /\ len l' = len l.
Proof. apply update_shape. reflexivity. Qed.
Lemma setNext_shape l l' x y :
  setNext l x y = Some l' -> shape l' = shape l /\ len l' = len l.
Proof. apply update_shape. reflexivity. Qed.
Lemma setInList_shape l l' x y :
  setInList l x y = Some l' -> shape l' = shape l /\ len l' = len l.
Proof. apply update_shape. reflexivity. Qed.

(** [insert] relinks nodes: it keeps every node's value and adds one to
    the length. *)
Lemma insert_shape (l l' : List) (e at_ : nat) :
  insert l e at_ = Some l' -> shape l' = shape l /\ len l' = S (len l).
Proof.
  unfold insert.
  destruct (setPrev l e _) as [l1|] eqn:E1; cbn; [|discriminate].
  destruct (nodes l1 !! at_) as [a|]; cbn; [|discriminate].
  destruct (setNext l1 e _) as [l2|] eqn:E2; cbn; [|discriminate].
  destruct (setNext l2 at_ _) as [l3|] eqn:E3; cbn; [|discriminate].
  destruct (nodes l3 !! e) as [ee|]; cbn; [|discriminate].
  destruct (next ee) as [n|]; cbn; [|discriminate].
  destruct (setPrev l3 n _) as [l4|] eqn:E4; cbn; [|discriminate].
  destruct (setInList l4 e _) as [l5|] eqn:E5; cbn; [|discriminate].
  intros [= <-].
  apply setPrev_shape in E1 as [S1 L1]. apply setNext_shape in E2 as [S2 L2].
  apply setNext_shape in E3 as [S3 L3]. apply setPrev_shape in E4 as [S4 L4].
  apply setInList_shape in E5 as [S5 L5].
  unfold shape in *. cbn. split; [congruence | lia].
Qed.

(** [PushFront] stores its value at the new element and adds one to the
    length. *)
Lemma PushFront_value (l l' : List) (v : cacheEntry) (e : nat) :
  PushFront l v e = Some l' ->
  len l' = S (len l) /\ exists el, nodes l' !! e = Some el /\ Value el = Some v.
Proof.
  unfold PushFront. intros H. apply insert_shape in H as [Hs Hl].
  cbn in Hl. split; [exact Hl|].
  assert (Hv : shape l' !! e = Some (Some v)).
  { rewrite Hs. unfold shape. cbn. rewrite lookup_fmap, lookup_insert_eq. reflexivity. }
  unfold shape in Hv. rewrite lookup_fmap in Hv.
  destruct (nodes l' !! e) as [el|]; cbn in Hv; [|discriminate].
  exists el. split; [reflexivity|]. congruence.
Qed.

(** C3 (amended): a capacity of 0 (or below) turns eviction off, not
    caching.  A miss on a struct type still resolves the type, evicts
    nothing and inserts the entry: the list and the index grow by one.
    The next lookup of the type is a hit that returns the stored fields
    without calling the resolver again (whatever resolver is passed). *)
Theorem zero_capacity_still_caches
    (parseFields : rtype -> string -> list fieldInfo + goerr)
    (t : rtype) (tagKey : string) (now : Z) (c c' : fieldCache)
    (fs : list fieldInfo) (r : result (list fieldInfo)) (sp : option nat) :
  maxSize c <= 0 -> type_is_struct t = true -> mlookup t (cache c) = None ->
  parseFields t tagKey = inl fs ->
  getFieldsInfo parseFields t tagKey now c = Some (r, c', sp) ->
  r = Ok fs /\ sp = None /\
  len (evictList c') = S (len (evictList c)) /\
  evictions c' = evictions c /\ misses c' = misses c + 1 /\
  length (cache c') = S (length (cache c)) /\
  mlookup t (cache c') = Some (fresh c) /\
  forall parse' now',
    getFieldsInfo parse' t tagKey now' c'
    = Some (Ok fs,
            {| cache := cache c'; evictList := evictList c';
               maxSize := maxSize c'; hits := hits c' + 1;
               misses := misses c'; evictions := evictions c';
               fresh := fresh c' |}, Some (fresh c)).
Proof.
  intros Hmax Hs Hnone Hp. unfold getFieldsInfo. cbv zeta.
  rewrite Hs, Hnone. cbn [negb mbind option_bind]. rewrite Hp.
  cbn [mbind option_bind].
  replace (0 <? maxSize c) with false by (symmetry; apply Z.ltb_ge; lia).
  cbn [mbind option_bind].
  destruct (PushFront (evictList c) _ (fresh c)) as [l|] eqn:Hpf;
    cbn [mbind option_bind]; [|discriminate].
  intros [= <- <- <-].
  apply PushFront_value in Hpf as [Hlen [el [Hel Hv]]].
  cbn [evictList evictions misses cache fresh].
  unfold minsert. rewrite (mdelete_absent _ _ Hnone).
  cbn [mlookup length]. rewrite rtype_eqb_refl.
  do 7 (split; [reflexivity || exact Hlen|]).
  intros parse' now'. cbn.
  rewrite Hel, Hv. reflexivity.
Qed.

(** C3 instance: a miss on [t1] in a fresh cache of capacity 0. *)
Lemma zero_capacity_still_caches_witness :
  exists c' r sp,
    getFieldsInfo parseFix t1 "groups" 0 (newFieldCache 0) = Some (r, c', sp) /\
    mlookup t1 (cache c') = Some (fresh (newFieldCache 0)).
Proof.
  destruct (getFieldsInfo parseFix t1 "groups" 0 (newFieldCache 0))
    as [[[r c'] sp]|] eqn:E.
  - exists c', r, sp. split; [reflexivity|].
    destruct (zero_capacity_still_caches parseFix t1 "groups" 0
                (newFieldCache 0) c' _ r sp (Z.le_refl 0) eq_refl eq_refl
                eq_refl E) as (_ & _ & _ & _ & _ & _ & H & _).
    exact H.
  - vm_compute in E. discriminate.
Defined.

(** With capacity 0 the cache is not disabled.  The
    second lookup of [t1] is a hit, served even by a resolver that would
    fail, and the statistics count one hit and one miss. *)
Example zero_capacity_second_lookup_hits :
  exists c1 c2,
    getFieldsInfo parseFix t1 "groups" 0 (newFieldCache 0)
    = Some (Ok (fieldsFix t1), c1, None) /\
    getFieldsInfo parseFail t1 "groups" 1 c1
    = Some (Ok (fieldsFix t1), c2, Some 1%nat) /\
    hits c2 = 1 /\ misses c2 = 1 /\ length (cache c2) = 1%nat.
Proof.
  eexists _, _. split; [vm_compute; reflexivity|].
  split; [vm_compute; reflexivity|]. vm_compute. repeat split.
Qed.

(** C4 (code defect): [Clear] resets the list with [evictList.Init()],
    which leaves the old elements pointing at the list.  A promotion
    goroutine spawned by a hit before [Clear] and run after it re-links
    such a stale element without counting it.  With capacity 1, the
    next two misses then evict the stale element instead of a live one
    (its type is no longer indexed, so [evict] fails and the failure is
    ignored): the index ends with two live entries, both served as hits,
    while [Len()] reports 1.  Run in the other order, the same calls keep
    one entry. *)
Theorem clear_race_exceeds_capacity :
  (exists c pending,
     run parseFix "groups" clearRaceTrace (newFieldCache 1) [] = Some (c, pending) /\
     maxSize c = 1 /\ len (evictList c) = 1%nat /\ length (cache c) = 2%nat /\
     (exists c2, getFieldsInfo parseFail t2 "groups" 4 c
                 = Some (Ok (fieldsFix t2), c2, Some 2%nat)) /\
     (exists c3, getFieldsInfo parseFail t3 "groups" 4 c
                 = Some (Ok (fieldsFix t3), c3, Some 3%nat))) /\
  (exists c pending,
     run parseFix "groups" clearInOrderTrace (newFieldCache 1) [] = Some (c, pending) /\
     len (evictList c) = 1%nat /\ length (cache c) = 1%nat).
Proof.
  split.
  - eexists _, _. split; [vm_compute; reflexivity|].
    vm_compute. repeat split; eexists; reflexivity.
  - eexists _, _. split; [vm_compute; reflexivity|]. vm_compute. split; reflexivity.
Qed.

End CacheFacts.

(** ** The visited identities only grow *)

Section Grows.

Variable opts : Options.
Variable h : heap.
Variable groups : list string.
Variable mode : GroupMode.

Lemma grows_weaken {A} (st st' : pointers) (o : outcome A) :
  st ⊆ st' -> grows st' o -> grows st o.
Proof. destruct o; cbn; try tauto; intros; etransitivity; eassumption. Qed.

Lemma checkPointer_grows (ctx : serializeContext) (st : pointers) (v : val) :
  grows st (checkPointer opts h ctx st v).
Proof.
  unfold checkPointer. destruct (DisableCircularCheck opts); [cbn; reflexivity|].
  assert (Hr : grows st (match refAddr v with
                         | Some a => match st !! a with
                                     | Some _ => RErr (CircularReferenceError (path ctx)) st
                                     | None => ROk tt (<[a := path ctx]> st)
                                     end
                         | None => ROk tt st
                         end)).
  { destruct (refAddr v) as [a|]; [|cbn; reflexivity].
    destruct (st !! a) eqn:E; cbn; [reflexivity|]. apply insert_subseteq. exact E. }
  destruct v; try exact Hr; destruct (Len h _) as [[|k]|]; cbn; try exact Hr;
    try exact I; reflexivity.
Qed.

(** The loop of [structToMap] keeps the visited map growing when its
    recursive calls do. *)
Lemma structFields_grows
    (rec : serializeContext -> pointers -> val -> outcome ir)
    (emb : serializeContext -> pointers -> val -> outcome (list (string * ir)))
    (ctx : serializeContext) (fs : list (fieldInfo * val)) :
  forall st result,
  (forall ctx' st' fv, In fv fs -> st ⊆ st' -> grows st' (rec ctx' st' fv.2)) ->
  (forall ctx' st' fv, In fv fs -> st ⊆ st' -> grows st' (emb ctx' st' fv.2)) ->
  grows st (structFields opts h groups mode rec emb ctx st result fs).
Proof.
  induction fs as [|[field fv] fs IH]; intros st result Hr He;
    cbn [structFields]; [cbn; reflexivity|].
  assert (IH' : forall st' r, st ⊆ st' ->
            grows st (structFields opts h groups mode rec emb ctx st' r fs)).
  { intros st' r Hs. apply (grows_weaken _ _ _ Hs). apply IH.
    - intros ctx' st'' fv' Hin Hs'. apply Hr; [right; exact Hin|].
      etransitivity; eassumption.
    - intros ctx' st'' fv' Hin Hs'. apply He; [right; exact Hin|].
      etransitivity; eassumption. }
  pose proof (Hr (withPath ctx (Name field)) st (field, fv) (or_introl eq_refl)
                 (reflexivity _)) as Hrec.
  pose proof (He (withPath ctx (Name field)) st (field, fv) (or_introl eq_refl)
                 (reflexivity _)) as Hemb.
  cbn [snd] in Hrec, Hemb. cbv zeta.
  destruct (negb (shouldIncludeField field mode groups)); [apply IH'; reflexivity|].
  assert (Hplain : grows st
    (if (match fv with VPtr None => true | _ => false end) && IgnoreNilPointers opts
     then structFields opts h groups mode rec emb ctx st result fs
     else match isEmptyValue h fv with
          | None => RPanic fault
          | Some empty =>
            if (OmitEmpty field && ((match fv with VPtr None => true | _ => false end) || empty) && negb (NullIfEmpty opts)) ||
               (OmitZero field && isZeroValue fv && negb (NullIfEmpty opts))
            then structFields opts h groups mode rec emb ctx st result fs
            else if ((match fv with VPtr None => true | _ => false end) || empty) && NullIfEmpty opts
            then structFields opts h groups mode rec emb ctx st
                   (set_key (JSONName field) IRNull result) fs
            else
            match rec (withPath ctx (Name field)) st fv with
            | ROk x st' =>
                if negb (is_nil x)
                then structFields opts h groups mode rec emb ctx st' (set_key (JSONName field) x result) fs
                else if NullIfEmpty opts
                then structFields opts h groups mode rec emb ctx st' (set_key (JSONName field) IRNull result) fs
                else structFields opts h groups mode rec emb ctx st' result fs
            | RErr e st' =>
                if String.eqb (Error e) "skip_field"
                then structFields opts h groups mode rec emb ctx st' result fs
                else RErr e st'
            | RPanic p => RPanic p
            | ROutOfFuel => ROutOfFuel
            end
          end)).
  { destruct (_ && IgnoreNilPointers opts); [apply IH'; reflexivity|].
    destruct (isEmptyValue h fv) as [empty|]; [|exact I].
    destruct (_ || _); [apply IH'; reflexivity|].
    destruct (_ && NullIfEmpty opts); [apply IH'; reflexivity|].
    destruct (rec _ st fv) as [x st'|e st'|p|]; cbn in Hrec; try exact I.
    - destruct (negb (is_nil x)); [|destruct (NullIfEmpty opts)]; apply IH'; exact Hrec.
    - destruct (String.eqb _ _); [apply IH'; exact Hrec|exact Hrec]. }
  destruct fv; try exact Hplain.
  destruct (Anonymous field); [|exact Hplain].
  destruct (emb _ st _) as [x st'|e st'|p|]; cbn in Hemb; try exact I.
  - apply IH'. exact Hemb.
  - exact Hemb.
Qed.

Section GrowsRec.

Variable rec : serializeContext -> pointers -> val -> outcome ir.
Hypothesis rec_grows : forall ctx st v, grows st (rec ctx st v).

Lemma structEmbedded_grows (v : val) :
  forall ctx st, grows st (structEmbedded opts h groups mode rec ctx st v).
Proof.
  induction v using val_nested_ind; intros ctx st; cbn [structEmbedded];
    try (cbn; reflexivity).
  apply structFields_grows.
  - intros. apply rec_grows.
  - intros ctx' st' fv Hin _. rewrite List.Forall_forall in H. exact (H fv Hin ctx' st').
Qed.

Lemma mapEntries_grows (ctx : serializeContext) (kvs : list (mkey * val)) :
  forall st result, grows st (mapEntries opts rec ctx st result kvs).
Proof.
  induction kvs as [|[k x] kvs IH]; intros st result; cbn [mapEntries];
    [cbn; reflexivity|].
  pose proof (rec_grows (withPath ctx (keyString k)) st x) as Hr.
  destruct (rec _ st x) as [y st'|e st'|p|]; cbn in Hr |- *; try exact I.
  - exact (grows_weaken _ _ _ Hr (IH _ _)).
  - exact Hr.
Qed.

Lemma sliceElems_grows (ctx : serializeContext) (xs : list val) :
  forall st i result, grows st (sliceElems opts rec ctx st i result xs).
Proof.
  induction xs as [|x xs IH]; intros st i result; cbn [sliceElems];
    [cbn; reflexivity|].
  pose proof (rec_grows (withPath ctx ("[" +:+ pretty i +:+ "]")) st x) as Hr.
  destruct (rec _ st x) as [y st'|e st'|p|]; cbn in Hr |- *; try exact I.
  - exact (grows_weaken _ _ _ Hr (IH _ _ _)).
  - exact Hr.
Qed.

Lemma dispatch_grows (ctx : serializeContext) (st : pointers) (v : val) :
  grows st (dispatch opts h groups mode rec ctx st v).
Proof.
  unfold dispatch, structToMap, mapToMap, sliceToSlice.
  destruct v as [| | | | | | [a|] | [x|] | fs | z | p | p | xs |];
    try (cbn; reflexivity); try apply rec_grows.
  - destruct (h !! a) as [[]|]; try exact I. apply rec_grows.
  - pose proof (structFields_grows rec (structEmbedded opts h groups mode rec)
                  ctx fs st [] (fun _ _ _ _ _ => rec_grows _ _ _)
                  (fun _ _ _ _ _ => structEmbedded_grows _ _ _)) as H.
    destruct (structFields _ _ _ _ _ _ _ _ _ _); exact H.
  - destruct (z && NullIfEmpty opts); cbn; reflexivity.
  - destruct (map_entries h p) as [kvs|]; [|exact I].
    destruct (_ && _); [cbn; reflexivity|].
    pose proof (mapEntries_grows ctx kvs st []) as H.
    destruct (mapEntries _ _ _ _ _ _); exact H.
  - destruct (slice_elems h p) as [[|x xs]|]; try exact I.
    + destruct (NullIfEmpty opts); [destruct (ptr_is_nil p)|]; cbn; reflexivity.
    + pose proof (sliceElems_grows ctx (x :: xs) st 0 []) as H.
      destruct (sliceElems _ _ _ _ _ _ _); exact H.
  - destruct xs as [|x xs].
    + destruct (NullIfEmpty opts); cbn; [exact I|reflexivity].
    + pose proof (sliceElems_grows ctx (x :: xs) st 0 []) as H.
      destruct (sliceElems _ _ _ _ _ _ _); exact H.
Qed.

Lemma valueToMap_body_grows (ctx : serializeContext) (st : pointers) (v : val) :
  grows st (valueToMap_body opts h groups mode rec ctx st v).
Proof.
  unfold valueToMap_body.
  destruct v as [s| | | |f| |[a|]|[x|]| | | | | |]; cbn zeta;
    try (cbn; reflexivity);
    try (destruct (String.eqb s "" && NullIfEmpty opts); cbn; reflexivity);
    try (destruct (isSpecialFloat f); cbn; reflexivity);
    try (destruct (IgnoreNilPointers opts); cbn; reflexivity);
    (destruct (depthExceeded opts _);
     [ repeat (case_match; try (cbn; reflexivity); try exact I)
     | ]).
  all: try (apply dispatch_grows).
  all: try (cbn; reflexivity).
  all: match goal with
       | |- context [checkPointer ?o ?hh ?c ?s ?w] =>
           pose proof (checkPointer_grows c s w) as Hc;
           destruct (checkPointer o hh c s w) as [u st'|e st'|pv|];
           cbv beta iota; try exact I; try exact Hc;
           exact (grows_weaken _ _ _ Hc (dispatch_grows _ _ _))
       end.
Qed.

End GrowsRec.

Lemma recoverAt_grows {A} (p : string) (st : pointers) (o : outcome A) :
  grows st o -> grows st (recoverAt p o).
Proof. destruct o as [| |[]|]; cbn; tauto. Qed.

(** [valueToMap] never removes a visited identity. *)
Lemma valueToMap_grows (n : nat) :
  forall ctx st v, grows st (valueToMap opts h groups mode n ctx st v).
Proof.
  induction n as [|n IH]; intros ctx st v; cbn [valueToMap]; [exact I|].
  apply recoverAt_grows. apply valueToMap_body_grows. exact IH.
Qed.

End Grows.

(** ** Revisits and the depth limit *)

(** A value whose identity is already visited fails at once: with the
    depth-exceeded error if the depth limit is passed there (the depth
    check comes first), with the circular-reference error at its path
    otherwise. *)
Lemma valueToMap_revisit (opts : Options) (h : heap) (groups : list string)
    (mode : GroupMode) (n : nat) (ctx : serializeContext) (st : pointers)
    (v : val) (a : nat) :
  DisableCircularCheck opts = false ->
  refAddr v = Some a -> is_Some (st !! a) -> nonempty_ref h v = true ->
  valueToMap opts h groups mode (S n) ctx st v =
  if depthExceeded opts {| path := path ctx; depth := depth ctx + 1 |}
  then RErr (MaxDepthError (path ctx)) st
  else RErr (CircularReferenceError (path ctx)) st.
Proof.
  intros Hdis Ha [q Hq] Hne. cbn [valueToMap]. unfold valueToMap_body.
  destruct v as [| | | | | |p| | | |p|p| |]; try discriminate; cbn [refAddr] in Ha;
    subst p; cbv zeta.
  - destruct (depthExceeded opts _); [reflexivity|].
    unfold checkPointer. rewrite Hdis. cbn [refAddr]. rewrite Hq. reflexivity.
  - cbn [nonempty_ref] in Hne. destruct (Len h (VMap (Some a))) as [[|k]|] eqn:HL;
      try discriminate.
    destruct (depthExceeded opts _); [reflexivity|].
    unfold checkPointer. rewrite Hdis, HL. cbn [refAddr]. rewrite Hq. reflexivity.
  - cbn [nonempty_ref] in Hne. destruct (Len h (VSlice (Some a))) as [[|k]|] eqn:HL;
      try discriminate.
    destruct (depthExceeded opts _); [reflexivity|].
    unfold checkPointer. rewrite Hdis, HL. cbn [refAddr]. rewrite Hq. reflexivity.
Qed.

(** C10 (amended): with the cycle check on, [valueToMap] never removes a
    visited identity, at any fuel and from any visited map.  A later
    occurrence of a visited non-nil pointer, or of a visited slice or map
    of non-zero length, fails with the circular-reference error at the
    path of that occurrence, even when the reference is shared and not
    cyclic (two sibling fields pointing at the same integer fail at
    field [B]).  The exception is an occurrence past a positive maximum
    depth: the depth check comes first, so it fails with the
    depth-exceeded error instead. *)
Theorem visited_identities_persist (opts : Options) (h : heap)
    (groups : list string) (mode : GroupMode) (n : nat)
    (ctx : serializeContext) (st : pointers) (v : val) (a : nat) :
  DisableCircularCheck opts = false ->
  refAddr v = Some a -> is_Some (st !! a) -> nonempty_ref h v = true ->
  (forall m ctx' st' w, grows st' (valueToMap opts h groups mode m ctx' st' w)) /\
  valueToMap opts h groups mode (S n) ctx st v =
  (if depthExceeded opts {| path := path ctx; depth := depth ctx + 1 |}
   then RErr (MaxDepthError (path ctx)) st
   else RErr (CircularReferenceError (path ctx)) st) /\
  valueToMap readmeOpts siblingHeap [] GroupModeOr 10 newContext ∅ siblingStruct
  = RErr (CircularReferenceError "B") {[ 0%nat := "A" ]}.
Proof.
  intros Hdis Ha Hs Hne. split; [|split].
  - intros m ctx' st' w. apply valueToMap_grows.
  - apply valueToMap_revisit with a; assumption.
  - vm_compute. reflexivity.
Qed.

(** C10 instance: the pointer field [A] of [siblingStruct], revisited. *)
Lemma visited_identities_persist_witness :
  valueToMap readmeOpts siblingHeap [] GroupModeOr 1 {| path := "B"; depth := 1 |}
    {[ 0%nat := "A" ]} (VPtr (Some 0%nat))
  = RErr (CircularReferenceError "B") {[ 0%nat := "A" ]}.
Proof.
  destruct (visited_identities_persist readmeOpts siblingHeap [] GroupModeOr 0
              {| path := "B"; depth := 1 |} {[ 0%nat := "A" ]} (VPtr (Some 0%nat))
              0 eq_refl eq_refl ltac:(eexists; reflexivity) eq_refl) as [_ [H _]].
  exact H.
Defined.

(** C10 counterexample: a reference shared by field [A] and by the
    element of the slice in field [B], with a maximum depth of 2.  The
    second occurrence lies at depth 3, so the call fails with the
    depth-exceeded error at ["B.[0]"], not with the circular-reference
    error; with a maximum depth of 3 it is the circular-reference
    error. *)
Lemma shared_reference_past_depth :
  valueToMap (withMaxDepth readmeOpts 2) sharedDeepHeap [] GroupModeOr 10
    newContext ∅ sharedDeepStruct
  = RErr (MaxDepthError "B.[0]") (<[1%nat := "B"]> {[ 0%nat := "A" ]}) /\
  valueToMap (withMaxDepth readmeOpts 3) sharedDeepHeap [] GroupModeOr 10
    newContext ∅ sharedDeepStruct
  = RErr (CircularReferenceError "B.[0]") (<[1%nat := "B"]> {[ 0%nat := "A" ]}).
Proof. split; vm_compute; reflexivity. Qed.

(** ** Chains of nesting *)

Lemma Error_MaxDepth_not_skip (p : string) :
  String.eqb (Error (MaxDepthError p)) "skip_field" = false.
Proof. cbn [Error MaxDepthError]. destruct (String.eqb p ""); reflexivity. Qed.

(** The heap of [build ls a leaf] only uses identities from [a] on. *)
Lemma build_addrs (leaf : val) (ls : list layer) :
  forall a v hp, build ls a leaf = (v, hp) ->
  forall b o, hp !! b = Some o -> (a <= b)%nat.
Proof.
  induction ls as [|l ls IH]; intros a v hp Hb b o Ho; cbn [build] in Hb.
  - injection Hb as <- <-. rewrite lookup_empty in Ho. discriminate.
  - destruct (build ls (S a) leaf) as [v' hp'] eqn:E.
    assert (Hr : forall o', hp' !! b = Some o' -> (a <= b)%nat).
    { intros o' Ho'. specialize (IH _ _ _ E b o' Ho'). lia. }
    destruct l; injection Hb as <- <-; try exact (Hr _ Ho);
      (destruct (decide (b = a)) as [->|Hne]; [lia|];
       rewrite lookup_insert_ne in Ho by congruence; exact (Hr _ Ho)).
Qed.

Lemma build_sub_heap (leaf : val) (l : layer) (ls : list layer) (a : nat)
    (v v' : val) (hp hp' : heap) :
  build (l :: ls) a leaf = (v, hp) -> build ls (S a) leaf = (v', hp') ->
  hp' ⊆ hp.
Proof.
  intros Hb E. cbn [build] in Hb. rewrite E in Hb.
  assert (Hn : hp' !! a = None).
  { destruct (hp' !! a) as [o|] eqn:Ho; [|reflexivity].
    pose proof (build_addrs leaf ls (S a) v' hp' E a o Ho). lia. }
  destruct l; injection Hb as <- <-; try reflexivity; apply insert_subseteq; exact Hn.
Qed.

(** A chain with at least one level is a non-empty, non-nil value. *)
Lemma build_nonempty (h : heap) (leaf : val) (l : layer) (ls : list layer)
    (a : nat) (v : val) (hp : heap) :
  build (l :: ls) a leaf = (v, hp) -> hp ⊆ h ->
  isEmptyValue h v = Some false /\ (match v with VPtr None => false | _ => true end) = true.
Proof.
  intros Hb Hs. cbn [build] in Hb. destruct (build ls (S a) leaf) as [v' hp'].
  destruct l; injection Hb as <- <-; try (split; reflexivity);
    (split; [|reflexivity]); cbn [isEmptyValue Len slice_elems map_entries];
    rewrite (lookup_weaken _ _ _ _ (lookup_insert_eq _ _ _) Hs); reflexivity.
Qed.

Lemma chain_leaf_empty (h : heap) (leaf : val) :
  chain_leaf h leaf = true ->
  exists e, isEmptyValue h leaf = Some e /\
            (match leaf with VPtr None => false | _ => true end) = true.
Proof.
  intros Hl. destruct leaf as [| | | | | |[]|[]| | |p|p|[]|]; cbn [chain_leaf] in Hl;
    try discriminate; try (eexists; split; reflexivity).
  - exists true. split; [|reflexivity]. cbn [isEmptyValue Len].
    destruct (map_entries h p) as [[|]|]; [reflexivity|discriminate|discriminate].
  - exists true. split; [|reflexivity]. cbn [isEmptyValue Len].
    destruct (slice_elems h p) as [[|]|]; [reflexivity|discriminate|discriminate].
Qed.

Ltac chain_cases b pan :=
  destruct b; [|destruct pan];
  [intros (?q & ?st' & ->)|intros (?q & ->)|intros (?q & ?st' & ->)].

Lemma recoverAt_chain (b pan : bool) (p : string) (o : outcome ir) :
  chain_outcome b pan o -> chain_outcome b pan (recoverAt p o).
Proof. chain_cases b pan; [cbn; eauto|destruct q; cbn; eauto|cbn; eauto]. Qed.

Section ChainStep.

Variable opts : Options.
Variable h : heap.
Variable mode : GroupMode.
Variable rec : serializeContext -> pointers -> val -> outcome ir.

Lemma sliceToSlice_chain (b pan : bool) (c : serializeContext) (st : pointers) (x : val) :
  chain_outcome b pan (rec (withPath c ("[" +:+ pretty 0%nat +:+ "]")) st x) ->
  chain_outcome b pan (sliceToSlice opts rec c st [x]).
Proof. unfold sliceToSlice. cbn [sliceElems]. chain_cases b pan; cbn; eauto. Qed.

Lemma mapToMap_chain (b pan : bool) (c : serializeContext) (st : pointers) (x : val) :
  chain_outcome b pan (rec (withPath c (keyString (MKString "k"))) st x) ->
  chain_outcome b pan (mapToMap opts rec c st [(MKString "k", x)]).
Proof. unfold mapToMap. cbn [mapEntries]. chain_cases b pan; cbn; eauto. Qed.

(** The struct level of a chain: its one field is included (no groups
    are requested), not omitted, and traversed unless it is empty under
    the null-if-empty policy, which renders it as null. *)
Lemma structToMap_chain (b pan : bool) (c : serializeContext) (st : pointers) (x : val)
    (e : bool) :
  isEmptyValue h x = Some e ->
  (match x with VPtr None => false | _ => true end) = true ->
  (e && NullIfEmpty opts = true -> b = false /\ pan = false) ->
  (e && NullIfEmpty opts = false -> chain_outcome b pan (rec (withPath c "F") st x)) ->
  chain_outcome b pan (structToMap opts h [] mode rec c st [(fld 0 "F" "f" [] false false, x)]).
Proof.
  intros He Hnn Hb Hr. unfold structToMap. cbn [structFields].
  cbv zeta. cbn [shouldIncludeField length Nat.eqb negb Name JSONName OmitEmpty
                 OmitZero Anonymous fld andb orb].
  assert (Hplain : forall (ob : outcome (list (string * ir))),
    ob = (if (match x with VPtr None => true | _ => false end) && IgnoreNilPointers opts
          then ROk [] st
          else match isEmptyValue h x with
               | None => RPanic fault
               | Some empty =>
                 if ((match x with VPtr None => true | _ => false end) || empty)
                    && NullIfEmpty opts
                 then ROk (set_key "f" IRNull []) st
                 else match rec (withPath c "F") st x with
                      | ROk y st' =>
                          if negb (is_nil y) then ROk (set_key "f" y []) st'
                          else if NullIfEmpty opts then ROk (set_key "f" IRNull []) st'
                          else ROk [] st'
                      | RErr e st' =>
                          if String.eqb (Error e) "skip_field" then ROk [] st'
                          else RErr e st'
                      | RPanic p => RPanic p
                      | ROutOfFuel => ROutOfFuel
                      end
               end) ->
    chain_outcome b pan (match ob with
                         | ROk m st' => ROk (IRMap m) st'
                         | RErr e st' => RErr e st'
                         | RPanic p => RPanic p
                         | ROutOfFuel => ROutOfFuel
                         end)).
  { intros ob ->. destruct x as [| | | | | |[]| | | | | | |]; try discriminate;
      cbn [andb orb]; rewrite He;
      (destruct (e && NullIfEmpty opts) eqn:Hen;
       [destruct (Hb eq_refl) as [-> ->]; cbn; eauto|]);
      specialize (Hr eq_refl); revert Hr;
      (chain_cases b pan; cbv beta iota;
       [rewrite Error_MaxDepth_not_skip; cbn; eauto
       |cbn; eauto
       |destruct (negb (is_nil q)); [|destruct (NullIfEmpty opts)]; cbn; eauto]). }
  destruct x; apply Hplain; reflexivity.
Qed.

End ChainStep.

Lemma exceeded_cond (D d : Z) (L : nat) :
  (0 <? D) && (D <? d + 1) = true ->
  (0 <? D) && (D <? d + 1 + Z.of_nat L) = true.
Proof.
  destruct (Z.ltb_spec 0 D), (Z.ltb_spec D (d + 1)), (Z.ltb_spec D (d + 1 + Z.of_nat L));
    cbn; lia.
Qed.

Lemma not_exceeded_inv (D d : Z) :
  (0 <? D) && (D <? d + 1) = false -> D <= 0 \/ d + 1 <= D.
Proof. destruct (Z.ltb_spec 0 D), (Z.ltb_spec D (d + 1)); cbn; lia. Qed.

(** Recording a fresh identity [a] keeps the identities above it unvisited. *)
Lemma checkPointer_fresh (opts : Options) (h : heap) (c : serializeContext)
    (st : pointers) (v : val) (a : nat) :
  refAddr v = Some a -> nonempty_ref h v = true ->
  (forall b, (a <= b)%nat -> st !! b = None) ->
  exists st1, checkPointer opts h c st v = ROk tt st1 /\
              (forall b, (S a <= b)%nat -> st1 !! b = None).
Proof.
  intros Ha Hne Hst. unfold checkPointer.
  assert (Hrec : exists st1,
    match refAddr v with
    | Some a0 => match st !! a0 with
                 | Some _ => RErr (CircularReferenceError (path c)) st
                 | None => ROk tt (<[a0 := path c]> st)
                 end
    | None => ROk tt st
    end = ROk tt st1 /\ (forall b, (S a <= b)%nat -> st1 !! b = None)).
  { rewrite Ha, (Hst a (le_n a)). eexists. split; [reflexivity|].
    intros b Hb. rewrite lookup_insert_ne by lia. apply Hst. lia. }
  destruct (DisableCircularCheck opts).
  { exists st. split; [reflexivity|]. intros b Hb. apply Hst. lia. }
  destruct v as [| | | | | |p| | | |p|p| |]; try discriminate; try exact Hrec;
    cbn [nonempty_ref] in Hne; destruct (Len h _) as [[|k]|]; try discriminate; exact Hrec.
Qed.

Lemma exceeded_cond' (D d : Z) (L : nat) :
  (0 <? D) && (D <? d + 1) = true -> (1 <= L)%nat ->
  (0 <? D) && (D <? d + Z.of_nat L) = true.
Proof.
  intros H HL. destruct (Z.ltb_spec 0 D), (Z.ltb_spec D (d + 1)), (Z.ltb_spec D (d + Z.of_nat L));
    cbn in *; lia.
Qed.

Lemma not_exceeded_false (D d : Z) :
  D <= 0 \/ d <= D -> (0 <? D) && (D <? d) = false.
Proof. intros H. destruct (Z.ltb_spec 0 D), (Z.ltb_spec D d); cbn; lia. Qed.

(** Below a level that is not a struct directly above the leaf, the leaf
    adds the same levels and panics alike. *)
Lemma leaf_shift (nie : bool) (l : layer) (ls : list layer) (leaf : val) :
  ~ (l = LStruct /\ ls = []) ->
  leaf_levels nie (l :: ls) leaf = leaf_levels nie ls leaf /\
  leaf_panics nie (l :: ls) leaf = leaf_panics nie ls leaf.
Proof.
  intros Hne. assert (Hl : last_struct (l :: ls) = last_struct ls).
  { destruct ls as [|l' ls']; destruct l; try reflexivity; tauto. }
  unfold leaf_levels, leaf_panics. rewrite Hl. split; reflexivity.
Qed.

(** Directly in a struct field, a leaf that is not nulled adds the same
    levels and panics alike as at the top. *)
Lemma leaf_struct_shift (h : heap) (nie : bool) (leaf : val) (e : bool) :
  isEmptyValue h leaf = Some e -> e && nie = false ->
  leaf_levels nie [LStruct] leaf = leaf_levels nie [] leaf /\
  leaf_panics nie [LStruct] leaf = leaf_panics nie [] leaf.
Proof.
  destruct leaf as [| | | | | | | | | | | |[|]|]; try (split; reflexivity).
  cbn. intros [= <-]. destruct nie; [discriminate|split; reflexivity].
Qed.

Lemma leaf_struct_null (leaf : val) :
  leaf_levels true [LStruct] leaf = 0%nat /\ leaf_panics true [LStruct] leaf = false.
Proof. destruct leaf as [| | | | | | | | | | | |[|]|]; split; reflexivity. Qed.

(** A leaf traversed on its own, from a context within the depth limit. *)
Lemma leaf_outcome (opts : Options) (h : heap) (mode : GroupMode) (leaf : val)
    (n : nat) (ctx : serializeContext) (st : pointers) :
  chain_leaf h leaf = true ->
  (MaxDepth opts <= 0 \/ depth ctx <= MaxDepth opts) -> (0 < n)%nat ->
  chain_outcome
    ((0 <? MaxDepth opts) &&
     (MaxDepth opts <? depth ctx + Z.of_nat (leaf_levels (NullIfEmpty opts) [] leaf)))
    (leaf_panics (NullIfEmpty opts) [] leaf)
    (valueToMap opts h [] mode n ctx st leaf).
Proof.
  intros Hleaf Hd Hn. destruct n as [|n]; [lia|].
  cbn [valueToMap]. apply recoverAt_chain. unfold valueToMap_body.
  pose proof (not_exceeded_false _ _ Hd) as Hb0.
  destruct leaf as [| | | | | |[]|[]| | |p|p|[|]|]; cbn [chain_leaf] in Hleaf;
    try discriminate; cbn [leaf_levels leaf_panics Z.of_nat]; rewrite ?Z.add_0_r, ?Hb0;
    cbv iota.
  1-6: unfold chain_outcome; repeat case_match; try congruence; eauto.
  - destruct (map_entries h p) as [[|]|] eqn:Hp; try discriminate.
    unfold depthExceeded, checkPointer, dispatch, Len. cbn [depth]. rewrite Hp.
    cbn [fmap option_fmap option_map length].
    unfold chain_outcome; repeat case_match; try congruence; eauto.
  - destruct (slice_elems h p) as [[|]|] eqn:Hp; try discriminate.
    unfold depthExceeded, checkPointer, dispatch, Len. cbn [depth]. rewrite Hp.
    cbn [fmap option_fmap option_map length].
    unfold chain_outcome; repeat case_match; try congruence; eauto.
  - unfold depthExceeded, dispatch. cbn [depth last_struct andb negb Z.of_nat].
    destruct (NullIfEmpty opts); cbn [andb negb]; change (Z.of_nat 1) with 1;
    destruct ((0 <? MaxDepth opts) && (MaxDepth opts <? depth ctx + 1)); unfold chain_outcome; cbn; eauto.
Qed.

(** Traversing a chain of [length ls] levels (plus the levels of its
    leaf) from a context within the depth limit fails with the
    depth-exceeded error exactly when the chain passes a positive maximum
    depth; otherwise it panics when the leaf is a zero-length array
    visited under the null-if-empty policy, and succeeds in every other
    case. *)
Lemma chain_depth (opts : Options) (h : heap) (mode : GroupMode) (leaf : val)
    (ls : list layer) :
  chain_leaf h leaf = true ->
  forall a v hp n ctx st,
  build ls a leaf = (v, hp) -> hp ⊆ h ->
  (forall b, (a <= b)%nat -> st !! b = None) ->
  (MaxDepth opts <= 0 \/ depth ctx <= MaxDepth opts) ->
  (length ls < n)%nat ->
  chain_outcome
    ((0 <? MaxDepth opts) &&
     (MaxDepth opts <? depth ctx + Z.of_nat (length ls + leaf_levels (NullIfEmpty opts) ls leaf)))
    (leaf_panics (NullIfEmpty opts) ls leaf)
    (valueToMap opts h [] mode n ctx st v).
Proof.
  intros Hleaf. induction ls as [|l ls IH]; intros a v hp n ctx st Hb Hs Hst Hd Hn.
  - cbn [build] in Hb. injection Hb as <- <-. cbn [length Nat.add].
    apply leaf_outcome; [exact Hleaf|exact Hd|cbn in Hn; lia].
  - destruct n as [|n]; [cbn in Hn; lia|].
    assert (Hn' : (length ls < n)%nat) by (cbn [length] in Hn; lia).
    pose proof Hb as Hb0. cbn [build] in Hb.
    destruct (build ls (S a) leaf) as [v' hp'] eqn:E.
    assert (Hsub : hp' ⊆ h)
      by (etransitivity; [exact (build_sub_heap _ _ _ _ _ _ _ _ Hb0 E)|exact Hs]).
    assert (HIH : forall seg st1,
      (forall b, (S a <= b)%nat -> st1 !! b = None) ->
      MaxDepth opts <= 0 \/ depth ctx + 1 <= MaxDepth opts ->
      chain_outcome
        ((0 <? MaxDepth opts) &&
         (MaxDepth opts <? depth ctx + 1 +
            Z.of_nat (length ls + leaf_levels (NullIfEmpty opts) ls leaf)))
        (leaf_panics (NullIfEmpty opts) ls leaf)
        (valueToMap opts h [] mode n
           (withPath {| path := path ctx; depth := depth ctx + 1 |} seg) st1 v')).
    { intros seg st1 H1 H2. exact (IH (S a) v' hp' n
        (withPath {| path := path ctx; depth := depth ctx + 1 |} seg) st1 E Hsub H1 H2 Hn'). }
    cbn [valueToMap]. apply recoverAt_chain. unfold valueToMap_body.
    destruct ((0 <? MaxDepth opts) && (MaxDepth opts <? depth ctx + 1)) eqn:Hexc.
    + rewrite (exceeded_cond' _ _ _ Hexc) by (cbn [length]; lia).
      destruct l; injection Hb as <- <-; cbv zeta; unfold depthExceeded; cbn [depth];
        rewrite Hexc; cbn [Len slice_elems map_entries];
        try (rewrite (lookup_weaken _ _ _ _ (lookup_insert_eq _ _ _) Hs));
        cbn; eauto.
    + pose proof (not_exceeded_inv _ _ Hexc) as Hd'.
      assert (Hst' : forall b, (S a <= b)%nat -> st !! b = None)
        by (intros b Hb'; apply Hst; lia).
      destruct (match l, ls with LStruct, [] => true | _, _ => false end) eqn:Hsp.
      { (* a struct whose field is the leaf *)
        destruct l; try discriminate. destruct ls; [|discriminate].
        injection E as <- <-. injection Hb as <- <-. cbv zeta; unfold depthExceeded;
          cbn [depth]; rewrite Hexc; cbv iota. unfold dispatch.
        destruct (chain_leaf_empty h leaf Hleaf) as (e & He & Hnn).
        apply structToMap_chain with (e := e); [exact He|exact Hnn| |].
        - intros Hen. apply andb_prop in Hen as [_ Hnie]. rewrite Hnie.
          destruct (leaf_struct_null leaf) as [-> ->]. split; [|reflexivity].
          apply not_exceeded_false. cbn [length Nat.add Z.of_nat]. lia.
        - intros Hen. destruct (leaf_struct_shift h _ _ _ He Hen) as [-> ->].
          replace (depth ctx + Z.of_nat (length [LStruct] +
                     leaf_levels (NullIfEmpty opts) [] leaf))
            with (depth ctx + 1 + Z.of_nat (length (@nil layer) +
                     leaf_levels (NullIfEmpty opts) [] leaf))
            by (cbn [length]; lia).
          apply HIH; assumption. }
      assert (Hne : ~ (l = LStruct /\ ls = [])) by (intros [-> ->]; discriminate).
      destruct (leaf_shift (NullIfEmpty opts) l ls leaf Hne) as [-> ->].
      replace (depth ctx + Z.of_nat (length (l :: ls) + leaf_levels (NullIfEmpty opts) ls leaf))
        with (depth ctx + 1 + Z.of_nat (length ls + leaf_levels (NullIfEmpty opts) ls leaf))
        by (cbn [length]; lia).
      destruct l; injection Hb as <- <-; cbv zeta; unfold depthExceeded;
        cbn [depth]; rewrite Hexc; cbv iota.
      * (* pointer *)
        assert (Ha : h !! a = Some (HCell v'))
          by exact (lookup_weaken _ _ _ _ (lookup_insert_eq _ _ _) Hs).
        destruct (checkPointer_fresh opts h {| path := path ctx; depth := depth ctx + 1 |} st (VPtr (Some a)) a eq_refl eq_refl Hst)
          as (st1 & -> & Hst1).
        unfold dispatch. rewrite Ha. apply HIH; assumption.
      * (* interface *)
        unfold dispatch. apply HIH; assumption.
      * (* struct *)
        unfold dispatch. destruct ls as [|l' ls']; [discriminate|].
        destruct (build_nonempty h leaf l' ls' (S a) v' hp' E Hsub) as (He & Hnn).
        apply structToMap_chain with (e := false); [exact He|exact Hnn|discriminate|].
        intros _. apply HIH; assumption.
      * (* slice *)
        assert (Ha : h !! a = Some (HArr [v']))
          by exact (lookup_weaken _ _ _ _ (lookup_insert_eq _ _ _) Hs).
        assert (Hne' : nonempty_ref h (VSlice (Some a)) = true) by (cbn; rewrite Ha; reflexivity).
        destruct (checkPointer_fresh opts h {| path := path ctx; depth := depth ctx + 1 |} st (VSlice (Some a)) a eq_refl Hne' Hst)
          as (st1 & -> & Hst1).
        unfold dispatch. cbn [slice_elems]. rewrite Ha.
        apply sliceToSlice_chain. apply HIH; assumption.
      * (* map *)
        assert (Ha : h !! a = Some (HMap [(MKString "k", v')]))
          by exact (lookup_weaken _ _ _ _ (lookup_insert_eq _ _ _) Hs).
        assert (Hne' : nonempty_ref h (VMap (Some a)) = true) by (cbn; rewrite Ha; reflexivity).
        destruct (checkPointer_fresh opts h {| path := path ctx; depth := depth ctx + 1 |} st (VMap (Some a)) a eq_refl Hne' Hst)
          as (st1 & -> & Hst1).
        unfold dispatch. cbn [map_entries]. rewrite Ha. cbn [length Nat.eqb andb].
        apply mapToMap_chain. apply HIH; assumption.
      * (* array *)
        unfold dispatch. apply sliceToSlice_chain. apply HIH; assumption.
Qed.

(** C7: depth law.  Take a chain of nested values built from [ls]
    (pointers, interfaces, one-field structs, one-element slices, maps and
    arrays) ending in [leaf]: a scalar, an empty slice or map (nil or
    not), or a zero-length array.  Let [L] be the number of layers, plus
    one for a zero-length array leaf, except when the null-if-empty
    policy is on and the array is the field of a struct, which renders it
    as null without visiting it.  Traversing the chain from the top-level
    context yields a depth-exceeded error exactly when [0 < MaxDepth < L].
    Otherwise it panics if the leaf is a zero-length array that is
    visited under the null-if-empty policy, and it succeeds in every other
    case.  Scalars and empty slices and maps add no level: past the limit
    the latter are rendered per the empty-value policy. *)
Theorem depth_law (opts : Options) (h : heap) (mode : GroupMode)
    (ls : list layer) (leaf : val) (n : nat) :
  chain_leaf h leaf = true ->
  (build ls 0 leaf).2 ⊆ h ->
  (length ls < n)%nat ->
  chain_outcome
    ((0 <? MaxDepth opts) &&
     (MaxDepth opts <? Z.of_nat (length ls + leaf_levels (NullIfEmpty opts) ls leaf)))
    (leaf_panics (NullIfEmpty opts) ls leaf)
    (valueToMap opts h [] mode n newContext ∅ (build ls 0 leaf).1).
Proof.
  intros Hleaf Hs Hn.
  destruct (build ls 0 leaf) as [v hp] eqn:E.
  assert (Hd : MaxDepth opts <= 0 \/ depth newContext <= MaxDepth opts)
    by (cbn [depth newContext]; lia).
  exact (chain_depth opts h mode leaf ls Hleaf 0%nat v hp n newContext ∅ E Hs
           (fun b _ => lookup_empty b) Hd Hn).
Qed.

(** [struct{ F [0]int }] with the null-if-empty policy and maximum depth 1:
    the array is the struct's field, rendered as null, so [L = 1] and the
    traversal succeeds. *)
Lemma depth_law_witness :
  chain_outcome ((0 <? 1) && (1 <? Z.of_nat (1 + 0))) false
    (valueToMap (withMaxDepth (withNullIfEmpty readmeOpts) 1)
       (build [LStruct] 0 (VArray [])).2
       [] GroupModeOr 10 newContext ∅ (build [LStruct] 0 (VArray [])).1).
Proof.
  apply (depth_law (withMaxDepth (withNullIfEmpty readmeOpts) 1) _ GroupModeOr [LStruct]
           (VArray []) 10); [reflexivity | reflexivity | cbn; lia].
Defined.

(** A struct whose one field holds a zero-length array, with maximum
    depth 1: the array is an empty sequence past the limit, but only
    slices and maps are exempt, so the traversal fails at [F].  A nil
    slice in the same place is rendered as an empty sequence. *)
Lemma zero_length_array_not_exempt :
  valueToMap (withMaxDepth readmeOpts 1) ∅ [] GroupModeOr 5 newContext ∅
    (build [LStruct] 0 (VArray [])).1 = RErr (MaxDepthError "F") ∅ /\
  valueToMap (withMaxDepth readmeOpts 1) ∅ [] GroupModeOr 5 newContext ∅
    (build [LStruct] 0 (VSlice None)).1 = ROk (IRMap [("f", IRSeq [])]) ∅.
Proof. split; vm_compute; reflexivity. Qed.

(** ** Termination with the cycle check on *)

Lemma in_le_list_max (l : list nat) (x : nat) : In x l -> (x <= list_max l)%nat.
Proof.
  intros Hin. assert (H : (list_max l <= list_max l)%nat) by lia.
  apply list_max_le in H. rewrite List.Forall_forall in H. exact (H x Hin).
Qed.

Lemma kids_inline (h : heap) (v x : val) :
  match v with VIface _ | VStruct _ | VArray _ => True | _ => False end ->
  In x (kids h v) -> (vheight x < vheight v)%nat.
Proof.
  destruct v as [| | | | | | |[y|]|fs| | | |xs|]; try contradiction; intros _ Hin;
    cbn [kids vheight] in *; try (cbn [In] in Hin).
  - destruct Hin as [<-|[]]. lia.
  - apply in_map_iff in Hin as ([f y] & <- & Hin).
    pose proof (in_le_list_max (map (fun fv => vheight fv.2) fs) (vheight y)
                  (in_map (fun fv => vheight fv.2) _ _ Hin)). cbn in *. lia.
  - pose proof (in_le_list_max (map vheight xs) (vheight x) (in_map _ _ _ Hin)). lia.
Qed.

Lemma heap_height (h : heap) (a : nat) (o : hobj) :
  h !! a = Some o -> (oheight o <= hheight h)%nat.
Proof.
  intros Ha. unfold hheight. apply in_le_list_max.
  apply (in_map (fun ao => oheight ao.2) _ (a, o)).
  apply list_elem_of_In. apply elem_of_map_to_list. exact Ha.
Qed.

Lemma kids_heap (h : heap) (v x : val) :
  In x (kids h v) ->
  match v with VPtr _ | VMap _ | VSlice _ => True | _ => False end ->
  (vheight x <= hheight h)%nat.
Proof.
  destruct v as [| | | | | |[a|]| | | |[a|]|[a|]| |]; intros Hin Hv; try contradiction;
    cbn [kids map_entries slice_elems In] in Hin; try destruct Hin.
  - destruct (h !! a) as [[y| |]|] eqn:Ha; cbn [In] in Hin;
      try destruct Hin as [<-|[]]; try contradiction.
    pose proof (heap_height h a _ Ha). cbn in *. lia.
  - destruct (h !! a) as [[| |kvs]|] eqn:Ha; try contradiction.
    apply in_map_iff in Hin as ([k y] & <- & Hin).
    pose proof (heap_height h a _ Ha).
    pose proof (in_le_list_max (map (fun kv => vheight kv.2) kvs) (vheight y)
                  (in_map (fun kv => vheight kv.2) _ _ Hin)). cbn in *. lia.
  - destruct (h !! a) as [[|xs|]|] eqn:Ha; try contradiction.
    pose proof (heap_height h a _ Ha).
    pose proof (in_le_list_max (map vheight xs) (vheight x) (in_map _ _ _ Hin)).
    cbn in *. lia.
Qed.

Lemma unvisited_antitone (h : heap) (st st' : pointers) :
  st ⊆ st' -> (unvisited h st' <= unvisited h st)%nat.
Proof.
  intros Hs. unfold unvisited. apply subseteq_size.
  pose proof (subseteq_dom _ _ Hs). set_solver.
Qed.

Lemma unvisited_insert (h : heap) (st : pointers) (a : nat) (p : string) :
  st !! a = None -> is_Some (h !! a) ->
  (unvisited h (<[a := p]> st) < unvisited h st)%nat.
Proof.
  intros Hst Hh. unfold unvisited. rewrite dom_insert_L.
  apply elem_of_dom in Hh. apply not_elem_of_dom in Hst.
  apply subset_size. set_solver.
Qed.

Lemma recoverAt_fuel {A} (p : string) (o : outcome A) :
  fuel_ok o -> fuel_ok (recoverAt p o).
Proof. destruct o as [| |[]|]; cbn; tauto. Qed.

Section Fuel.

Variable opts : Options.
Variable h : heap.
Variable groups : list string.
Variable mode : GroupMode.

(** The loop of [structToMap] has fuel when its recursive calls do. *)
Lemma structFields_fuel
    (rec : serializeContext -> pointers -> val -> outcome ir)
    (emb : serializeContext -> pointers -> val -> outcome (list (string * ir)))
    (ctx : serializeContext) (st0 : pointers) (fs : list (fieldInfo * val)) :
  (forall c st x, grows st (rec c st x)) ->
  (forall c st x, grows st (emb c st x)) ->
  forall st result, st0 ⊆ st ->
  (forall c st' fv, In fv fs -> st0 ⊆ st' -> fuel_ok (rec c st' fv.2)) ->
  (forall c st' fv, In fv fs -> st0 ⊆ st' -> fuel_ok (emb c st' fv.2)) ->
  fuel_ok (structFields opts h groups mode rec emb ctx st result fs).
Proof.
  intros Grec Gemb.
  induction fs as [|[field fv] fs IH]; intros st result Hs Hr He;
    cbn [structFields]; [exact I|].
  assert (IH' : forall st' r, st0 ⊆ st' ->
            fuel_ok (structFields opts h groups mode rec emb ctx st' r fs)).
  { intros st' r Hs'. apply IH; [exact Hs'| |].
    - intros c st'' fv' Hin. apply Hr. right. exact Hin.
    - intros c st'' fv' Hin. apply He. right. exact Hin. }
  pose proof (Hr (withPath ctx (Name field)) st (field, fv) (or_introl eq_refl) Hs) as Hrec.
  pose proof (He (withPath ctx (Name field)) st (field, fv) (or_introl eq_refl) Hs) as Hemb.
  pose proof (Grec (withPath ctx (Name field)) st fv) as Grec1.
  pose proof (Gemb (withPath ctx (Name field)) st fv) as Gemb1.
  cbn [snd] in Hrec, Hemb. cbv zeta.
  repeat case_match; try exact I;
    try (match goal with E : rec _ _ _ = _ |- _ => rewrite E in Hrec, Grec1 end);
    try (match goal with E : emb _ _ _ = _ |- _ => rewrite E in Hemb, Gemb1 end);
    cbn in Hrec, Hemb, Grec1, Gemb1; try contradiction;
    apply IH'; try exact Hs; etransitivity; eassumption.
Qed.

Lemma mapEntries_fuel (rec : serializeContext -> pointers -> val -> outcome ir)
    (ctx : serializeContext) (st0 : pointers) (kvs : list (mkey * val)) :
  (forall c st x, grows st (rec c st x)) ->
  forall st result, st0 ⊆ st ->
  (forall c st' kv, In kv kvs -> st0 ⊆ st' -> fuel_ok (rec c st' kv.2)) ->
  fuel_ok (mapEntries opts rec ctx st result kvs).
Proof.
  intros Grec.
  induction kvs as [|[k x] kvs IH]; intros st result Hs Hr; cbn [mapEntries]; [exact I|].
  pose proof (Hr (withPath ctx (keyString k)) st (k, x) (or_introl eq_refl) Hs) as H1.
  pose proof (Grec (withPath ctx (keyString k)) st x) as G1.
  cbn [snd] in H1.
  destruct (rec _ st x) as [y st'|e st'|pv|]; cbn in H1, G1 |- *; try tauto.
  apply IH; [etransitivity; eassumption|].
  intros c st'' kv Hin. apply Hr. right. exact Hin.
Qed.

Lemma sliceElems_fuel (rec : serializeContext -> pointers -> val -> outcome ir)
    (ctx : serializeContext) (st0 : pointers) (xs : list val) :
  (forall c st x, grows st (rec c st x)) ->
  forall st i result, st0 ⊆ st ->
  (forall c st' x, In x xs -> st0 ⊆ st' -> fuel_ok (rec c st' x)) ->
  fuel_ok (sliceElems opts rec ctx st i result xs).
Proof.
  intros Grec.
  induction xs as [|x xs IH]; intros st i result Hs Hr; cbn [sliceElems]; [exact I|].
  pose proof (Hr (withPath ctx ("[" +:+ pretty i +:+ "]")) st x (or_introl eq_refl) Hs) as H1.
  pose proof (Grec (withPath ctx ("[" +:+ pretty i +:+ "]")) st x) as G1.
  destruct (rec _ st x) as [y st'|e st'|pv|]; cbn in H1, G1 |- *; try tauto.
  apply IH; [etransitivity; eassumption|].
  intros c st'' y' Hin. apply Hr. right. exact Hin.
Qed.

Section FuelRec.

Variable rec : serializeContext -> pointers -> val -> outcome ir.
Hypothesis rec_grows : forall c st x, grows st (rec c st x).
Variable st0 : pointers.
Variable k : nat.
Hypothesis rec_ok :
  forall c st x, st0 ⊆ st -> (vheight x < k)%nat -> fuel_ok (rec c st x).

Lemma structEmbedded_fuel (v : val) :
  (vheight v < k)%nat ->
  forall c st, st0 ⊆ st -> fuel_ok (structEmbedded opts h groups mode rec c st v).
Proof.
  induction v using val_nested_ind; intros Hv c st Hs; cbn [structEmbedded];
    try exact I.
  apply (structFields_fuel rec _ c st0 fs rec_grows
           (fun c' st' x => structEmbedded_grows opts h groups mode rec rec_grows x c' st')
           st [] Hs).
  - intros c' st' fv Hin Hs'. apply rec_ok; [exact Hs'|].
    pose proof (kids_inline h (VStruct fs) fv.2 I (in_map snd _ _ Hin)). lia.
  - intros c' st' fv Hin Hs'. rewrite List.Forall_forall in H.
    apply (H fv Hin); [|exact Hs'].
    pose proof (kids_inline h (VStruct fs) fv.2 I (in_map snd _ _ Hin)). lia.
Qed.

Lemma dispatch_fuel (ctx : serializeContext) (st : pointers) (v : val) :
  (forall x, In x (kids h v) -> (vheight x < k)%nat) -> st0 ⊆ st ->
  fuel_ok (dispatch opts h groups mode rec ctx st v).
Proof.
  intros Hk Hs. unfold dispatch, structToMap, mapToMap, sliceToSlice.
  destruct v as [| | | | | | [a|] | [x|] | fs | z | p | p | xs |]; try exact I.
  - cbn [kids] in Hk. destruct (h !! a) as [[x| |]|]; try exact I.
    apply rec_ok; [exact Hs|]. apply Hk. left. reflexivity.
  - apply rec_ok; [exact Hs|]. apply Hk. left. reflexivity.
  - pose proof (structFields_fuel rec (structEmbedded opts h groups mode rec) ctx st0 fs
                  rec_grows
                  (fun c' st' x => structEmbedded_grows opts h groups mode rec rec_grows x c' st')
                  st [] Hs) as H.
    destruct (structFields _ _ _ _ _ _ _ _ _ _); apply H; intros c st' fv Hin Hs'.
    all: try (apply rec_ok; [exact Hs'|apply Hk; apply (in_map snd _ _ Hin)]).
    all: apply structEmbedded_fuel; [apply Hk; apply (in_map snd _ _ Hin)|exact Hs'].
  - destruct (z && NullIfEmpty opts); exact I.
  - cbn [kids] in Hk. destruct (map_entries h p) as [kvs|]; [|exact I].
    destruct (_ && _); [exact I|].
    pose proof (mapEntries_fuel rec ctx st0 kvs rec_grows st [] Hs) as H.
    destruct (mapEntries _ _ _ _ _ _); apply H; intros c st' kv Hin Hs';
      (apply rec_ok; [exact Hs'|apply Hk; apply (in_map snd _ _ Hin)]).
  - cbn [kids] in Hk. destruct (slice_elems h p) as [[|x xs]|]; try exact I.
    + destruct (NullIfEmpty opts); [destruct (ptr_is_nil p)|]; exact I.
    + pose proof (sliceElems_fuel rec ctx st0 (x :: xs) rec_grows st 0 [] Hs) as H.
      destruct (sliceElems _ _ _ _ _ _ _); apply H; intros c st' y Hin Hs';
        (apply rec_ok; [exact Hs'|apply Hk; exact Hin]).
  - destruct xs as [|x xs].
    + destruct (NullIfEmpty opts); exact I.
    + pose proof (sliceElems_fuel rec ctx st0 (x :: xs) rec_grows st 0 [] Hs) as H.
      destruct (sliceElems _ _ _ _ _ _ _); apply H; intros c st' y Hin Hs';
        (apply rec_ok; [exact Hs'|apply Hk; exact Hin]).
Qed.

End FuelRec.

(** With the cycle check on, a reference that passes [checkPointer] either
    leads nowhere or was unvisited and is now recorded. *)
Lemma checkPointer_cases (ctx : serializeContext) (st st' : pointers) (v : val) (u : unit) :
  DisableCircularCheck opts = false ->
  match v with VPtr _ | VMap _ | VSlice _ => True | _ => False end ->
  checkPointer opts h ctx st v = ROk u st' ->
  kids h v = [] \/
  exists a, st !! a = None /\ is_Some (h !! a) /\ st' = <[a := path ctx]> st.
Proof.
  intros Hdis Hv. unfold checkPointer. rewrite Hdis.
  destruct v as [| | | | | |[a|]| | | |[a|]|[a|]| |]; try contradiction;
    cbn [refAddr kids Len map_entries slice_elems];
    try (intros _; left; reflexivity).
  - destruct (st !! a) eqn:Ea; intros E; [discriminate|].
    injection E as <-. destruct (h !! a) as [[| |]|] eqn:Ha; try (left; reflexivity).
    right. exists a. rewrite Ha. eauto.
  - destruct (h !! a) as [[| |kvs]|] eqn:Ha; cbn; try discriminate; try (intros _; left; reflexivity).
    destruct kvs; [intros _; left; reflexivity|].
    destruct (st !! a) eqn:Ea; intros E; [discriminate|].
    injection E as <-. right. exists a. rewrite Ha. eauto.
  - destruct (h !! a) as [[|xs|]|] eqn:Ha; cbn; try discriminate; try (intros _; left; reflexivity).
    destruct xs; [intros _; left; reflexivity|].
    destruct (st !! a) eqn:Ea; intros E; [discriminate|].
    injection E as <-. right. exists a. rewrite Ha. eauto.
Qed.

End Fuel.

(** With the cycle check on, [fuelBound] levels of recursion suffice:
    every recursive call either enters an inline part, which lowers the
    inline height, or enters an unvisited heap object, which is recorded. *)
Lemma valueToMap_fuel (opts : Options) (h : heap) (groups : list string)
    (mode : GroupMode) :
  DisableCircularCheck opts = false ->
  forall n ctx st v, (fuelBound h st v <= n)%nat ->
  fuel_ok (valueToMap opts h groups mode n ctx st v).
Proof.
  intros Hdis. induction n as [|n IH]; intros ctx st v Hn;
    [unfold fuelBound in Hn; lia|].
  cbn [valueToMap]. apply recoverAt_fuel. unfold valueToMap_body.
  unfold fuelBound in Hn.
  (* a recursive call on an inline part *)
  assert (Hinline : forall ctx1,
    match v with VIface _ | VStruct _ | VArray _ => True | _ => False end ->
    fuel_ok (dispatch opts h groups mode (valueToMap opts h groups mode n) ctx1 st v)).
  { intros ctx1 Hv. apply (dispatch_fuel opts h groups mode _
      (valueToMap_grows opts h groups mode n) st (vheight v)); [| |reflexivity].
    - intros c st' y Hs' Hy. apply IH. unfold fuelBound.
      pose proof (Nat.mul_le_mono_r _ _ (S (S (hheight h))) (unvisited_antitone h st st' Hs')).
      lia.
    - intros y Hy. exact (kids_inline h v y Hv Hy). }
  (* a recursive call through a reference *)
  assert (Href : forall ctx1 u st',
    match v with VPtr _ | VMap _ | VSlice _ => True | _ => False end ->
    checkPointer opts h ctx1 st v = ROk u st' ->
    fuel_ok (dispatch opts h groups mode (valueToMap opts h groups mode n) ctx1 st' v)).
  { intros ctx1 u st' Hv Hcp.
    pose proof (checkPointer_grows opts h ctx1 st v) as Gst. rewrite Hcp in Gst. cbn in Gst.
    destruct (checkPointer_cases opts h ctx1 st st' v u Hdis Hv Hcp)
      as [Hk|(a & Ha & Hh & ->)].
    - apply (dispatch_fuel opts h groups mode _
        (valueToMap_grows opts h groups mode n) st' 0); [| |reflexivity].
      + intros c st'' y _ Hy. lia.
      + rewrite Hk. intros y [].
    - apply (dispatch_fuel opts h groups mode _
        (valueToMap_grows opts h groups mode n) (<[a := path ctx1]> st) (S (hheight h)));
        [| |reflexivity].
      + intros c st'' y Hs'' Hy. apply IH. unfold fuelBound.
        pose proof (unvisited_antitone h _ _ Hs'') as U1.
        pose proof (unvisited_insert h st a (path ctx1) Ha Hh) as U2.
        assert (U3 : (S (unvisited h st'') <= unvisited h st)%nat) by lia.
        pose proof (Nat.mul_le_mono_r _ _ (S (S (hheight h))) U3) as U4.
        rewrite Nat.mul_succ_l in U4. lia.
      + intros y Hy. pose proof (kids_heap h v y Hy Hv). lia. }
  destruct v as [s| | | |f| |[a|]|[x|]|fs|z|p|p|xs|]; cbv zeta;
    try (repeat case_match; exact I);
    (destruct (depthExceeded opts _); [repeat case_match; exact I|]);
    cbv iota.
  all: try (apply Hinline; exact I).
  all: try (destruct (dispatch _ _ _ _ _ _ _ _); exact I).
  all: try (unfold dispatch; destruct (z && NullIfEmpty opts); exact I).
  all: match goal with
       | |- context [checkPointer ?o ?hh ?c ?s ?w] =>
           destruct (checkPointer o hh c s w) as [u st'|e st'|pv|] eqn:Ecp;
           [apply (Href c u st' I Ecp)|exact I|exact I|]
       end.
  all: exfalso; revert Ecp; unfold checkPointer; repeat case_match; discriminate.
Qed.

(** C6: cycle law.  With the cycle check on, the traversal of any value
    [v] over any heap terminates: [fuelBound h st v] levels of recursion
    suffice, and no reference cycle makes it run out.  When it reaches an
    identity (a non-nil pointer, or a slice or map of non-zero length)
    that is already visited, it fails there: with a circular-reference
    error carrying the path of this second visit, or with a
    depth-exceeded error if a positive maximum depth is passed at that
    point.  On the README's two-node cycle it reports the
    circular-reference error at the second visit. *)
Theorem cycle_traversal_terminates (opts : Options) (h : heap)
    (groups : list string) (mode : GroupMode) (v : val) :
  DisableCircularCheck opts = false ->
  (forall n ctx st, (fuelBound h st v <= n)%nat ->
     fuel_ok (valueToMap opts h groups mode n ctx st v)) /\
  (forall n ctx st w a,
     refAddr w = Some a -> is_Some (st !! a) -> nonempty_ref h w = true ->
     valueToMap opts h groups mode (S n) ctx st w =
     if depthExceeded opts {| path := path ctx; depth := depth ctx + 1 |}
     then RErr (MaxDepthError (path ctx)) st
     else RErr (CircularReferenceError (path ctx)) st) /\
  valueToMap readmeOpts cycleAB ["public"] GroupModeOr 20 newContext ∅
    (VPtr (Some 1%nat))
  = RErr (CircularReferenceError "Next..Next") (<[2%nat := "Next"]> (<[1%nat := ""]> ∅)).
Proof.
  intros Hdis. split; [|split].
  - intros n ctx st Hn. exact (valueToMap_fuel opts h groups mode Hdis n ctx st v Hn).
  - intros n ctx st w a Ha Hv Hne.
    exact (valueToMap_revisit opts h groups mode n ctx st w a Hdis Ha Hv Hne).
  - vm_compute. reflexivity.
Qed.

Lemma cycle_traversal_terminates_witness :
  fuel_ok (valueToMap readmeOpts cycleAB ["public"] GroupModeOr 7 newContext ∅
             (VPtr (Some 1%nat))).
Proof.
  assert (Hb : (fuelBound cycleAB ∅ (VPtr (Some 1%nat)) <= 7)%nat)
    by (vm_compute; lia).
  exact (proj1 (cycle_traversal_terminates readmeOpts cycleAB ["public"] GroupModeOr
                  (VPtr (Some 1%nat)) eq_refl) 7%nat newContext ∅ Hb).
Defined.

(** The README's two-node cycle without a circular-reference error:
    with maximum depth 2 the depth check fires first, at [Next]; with
    the group ["admin"] the cycle's fields are filtered out, so the
    traversal never follows the cycle and succeeds. *)
Lemma cycle_not_reported :
  valueToMap (withMaxDepth readmeOpts 2) cycleAB ["public"] GroupModeOr 20 newContext ∅
    (VPtr (Some 1%nat)) = RErr (MaxDepthError "Next") (<[1%nat := ""]> ∅) /\
  valueToMap readmeOpts cycleAB ["admin"] GroupModeOr 20 newContext ∅
    (VPtr (Some 1%nat)) = ROk (IRMap []) (<[1%nat := ""]> ∅).
Proof. split; vm_compute; reflexivity. Qed.

(* ================================================================== *)
(** * Struct tags and the field cache *)

Module TagFacts.
Import Tags.

Definition commaFree (s : string) : Prop :=
  ~ In ","%char (String.list_ascii_of_string s).

Lemma splitComma_commaFree (s : string) :
  commaFree s -> splitComma s = [s].
Proof.
  induction s as [|c s IH]; intros Hc; [reflexivity|].
  unfold commaFree in *; cbn in Hc |- *.
  rewrite IH by tauto.
  destruct (Ascii.eqb_spec c ","%char); [subst; tauto|reflexivity].
Qed.

Lemma splitComma_app (x y : string) :
  commaFree x -> splitComma (x +:+ String ","%char y) = x :: splitComma y.
Proof.
  induction x as [|c x IH]; intros Hc; [reflexivity|].
  unfold commaFree in *; cbn in Hc; simpl.
  rewrite IH by tauto.
  destruct (Ascii.eqb_spec c ","%char); [subst; tauto|reflexivity].
Qed.

Lemma splitComma_concat (gs : list string) :
  gs <> [] -> Forall commaFree gs -> splitComma (String.concat "," gs) = gs.
Proof.
  induction gs as [|g gs IH]; intros Hne Hf; [congruence|].
  inversion Hf as [|? ? Hg Hgs]; subst.
  destruct gs as [|g' gs'].
  - cbn. apply splitComma_commaFree; exact Hg.
  - change (String.concat "," (g :: g' :: gs'))
      with (g +:+ String ","%char (String.concat "," (g' :: gs'))).
    rewrite splitComma_app by exact Hg. rewrite IH; [reflexivity|congruence|exact Hgs].
Qed.

Lemma splitComma_pieces (s : string) : Forall commaFree (splitComma s).
Proof.
  induction s as [|c s IH]; cbn.
  - constructor; [intros []|constructor].
  - destruct (Ascii.eqb_spec c ","%char).
    + constructor; [intros []|exact IH].
    + destruct (splitComma s) as [|p ps] eqn:E.
      * constructor; [|constructor]. unfold commaFree; cbn; intros [H|[]]; congruence.
      * inversion IH; subst. constructor; [|assumption].
        unfold commaFree in *; cbn; intros [H|H]; [congruence|tauto].
Qed.

Lemma splitComma_nonempty (s : string) : splitComma s <> [].
Proof.
  destruct s as [|c s]; cbn; [congruence|].
  destruct (Ascii.eqb c ","%char); [congruence|]. destruct (splitComma s); congruence.
Qed.

(** ** TrimSpace *)

Definition noLead (encs : list (list ascii)) (l : list ascii) : Prop :=
  List.find (fun e => isPrefix e l) encs = None.

Lemma dropLeading_noLead_id n encs l :
  noLead encs l -> dropLeading n encs l = l.
Proof. destruct n; cbn; [reflexivity|]. unfold noLead. intros ->. reflexivity. Qed.

Lemma isPrefix_nil_r e : isPrefix e [] = true -> e = [].
Proof. destruct e; cbn; congruence. Qed.

Lemma find_isPrefix_nil encs :
  Forall (fun e => e <> []) encs ->
  List.find (fun e => isPrefix e []) encs = None.
Proof.
  induction encs as [|e encs IH]; intros Hf; [reflexivity|].
  inversion Hf; subst. cbn. destruct e; [congruence|]. cbn. auto.
Qed.

Lemma isPrefix_length e l : isPrefix e l = true -> (length e <= length l)%nat.
Proof.
  revert l; induction e as [|a e IH]; intros [|b l]; cbn; try lia; try congruence.
  intros H. apply andb_true_iff in H as [_ H]. apply IH in H. lia.
Qed.

Lemma dropLeading_noLead n encs l :
  Forall (fun e => e <> []) encs -> (length l <= n)%nat ->
  noLead encs (dropLeading n encs l).
Proof.
  intros Hne. revert l. induction n as [|n IH]; intros l Hl; cbn.
  - destruct l; [|cbn in Hl; lia]. apply find_isPrefix_nil; exact Hne.
  - destruct (List.find _ encs) as [e|] eqn:E.
    2: exact E.
    apply find_some in E as [Hin Hp].
    apply IH. rewrite length_drop.
    assert (e <> []) by (rewrite List.Forall_forall in Hne; exact (Hne e Hin)).
    destruct e; [congruence|]. cbn in *. lia.
Qed.

Lemma dropLeading_drop n encs l : exists k, dropLeading n encs l = drop k l.
Proof.
  revert l. induction n as [|n IH]; intros l; cbn.
  - exists 0%nat. reflexivity.
  - destruct (List.find _ encs) as [e|].
    + destruct (IH (drop (length e) l)) as [k ->]. exists (length e + k)%nat.
      rewrite drop_drop. reflexivity.
    + exists 0%nat. reflexivity.
Qed.

Lemma isPrefix_app e l r : isPrefix e l = true -> isPrefix e (l ++ r) = true.
Proof.
  revert l; induction e as [|a e IH]; intros [|b l]; cbn; try congruence.
  intros H. apply andb_true_iff in H as [H1 H2]. rewrite H1, (IH _ H2). reflexivity.
Qed.

Lemma noLead_app encs l r : noLead encs (l ++ r) -> noLead encs l.
Proof.
  unfold noLead. induction encs as [|e encs IH]; cbn; [auto|].
  destruct (isPrefix e l) eqn:E.
  - rewrite (isPrefix_app _ _ _ E). congruence.
  - destruct (isPrefix e (l ++ r)); [congruence|exact IH].
Qed.

Lemma spaceEnc_nonempty : Forall (fun e => e <> []) spaceEnc.
Proof. vm_compute. repeat constructor; discriminate. Qed.

Lemma revEnc_nonempty : Forall (fun e => e <> []) (map (@rev _) spaceEnc).
Proof. vm_compute. repeat constructor; discriminate. Qed.

Lemma TrimSpace_list (s : string) :
  exists l1 m,
    l1 = dropLeading (length (String.list_ascii_of_string s)) spaceEnc
           (String.list_ascii_of_string s) /\
    m = dropLeading (length l1) (map (@rev _) spaceEnc) (rev l1) /\
    TrimSpace s = String.string_of_list_ascii (rev m).
Proof. eexists _, _. split; [reflexivity|]. split; [reflexivity|]. reflexivity. Qed.

Lemma TrimSpace_idem (s : string) : TrimSpace (TrimSpace s) = TrimSpace s.
Proof.
  destruct (TrimSpace_list s) as (l1 & m & H1 & Hm & ->).
  assert (Hl1 : noLead spaceEnc l1)
    by (subst l1; apply dropLeading_noLead; [exact spaceEnc_nonempty|lia]).
  assert (Hm' : noLead (map (@rev _) spaceEnc) m)
    by (subst m; apply dropLeading_noLead; [exact revEnc_nonempty|rewrite length_rev; lia]).
  destruct (dropLeading_drop (length l1) (map (@rev _) spaceEnc) (rev l1)) as [k Hk].
  assert (Hsplit : l1 = rev m ++ rev (take k (rev l1))).
  { rewrite <- rev_app_distr. rewrite Hm, Hk, take_drop. rewrite rev_involutive. reflexivity. }
  assert (Hl2 : noLead spaceEnc (rev m)) by (apply (noLead_app _ _ (rev (take k (rev l1)))); rewrite <- Hsplit; exact Hl1).
  unfold TrimSpace. rewrite String.list_ascii_of_string_of_list_ascii.
  rewrite (dropLeading_noLead_id _ _ _ Hl2).
  rewrite rev_involutive, (dropLeading_noLead_id _ _ _ Hm'). reflexivity.
Qed.

Lemma in_drop {A} (x : A) k l : In x (drop k l) -> In x l.
Proof. intros H. rewrite <- (take_drop k l). apply in_or_app. right. exact H. Qed.

Lemma TrimSpace_commaFree (s : string) : commaFree s -> commaFree (TrimSpace s).
Proof.
  unfold commaFree. intros Hs Hin. apply Hs.
  destruct (TrimSpace_list s) as (l1 & m & H1 & Hm & Ht). rewrite Ht in Hin.
  rewrite String.list_ascii_of_string_of_list_ascii in Hin.
  apply in_rev in Hin.
  destruct (dropLeading_drop (length l1) (map (@rev _) spaceEnc) (rev l1)) as [k Hk].
  rewrite Hm, Hk in Hin. apply in_drop, in_rev in Hin.
  destruct (dropLeading_drop (length (String.list_ascii_of_string s)) spaceEnc
              (String.list_ascii_of_string s)) as [j Hj].
  rewrite H1, Hj in Hin. apply in_drop in Hin. exact Hin.
Qed.

(** ** parseGroupsTag and parseJSONTag *)

Lemma parseGroupsTag_fold l acc :
  fold_left (fun groups part =>
               let g := TrimSpace part in
               if negb (String.eqb g "") then groups ++ [g] else groups) l acc
  = acc ++ List.filter (fun g => negb (String.eqb g "")) (map TrimSpace l).
Proof.
  revert acc. induction l as [|p l IH]; intros acc; cbn; [rewrite app_nil_r; reflexivity|].
  rewrite IH. destruct (String.eqb (TrimSpace p) ""); cbn; [reflexivity|].
  rewrite <- app_assoc. reflexivity.
Qed.

Lemma parseGroupsTag_spec s :
  parseGroupsTag s =
  if String.eqb s "" then []
  else List.filter (fun g => negb (String.eqb g "")) (map TrimSpace (splitComma s)).
Proof. unfold parseGroupsTag. destruct (String.eqb s ""); [reflexivity|]. apply parseGroupsTag_fold. Qed.

Definition normalGroup (g : string) : Prop :=
  g <> "" /\ commaFree g /\ TrimSpace g = g.

Lemma concat_nonempty g r : g <> "" -> String.concat "," (g :: r) <> "".
Proof. destruct g; [congruence|]. intros Hg. destruct r; [exact Hg|discriminate]. Qed.

Lemma groups_roundtrip (gs : list string) :
  Forall normalGroup gs -> parseGroupsTag (String.concat "," gs) = gs.
Proof.
  intros Hf. destruct gs as [|g gs']; [reflexivity|].
  rewrite parseGroupsTag_spec.
  inversion Hf as [|? ? Hg _]; subst.
  destruct (String.eqb_spec (String.concat "," (g :: gs')) "") as [E|_].
  { exfalso. apply (concat_nonempty g gs'); [apply Hg|exact E]. }
  rewrite splitComma_concat; [|congruence|].
  2: { eapply List.Forall_impl; [|exact Hf]. intros x Hx; apply Hx. }
  clear Hg. induction Hf as [|x xs [Hx1 [_ Hx3]] _ IH]; [reflexivity|].
  cbn. rewrite Hx3. destruct (String.eqb_spec x ""); [congruence|]. cbn. rewrite IH. reflexivity.
Qed.

Lemma parseGroupsTag_normal s : Forall normalGroup (parseGroupsTag s).
Proof.
  rewrite parseGroupsTag_spec. destruct (String.eqb s ""); [constructor|].
  apply List.Forall_forall. intros g Hg. apply filter_In in Hg as [Hg Hne].
  apply in_map_iff in Hg as (p & <- & Hp).
  split; [destruct (String.eqb_spec (TrimSpace p) ""); [discriminate|assumption]|].
  split; [apply TrimSpace_commaFree; eapply List.Forall_forall; [apply splitComma_pieces|exact Hp]|].
  apply TrimSpace_idem.
Qed.

Lemma parseJSONTag_fold opts oe oz :
  fold_left (fun '(oe, oz) opt =>
               if String.eqb opt "omitempty" then (true, oz)
               else if String.eqb opt "omitzero" then (oe, true)
               else (oe, oz)) opts (oe, oz)
  = (oe || existsb (fun o => String.eqb o "omitempty") opts,
     oz || existsb (fun o => String.eqb o "omitzero") opts).
Proof.
  revert oe oz. induction opts as [|o opts IH]; intros oe oz; cbn.
  - rewrite !orb_false_r. reflexivity.
  - destruct (String.eqb_spec o "omitempty") as [->|Ne]; cbn.
    + rewrite IH. rewrite !orb_true_r. reflexivity.
    + destruct (String.eqb_spec o "omitzero") as [->|Nz]; cbn;
        rewrite IH; [rewrite !orb_true_r; reflexivity|reflexivity].
Qed.


Lemma parseJSONTag_concat f n opts :
  Forall commaFree (n :: opts) ->
  parseJSONTag f (String.concat "," (n :: opts)) =
  (if String.eqb n "" then f else n,
   existsb (fun o => String.eqb o "omitempty") opts,
   existsb (fun o => String.eqb o "omitzero") opts).
Proof.
  intros Hf. unfold parseJSONTag.
  destruct (String.eqb_spec (String.concat "," (n :: opts)) "") as [E|NE].
  - destruct opts as [|o os].
    + cbn in E. subst n. reflexivity.
    + exfalso. destruct n; discriminate E.
  - rewrite splitComma_concat by (congruence || exact Hf).
    cbn [head tail default]. rewrite parseJSONTag_fold. reflexivity.
Qed.

(** ** parseFields *)

Section stype_ind.
Variable P : stype -> Prop.
Hypothesis HS : forall fs, Forall (fun f => P (sf_type f)) fs -> P (SStruct fs).
Hypothesis HO : P SOther.

Fixpoint stype_deep_ind (t : stype) : P t :=
  match t with
  | SStruct fs =>
      HS fs ((fix go (fs : list sfield) : Forall (fun f => P (sf_type f)) fs :=
                match fs with
                | [] => @List.Forall_nil _ _
                | f :: fs' =>
                    @List.Forall_cons _ _ f fs'
                      (match f as f0 return P (sf_type f0) with
                       | SField _ _ _ _ ty => stype_deep_ind ty
                       end) (go fs')
                end) fs)
  | SOther => HO
  end.
End stype_ind.

(** The JSON name [parseFields] gives a field. *)
Definition jsonNameOf (f : sfield) : string :=
  (parseJSONTag (sf_name f) (TagGet (sf_tag f) "json")).1.1.

(** A field flattened into its parent: exported, embedded, a struct, and
    not excluded by its JSON tag. *)
Definition embedOK (f : sfield) : Prop :=
  sf_exported f = true /\ sf_anonymous f = true /\ is_struct (sf_type f) = true /\
  jsonNameOf f <> "-".

(** A field listed by [parseFields]: exported, not excluded, not an
    embedded struct. *)
Definition leafOK (f : sfield) : Prop :=
  sf_exported f = true /\ jsonNameOf f <> "-" /\
  (sf_anonymous f && is_struct (sf_type f)) = false.

(** The [fieldInfo] of the leaf [leaf] reached at [idx] through [path]. *)
Definition leafInfo (tagKey : string) (idx : list Z) (path : list sfield)
    (leaf : sfield) : fieldInfo :=
  let '(jn, oe, oz) := parseJSONTag (sf_name leaf) (TagGet (sf_tag leaf) "json") in
  {| Index := idx;
     Name := String.concat "." (map sf_name (path ++ [leaf]));
     JSONName := jn;
     Groups := parseGroupsTag (TagGet (sf_tag leaf) tagKey);
     OmitEmpty := oe;
     OmitZero := oz;
     Anonymous := sf_anonymous leaf |}.

Definition prefixInfo (i : Z) (name : string) (nf : fieldInfo) : fieldInfo :=
  {| Index := i :: Index nf;
     Name := name +:+ "." +:+ Name nf;
     JSONName := JSONName nf;
     Groups := Groups nf;
     OmitEmpty := OmitEmpty nf;
     OmitZero := OmitZero nf;
     Anonymous := Anonymous nf |}.

(** What field [f] at position [i] adds to the list. *)
Definition contrib (tagKey : string) (i : Z) (f : sfield) : list fieldInfo :=
  let 'SField name exported anonymous tag ty := f in
  if negb exported then [] else
  let '(jsonName, omitEmpty, omitZero) := parseJSONTag name (TagGet tag "json") in
  if String.eqb jsonName "-" then [] else
  if anonymous && is_struct ty then map (prefixInfo i name) (parseFields ty tagKey)
  else [{| Index := [i]; Name := name; JSONName := jsonName;
           Groups := parseGroupsTag (TagGet tag tagKey);
           OmitEmpty := omitEmpty; OmitZero := omitZero; Anonymous := anonymous |}].

Fixpoint contribs (tagKey : string) (i : Z) (fs : list sfield) : list fieldInfo :=
  match fs with
  | [] => []
  | f :: fs' => contrib tagKey i f ++ contribs tagKey (i + 1) fs'
  end.

Lemma parseFields_struct tagKey fs :
  parseFields (SStruct fs) tagKey = contribs tagKey 0 fs.
Proof.
  cbn [parseFields].
  match goal with |- ?loop 0 fs [] = _ =>
    enough (H : forall i acc, loop i fs acc = acc ++ contribs tagKey i fs) by exact (H 0 [])
  end.
  induction fs as [|[name ex an tag ty] fs IH]; intros i acc; cbn [contribs].
  - rewrite app_nil_r. reflexivity.
  - cbn [contrib]. destruct ex; cbn [negb].
    + destruct (parseJSONTag name (TagGet tag "json")) as [[jn oe] oz].
      destruct (String.eqb jn "-"); [rewrite IH; reflexivity|].
      destruct (an && is_struct ty); rewrite IH, app_assoc; reflexivity.
    + rewrite IH. reflexivity.
Qed.


Lemma contribs_In tagKey i fs fi :
  In fi (contribs tagKey i fs) <->
  exists j f, nth_error fs j = Some f /\ In fi (contrib tagKey (i + Z.of_nat j) f).
Proof.
  revert i. induction fs as [|f fs IH]; intros i; cbn [contribs].
  - split; [intros []|]. intros (j & f & Hj & _). destruct j; discriminate.
  - rewrite in_app_iff, IH. split.
    + intros [H|(j & g & Hj & H)].
      * exists 0%nat, f. split; [reflexivity|]. rewrite Z.add_0_r. exact H.
      * exists (S j), g. split; [exact Hj|]. replace (i + Z.of_nat (S j)) with (i + 1 + Z.of_nat j) by lia. exact H.
    + intros ([|j] & g & Hj & H); cbn in Hj.
      * left. injection Hj as <-. rewrite Z.add_0_r in H. exact H.
      * right. exists j, g. split; [exact Hj|]. replace (i + 1 + Z.of_nat j) with (i + Z.of_nat (S j)) by lia. exact H.
Qed.

Lemma concat_cons sep x l : l <> [] -> String.concat sep (x :: l) = x +:+ sep +:+ String.concat sep l.
Proof. destruct l; [congruence|reflexivity]. Qed.

Lemma prefix_leafInfo tagKey i f idx p leaf :
  prefixInfo i (sf_name f) (leafInfo tagKey idx p leaf) = leafInfo tagKey (i :: idx) (f :: p) leaf.
Proof.
  unfold prefixInfo, leafInfo.
  destruct (parseJSONTag (sf_name leaf) (TagGet (sf_tag leaf) "json")) as [[jn oe] oz].
  cbn [Index Name JSONName Groups OmitEmpty OmitZero Anonymous map app].
  rewrite (concat_cons "." (sf_name f)); [reflexivity|].
  destruct p; cbn; congruence.
Qed.

Lemma walk_nil t : walk t [] = None.
Proof. destruct t; reflexivity. Qed.

Lemma walk_cons fs i rest f :
  0 <= i -> nth_error fs (Z.to_nat i) = Some f ->
  walk (SStruct fs) (i :: rest) =
  match rest with
  | [] => Some ([], f)
  | _ :: _ => match walk (sf_type f) rest with
              | Some (p, leaf) => Some (f :: p, leaf)
              | None => None
              end
  end.
Proof.
  intros Hi Hn. cbn [walk]. destruct (Z.ltb_spec i 0); [lia|]. rewrite Hn. reflexivity.
Qed.

Lemma parseFields_sound t tagKey fi :
  In fi (parseFields t tagKey) ->
  exists path leaf, walk t (Index fi) = Some (path, leaf) /\
    Forall embedOK path /\ leafOK leaf /\ fi = leafInfo tagKey (Index fi) path leaf.
Proof.
  revert fi. induction t as [fs IHfs|] using stype_deep_ind; [|intros fi []].
  intros fi Hin. rewrite parseFields_struct, contribs_In in Hin.
  destruct Hin as (j & f & Hj & Hin).
  assert (IHf : forall nf, In nf (parseFields (sf_type f) tagKey) ->
    exists path leaf, walk (sf_type f) (Index nf) = Some (path, leaf) /\
      Forall embedOK path /\ leafOK leaf /\ nf = leafInfo tagKey (Index nf) path leaf).
  { rewrite List.Forall_forall in IHfs. apply IHfs. eapply nth_error_In; exact Hj. }
  assert (Hwj : 0 <= 0 + Z.of_nat j /\ Z.to_nat (0 + Z.of_nat j) = j) by (split; lia).
  destruct f as [name ex an tag ty]. cbn [contrib] in Hin.
  destruct ex; [|destruct Hin]. cbn [negb] in Hin.
  destruct (parseJSONTag name (TagGet tag "json")) as [[jn oe] oz] eqn:EJ.
  assert (HJ : jsonNameOf (SField name true an tag ty) = jn) by (unfold jsonNameOf; cbn; rewrite EJ; reflexivity).
  destruct (String.eqb_spec jn "-") as [_|Hjn]; [destruct Hin|].
  destruct (an && is_struct ty) eqn:Eas.
  - apply in_map_iff in Hin as (nf & <- & Hnf).
    destruct (IHf nf Hnf) as (path & leaf & Hw & Hp & Hl & Hnf_eq). cbn [sf_type] in Hw.
    exists (SField name true an tag ty :: path), leaf.
    apply andb_true_iff in Eas as [-> Hst].
    split; [|split; [|split]].
    + cbn [prefixInfo Index]. rewrite (walk_cons _ _ _ _ (proj1 Hwj)) by (rewrite (proj2 Hwj); exact Hj).
      destruct (Index nf) as [|x xs]; [rewrite walk_nil in Hw; discriminate|].
      cbn [sf_type]. rewrite Hw. reflexivity.
    + constructor; [|exact Hp]. repeat split; [exact Hst|]. rewrite HJ. exact Hjn.
    + exact Hl.
    + rewrite Hnf_eq at 1. change name with (sf_name (SField name true true tag ty)).
      rewrite prefix_leafInfo. reflexivity.
  - destruct Hin as [<-|[]].
    exists [], (SField name true an tag ty). cbn [Index].
    split; [|split; [|split]].
    + rewrite (walk_cons _ _ _ _ (proj1 Hwj)) by (rewrite (proj2 Hwj); exact Hj). reflexivity.
    + constructor.
    + repeat split; [rewrite HJ; exact Hjn|exact Eas].
    + unfold leafInfo. cbn [sf_name sf_tag sf_anonymous]. rewrite EJ. reflexivity.
Qed.

Lemma parseFields_complete t tagKey idx path leaf :
  walk t idx = Some (path, leaf) -> Forall embedOK path -> leafOK leaf ->
  In (leafInfo tagKey idx path leaf) (parseFields t tagKey).
Proof.
  revert t path. induction idx as [|i rest IH]; intros t path Hw Hp Hl.
  { rewrite walk_nil in Hw. discriminate. }
  destruct t as [fs|]; [|discriminate].
  cbn [walk] in Hw. destruct (Z.ltb_spec i 0); [discriminate|].
  destruct (nth_error fs (Z.to_nat i)) as [f|] eqn:Hn; [|discriminate].
  rewrite parseFields_struct, contribs_In. exists (Z.to_nat i), f. split; [exact Hn|].
  replace (0 + Z.of_nat (Z.to_nat i)) with i by lia.
  destruct rest as [|x xs].
  - injection Hw as <- <-. destruct Hl as (Hex & Hjn & Has).
    destruct f as [name ex an tag ty]. cbn [sf_exported] in Hex; subst ex.
    unfold jsonNameOf in Hjn. cbn [sf_name sf_tag] in Hjn.
    cbn [contrib negb]. unfold leafInfo. cbn [sf_name sf_tag sf_anonymous].
    destruct (parseJSONTag name (TagGet tag "json")) as [[jn oe] oz].
    cbn [fst] in Hjn. destruct (String.eqb_spec jn "-"); [congruence|].
    cbn [sf_anonymous sf_type] in Has. rewrite Has. left. reflexivity.
  - destruct (walk (sf_type f) (x :: xs)) as [[p l]|] eqn:Hw'; [|discriminate].
    injection Hw as <- <-. inversion Hp as [|? ? Hf Hp']; subst.
    specialize (IH _ _ Hw' Hp' Hl).
    rewrite <- prefix_leafInfo.
    destruct Hf as (Hex & Han & Hst & Hjn).
    destruct f as [name ex an tag ty]. cbn [sf_exported sf_anonymous sf_type] in Hex, Han, Hst, IH; subst ex an.
    unfold jsonNameOf in Hjn. cbn [sf_name sf_tag] in Hjn.
    cbn [contrib negb sf_name].
    destruct (parseJSONTag name (TagGet tag "json")) as [[jn oe] oz].
    cbn [fst] in Hjn. destruct (String.eqb_spec jn "-"); [congruence|].
    rewrite Hst. cbn [andb]. apply in_map. exact IH.
Qed.

(** ** Properties of the tag parsers *)

(** X1: joining groups with commas and parsing the result gives the
    groups back, when each group is non-empty, has no comma and no
    surrounding white space. *)
Theorem parseGroupsTag_roundtrip (gs : list string) :
  Forall normalGroup gs -> parseGroupsTag (String.concat "," gs) = gs.
Proof. exact (groups_roundtrip gs). Qed.

Lemma parseGroupsTag_roundtrip_witness :
  Forall normalGroup ["admin"; "public"] /\
  parseGroupsTag (String.concat "," ["admin"; "public"]) = ["admin"; "public"].
Proof.
  assert (H : Forall normalGroup ["admin"; "public"]).
  { repeat constructor; try discriminate; unfold commaFree; cbn; intuition discriminate. }
  split; [exact H|exact (parseGroupsTag_roundtrip _ H)].
Defined.

(** X2: [parseGroupsTag] yields groups that are non-empty, comma-free and
    trimmed; joining and re-parsing them changes nothing. *)
Theorem parseGroupsTag_normal_form (s : string) :
  Forall normalGroup (parseGroupsTag s) /\
  parseGroupsTag (String.concat "," (parseGroupsTag s)) = parseGroupsTag s.
Proof.
  pose proof (parseGroupsTag_normal s) as H. split; [exact H|].
  exact (groups_roundtrip _ H).
Qed.

(** X3: for a tag made of a comma-free name and comma-free options,
    [parseJSONTag] returns the name (the field name when it is empty)
    and whether [omitempty] and [omitzero] occur among the options;
    other options, their order and repetitions do not matter. *)
Theorem parseJSONTag_options (fieldName name : string) (options : list string) :
  Forall commaFree (name :: options) ->
  parseJSONTag fieldName (String.concat "," (name :: options)) =
  (if String.eqb name "" then fieldName else name,
   existsb (fun o => String.eqb o "omitempty") options,
   existsb (fun o => String.eqb o "omitzero") options).
Proof. exact (parseJSONTag_concat fieldName name options). Qed.

Lemma parseJSONTag_options_witness :
  parseJSONTag "Email" (String.concat "," [""; "string"; "omitzero"])
  = ("Email", false, true).
Proof.
  assert (H : Forall commaFree [""; "string"; "omitzero"]).
  { repeat constructor; unfold commaFree; cbn; intuition discriminate. }
  exact (parseJSONTag_options "Email" "" ["string"; "omitzero"] H).
Defined.

(** X4: [parseFields] lists exactly the exported leaf fields reached
    through exported embedded structs, none of them excluded by a JSON
    name of ["-"]; each entry carries the leaf's index path, its dotted
    Go name, and the JSON name, groups and options of the leaf's own
    tags. *)
Theorem parseFields_fields (t : stype) (tagKey : string) (fi : fieldInfo) :
  In fi (parseFields t tagKey) <->
  exists path leaf,
    walk t (Index fi) = Some (path, leaf) /\ Forall embedOK path /\
    leafOK leaf /\ fi = leafInfo tagKey (Index fi) path leaf.
Proof.
  split; [apply parseFields_sound|].
  intros (path & leaf & Hw & Hp & Hl & Hfi). rewrite Hfi.
  exact (parseFields_complete t tagKey (Index fi) path leaf Hw Hp Hl).
Qed.

End TagFacts.

Module CacheInv.
Import Cache CacheFacts.

Ltac shape_step :=
  match goal with
  | |- context [setPrev ?l ?x ?y] =>
      let E := fresh "E" in
      destruct (setPrev l x y) eqn:E; cbn [mbind option_bind]; [apply setPrev_shape in E|discriminate]
  | |- context [setNext ?l ?x ?y] =>
      let E := fresh "E" in
      destruct (setNext l x y) eqn:E; cbn [mbind option_bind]; [apply setNext_shape in E|discriminate]
  | |- context [setInList ?l ?x ?y] =>
      let E := fresh "E" in
      destruct (setInList l x y) eqn:E; cbn [mbind option_bind]; [apply setInList_shape in E|discriminate]
  | |- context [nodes ?l !! ?x] =>
      destruct (nodes l !! x); cbn [mbind option_bind]; [|discriminate]
  | |- context [next ?e] => destruct (next e); cbn [mbind option_bind]; [|discriminate]
  | |- context [prev ?e] => destruct (prev e); cbn [mbind option_bind]; [|discriminate]
  end.

Ltac shape_close :=
  repeat match goal with H : _ /\ _ |- _ => destruct H end;
  unfold shape in *; cbn in *; congruence.

Lemma remove_shape l l' e : remove l e = Some l' -> shape l' = shape l.
Proof. unfold remove. repeat shape_step. intros [= <-]. shape_close. Qed.

Lemma move_shape l l' e at_ : move l e at_ = Some l' -> shape l' = shape l.
Proof.
  unfold move. destruct (Nat.eqb e at_); [congruence|].
  repeat shape_step. intros [= <-]. shape_close.
Qed.

Lemma Init_shape l l' : Init l = Some l' -> shape l' = shape l.
Proof. unfold Init. repeat shape_step. intros [= <-]. shape_close. Qed.

Lemma Remove_shape l l' e : Remove l e = Some l' -> shape l' = shape l.
Proof.
  unfold Remove. destruct (nodes l !! e); cbn [mbind option_bind]; [|discriminate].
  destruct (inList e0); [apply remove_shape|congruence].
Qed.

Lemma MoveToFront_shape l l' e : MoveToFront l e = Some l' -> shape l' = shape l.
Proof.
  unfold MoveToFront. do 2 shape_step.
  match goal with |- context [if ?b then _ else _] => destruct b end;
    [congruence|apply move_shape].
Qed.

Lemma PushFront_shape l l' v e :
  PushFront l v e = Some l' -> shape l' = <[e := Some v]> (shape l).
Proof.
  unfold PushFront. intros H. apply insert_shape in H as [-> _].
  unfold shape. cbn. rewrite fmap_insert. reflexivity.
Qed.

Lemma rtype_eqb_true t t' : rtype_eqb t t' = true -> t = t'.
Proof.
  destruct t as [i b], t' as [i' b']. unfold rtype_eqb. cbn.
  intros H. apply andb_true_iff in H as [H1 H2].
  apply Nat.eqb_eq in H1. apply Bool.eqb_prop in H2. congruence.
Qed.

Lemma mdelete_cons t t0 e0 m :
  mdelete t ((t0, e0) :: m) =
  if rtype_eqb t t0 then mdelete t m else (t0, e0) :: mdelete t m.
Proof.
  unfold mdelete. rewrite filter_cons. cbn [fst].
  destruct (rtype_eqb t t0);
    [rewrite decide_False by (cbn; tauto) | rewrite decide_True by (cbn; tauto)]; reflexivity.
Qed.

Lemma mlookup_mdelete_self t m : mlookup t (mdelete t m) = None.
Proof.
  induction m as [|[t0 e0] m IH]; [reflexivity|]. rewrite mdelete_cons.
  destruct (rtype_eqb t t0) eqn:E; [exact IH|]. cbn. rewrite E. exact IH.
Qed.

Lemma mlookup_mdelete t t' m e :
  mlookup t (mdelete t' m) = Some e -> mlookup t m = Some e.
Proof.
  induction m as [|[t0 e0] m IH]; [discriminate|]. rewrite mdelete_cons. cbn.
  destruct (rtype_eqb t' t0) eqn:E; cbn.
  - intros H. destruct (rtype_eqb t t0) eqn:E'; [|exact (IH H)].
    apply rtype_eqb_true in E, E'. subst.
    rewrite mlookup_mdelete_self in H. discriminate.
  - destruct (rtype_eqb t t0); [tauto|exact IH].
Qed.


(** A step that keeps the node values and the allocator, and only removes
    entries from the index. *)
Definition cache_sub (m' m : list (rtype * nat)) : Prop :=
  forall t e, mlookup t m' = Some e -> mlookup t m = Some e.

Definition frame (c c' : fieldCache) : Prop :=
  shape (evictList c') = shape (evictList c) /\ fresh c' = fresh c /\
  cache_sub (cache c') (cache c).

Lemma frame_refl c : frame c c.
Proof. split; [reflexivity|split; [reflexivity|intros ? ? H; exact H]]. Qed.

Lemma frame_trans c1 c2 c3 : frame c1 c2 -> frame c2 c3 -> frame c1 c3.
Proof.
  intros (S1 & F1 & C1) (S2 & F2 & C2). split; [congruence|split; [congruence|]].
  intros t e H. apply C1, C2, H.
Qed.

Lemma evict_frame c c' err : evict c = Some (c', err) -> frame c c'.
Proof.
  unfold evict. destruct (Nat.eqb _ 0); [intros [= <- _]; apply frame_refl|].
  destruct (Back (evictList c)) as [e|]; [|intros [= <- _]; apply frame_refl].
  destruct (Remove (evictList c) e) as [l|] eqn:ER; cbn [mbind option_bind]; [|discriminate].
  apply Remove_shape in ER.
  destruct (nodes l !! e) as [el|]; cbn [mbind option_bind]; [|discriminate].
  destruct (Value el).
  - destruct (List.find _ (cache c)) as [[typ x]|].
    + intros [= <- _]. split; [exact ER|split; [reflexivity|]].
      intros t' e' H. exact (mlookup_mdelete _ _ _ _ H).
    + intros [= <- _]. split; [exact ER|split; [reflexivity|intros ? ? H; exact H]].
  - intros [= <- _]. split; [exact ER|split; [reflexivity|intros ? ? H; exact H]].
Qed.

Lemma evictForInsert_frame fuel c c' : evictForInsert fuel c = Some c' -> frame c c'.
Proof.
  revert c. induction fuel as [|fuel IH]; intros c; cbn [evictForInsert].
  - destruct (_ && _); [discriminate|intros [= <-]; apply frame_refl].
  - destruct (_ && _); [|intros [= <-]; apply frame_refl].
    destruct (evict c) as [[c1 err]|] eqn:E; cbn [mbind option_bind]; [|discriminate].
    intros H. apply evict_frame in E. exact (frame_trans _ _ _ E (IH _ H)).
Qed.

Lemma shrink_frame fuel c c' : shrink fuel c = Some c' -> frame c c'.
Proof.
  revert c. induction fuel as [|fuel IH]; intros c; cbn [shrink].
  - destruct (_ && _); [discriminate|intros [= <-]; apply frame_refl].
  - destruct (_ && _); [|intros [= <-]; apply frame_refl].
    destruct (evict c) as [[c1 err]|] eqn:E; cbn [mbind option_bind]; [|discriminate].
    apply evict_frame in E. cbn [snd fst].
    destruct err; [intros [= <-]; exact E|].
    intros H. exact (frame_trans _ _ _ E (IH _ H)).
Qed.

Lemma SetMaxSize_frame size c c' : SetMaxSize size c = Some c' -> frame c c'.
Proof. unfold SetMaxSize. intros H. apply shrink_frame in H. exact H. Qed.

Lemma Clear_frame c c' : Clear c = Some c' -> frame c c'.
Proof.
  unfold Clear. destruct (Init (evictList c)) as [l|] eqn:E; cbn [mbind option_bind]; [|discriminate].
  intros [= <-]. apply Init_shape in E. split; [exact E|split; [reflexivity|]].
  intros t e H. discriminate H.
Qed.

Section Consistency.

Variable parseFields : rtype -> string -> list fieldInfo + goerr.
Variable tagKey : string.

(** Every indexed element is allocated and holds what the resolver gives
    for its type. *)
Definition Inv (c : fieldCache) : Prop :=
  forall t e, mlookup t (cache c) = Some e ->
    (e < fresh c)%nat /\
    forall entry, shape (evictList c) !! e = Some (Some entry) ->
      parseFields t tagKey = inl (value entry).

Lemma Inv_frame c c' : frame c c' -> Inv c -> Inv c'.
Proof.
  intros (Hs & Hf & Hc) HI t e Hm. destruct (HI t e (Hc _ _ Hm)) as [Hlt Hv].
  rewrite Hf, Hs. split; [exact Hlt|exact Hv].
Qed.

Lemma Inv_new size : Inv (newFieldCache size).
Proof. intros t e H. discriminate H. Qed.

Lemma entryOf_shape (l : List) e entry :
  match nodes l !! e with Some el => Value el | None => None end = Some entry ->
  shape l !! e = Some (Some entry).
Proof.
  unfold shape. rewrite lookup_fmap. destruct (nodes l !! e); cbn; congruence.
Qed.

Lemma getFieldsInfo_Inv t now c r c' sp :
  Inv c -> getFieldsInfo parseFields t tagKey now c = Some (r, c', sp) ->
  Inv c' /\ (type_is_struct t = true -> forall fs, r = Ok fs -> parseFields t tagKey = inl fs).
Proof.
  intros HI. unfold getFieldsInfo. cbv zeta.
  destruct (type_is_struct t) eqn:Hs; cbn [negb];
    [|intros [= <- <- <-]; split; [exact HI|discriminate]].
  destruct (mlookup t (cache c)) as [e0|] eqn:Hm; cbn [mbind option_bind];
    [destruct (nodes (evictList c) !! e0) as [el|] eqn:Hel; cbn [mbind option_bind];
     [destruct (Value el) as [entry|] eqn:Hv; cbn [mbind option_bind]|]|].
  1: { intros [= <- <- <-]. split.
       - apply (Inv_frame c); [|exact HI].
         split; [reflexivity|split; [reflexivity|intros ? ? H; exact H]].
       - intros _ fs [= <-]. destruct (HI t e0 Hm) as [_ Hv'].
         apply Hv'. unfold shape. rewrite lookup_fmap, Hel. cbn. rewrite Hv. reflexivity. }
  all: destruct (parseFields t tagKey) as [fields|err] eqn:Hp; cbn [mbind option_bind];
    [|intros [= <- <- <-]; split; [exact HI|discriminate]].
  all: destruct (if 0 <? maxSize c then evictForInsert (S (len (evictList c))) c else Some c)
         as [c1|] eqn:Hc1; cbn [mbind option_bind]; [|discriminate].
  all: assert (Hfr : frame c c1) by
         (destruct (0 <? maxSize c); [exact (evictForInsert_frame _ _ _ Hc1)|injection Hc1 as <-; apply frame_refl]).
  all: pose proof (Inv_frame _ _ Hfr HI) as HI1.
  all: destruct (PushFront _ _ _) as [l|] eqn:Hl; cbn [mbind option_bind]; [|discriminate].
  all: apply PushFront_shape in Hl.
  all: intros [= <- <- <-]; split; [|intros _ fs [= Hfs]; subst; first [exact Hp|reflexivity]].
  all: intros t' e' Hm'; cbn [cache fresh evictList] in *; unfold minsert in Hm'; cbn [mlookup] in Hm'.
  all: destruct (rtype_eqb t' t) eqn:Et.
  all: try (injection Hm' as <-; split; [lia|];
            intros entry'; rewrite Hl, lookup_insert_eq; intros [= <-];
            apply rtype_eqb_true in Et; subst t'; exact Hp).
  all: apply mlookup_mdelete in Hm'; destruct (HI1 t' e' Hm') as [Hlt Hv'];
       split; [lia|]; intros entry'; rewrite Hl, lookup_insert_ne by lia; exact (Hv' entry').
Qed.

Lemma run_Inv ops c pend c' pend' :
  Inv c -> run parseFields tagKey ops c pend = Some (c', pend') -> Inv c'.
Proof.
  revert c pend. induction ops as [|o ops IH]; intros c pend HI; cbn [run].
  - intros [= <- _]. exact HI.
  - destruct o as [t now|e|size|].
    + destruct (getFieldsInfo parseFields t tagKey now c) as [[[r c1] sp]|] eqn:E;
        cbn [mbind option_bind]; [|discriminate].
      apply (IH c1). exact (proj1 (getFieldsInfo_Inv _ _ _ _ _ _ HI E)).
    + destruct (MoveToFront (evictList c) e) as [l|] eqn:E; cbn [mbind option_bind]; [|discriminate].
      apply IH. apply (Inv_frame c); [|exact HI].
      split; [exact (MoveToFront_shape _ _ _ E)|split; [reflexivity|intros ? ? H; exact H]].
    + destruct (SetMaxSize size c) as [c1|] eqn:E; cbn [mbind option_bind]; [|discriminate].
      apply IH. exact (Inv_frame _ _ (SetMaxSize_frame _ _ _ E) HI).
    + destruct (Clear c) as [c1|] eqn:E; cbn [mbind option_bind]; [|discriminate].
      apply IH. exact (Inv_frame _ _ (Clear_frame _ _ E) HI).
Qed.


End Consistency.

(** After a successful lookup of a struct type, the index maps the type
    to an element holding the returned fields. *)
Lemma getFieldsInfo_cached parseFields t tagKey now c fs c' sp :
  type_is_struct t = true ->
  getFieldsInfo parseFields t tagKey now c = Some (Ok fs, c', sp) ->
  exists e el entry, mlookup t (cache c') = Some e /\
    nodes (evictList c') !! e = Some el /\ Value el = Some entry /\ value entry = fs.
Proof.
  intros Hs. unfold getFieldsInfo. cbv zeta. rewrite Hs. cbn [negb].
  destruct (mlookup t (cache c)) as [e0|] eqn:Hm; cbn [mbind option_bind];
    [destruct (nodes (evictList c) !! e0) as [el|] eqn:Hel; cbn [mbind option_bind];
     [destruct (Value el) as [entry|] eqn:Hv; cbn [mbind option_bind]|]|].
  1: { intros [= <- <- <-]. exists e0, el, entry. cbn. auto. }
  all: destruct (parseFields t tagKey) as [fields|err]; cbn [mbind option_bind];
    [|discriminate].
  all: destruct (if 0 <? maxSize c then evictForInsert (S (len (evictList c))) c else Some c)
         as [c1|]; cbn [mbind option_bind]; [|discriminate].
  all: destruct (PushFront _ _ _) as [l|] eqn:Hl; cbn [mbind option_bind]; [|discriminate].
  all: apply PushFront_value in Hl as [_ (el' & Hel' & Hv')].
  all: intros [= Hf <- <-]; subst fields.
  all: exists (fresh c1), el', {| createdAt := now; value := fs |}; cbn [cache evictList]; unfold minsert; cbn [mlookup];
       rewrite rtype_eqb_refl; split; [reflexivity|split; [exact Hel'|split; [exact Hv'|reflexivity]]].
Qed.

(** X5: whatever the sequence of lookups, delayed promotions, [Clear]
    and [SetMaxSize] calls since the cache was created, a lookup of a
    struct type with the same tag key returns the fields the resolver
    gives for that type. *)
Theorem cache_returns_resolver_fields
    (parseFields : rtype -> string -> list fieldInfo + goerr) (tagKey : string)
    (size : Z) (ops : list op) (c : fieldCache) (pend : list nat)
    (t : rtype) (now : Z) (fs : list fieldInfo) (c' : fieldCache) (sp : option nat) :
  run parseFields tagKey ops (newFieldCache size) [] = Some (c, pend) ->
  type_is_struct t = true ->
  getFieldsInfo parseFields t tagKey now c = Some (Ok fs, c', sp) ->
  parseFields t tagKey = inl fs.
Proof.
  intros Hrun Hs Hget.
  pose proof (run_Inv parseFields tagKey _ _ _ _ _ (Inv_new _ _ size) Hrun) as HI.
  exact (proj2 (getFieldsInfo_Inv _ _ _ _ _ _ _ _ HI Hget) Hs fs eq_refl).
Qed.

(** The race trace of the capacity-1 cache, then a lookup of [t1]. *)
Lemma cache_returns_resolver_fields_witness :
  exists c pend c' sp,
    run parseFix "groups" clearRaceTrace (newFieldCache 1) [] = Some (c, pend) /\
    getFieldsInfo parseFix t1 "groups" 4 c = Some (Ok (fieldsFix t1), c', sp) /\
    parseFix t1 "groups" = inl (fieldsFix t1).
Proof.
  destruct (run parseFix "groups" clearRaceTrace (newFieldCache 1) []) as [[c pend]|] eqn:E1;
    [|vm_compute in E1; discriminate].
  destruct (getFieldsInfo parseFix t1 "groups" 4 c) as [[[r c'] sp]|] eqn:E2.
  2: { vm_compute in E1. injection E1 as <- <-. vm_compute in E2. discriminate. }
  assert (Hr : r = Ok (fieldsFix t1)).
  { vm_compute in E1. injection E1 as <- <-. vm_compute in E2. injection E2 as <- _ _.
    reflexivity. }
  subst r. exists c, pend, c', sp. split; [reflexivity|]. split; [exact E2|].
  exact (cache_returns_resolver_fields parseFix "groups" 1 clearRaceTrace c pend t1 4
           _ c' sp E1 eq_refl E2).
Defined.

(** X6: the cache is keyed by type only.  After a lookup of a struct
    type returns [fs], the next lookup of that type is a hit returning
    [fs], whatever tag key (and resolver) it is called with. *)
Theorem cache_ignores_tagKey
    (parseFields parseFields' : rtype -> string -> list fieldInfo + goerr)
    (t : rtype) (tagKey tagKey' : string) (now now' : Z) (c : fieldCache)
    (fs : list fieldInfo) (c1 : fieldCache) (sp : option nat) :
  type_is_struct t = true ->
  getFieldsInfo parseFields t tagKey now c = Some (Ok fs, c1, sp) ->
  exists c2 e, getFieldsInfo parseFields' t tagKey' now' c1 = Some (Ok fs, c2, Some e).
Proof.
  intros Hs Hget.
  destruct (getFieldsInfo_cached _ _ _ _ _ _ _ _ Hs Hget)
    as (e & el & entry & Hm & Hel & Hv & <-).
  unfold getFieldsInfo. rewrite Hs. cbn [negb]. rewrite Hm. cbn [mbind option_bind].
  rewrite Hel, Hv. cbn. eexists _, _. reflexivity.
Qed.

(** A lookup with tag key ["groups"], then one with ["roles"]: the second
    returns the groups parsed for ["groups"]. *)
Lemma cache_ignores_tagKey_witness :
  exists c1 c2 e fs,
    getFieldsInfo parseByTag t1 "groups" 0 (newFieldCache 10) = Some (Ok fs, c1, None) /\
    getFieldsInfo parseByTag t1 "roles" 1 c1 = Some (Ok fs, c2, Some e) /\
    parseByTag t1 "roles" <> inl fs.
Proof.
  destruct (getFieldsInfo parseByTag t1 "groups" 0 (newFieldCache 10)) as [[[r c1] sp]|] eqn:E;
    [|vm_compute in E; discriminate].
  assert (Hr : r = Ok [fld 1 "F" "f" ["groups"] false false] /\ sp = None)
    by (vm_compute in E; injection E as <- _ <-; split; reflexivity).
  destruct Hr as [-> ->].
  destruct (cache_ignores_tagKey parseByTag parseByTag t1 "groups" "roles" 0 1
              (newFieldCache 10) _ c1 None eq_refl E) as (c2 & e & H).
  exists c1, c2, e, [fld 1 "F" "f" ["groups"] false false].
  split; [reflexivity|]. split; [exact H|].
  vm_compute. congruence.
Defined.

End CacheInv.

(* ================================================================== *)
(** * Output maps, slices and options of the entry points *)

Module OutputFacts.

Section Keys.

Variable opts : Options.
Variable h : heap.
Variable groups : list string.
Variable mode : GroupMode.

Definition isNilPtr (v : val) : bool :=
  match v with VPtr None => true | _ => false end.

(** A field whose key [structToMap] may write: it passes the group
    filter, is not a nil pointer dropped by [IgnoreNilPointers], and is
    not omitted by [omitempty] / [omitzero] (which [NullIfEmpty]
    overrides). *)
Definition fieldMayEmit (field : fieldInfo) (fv : val) : Prop :=
  shouldIncludeField field mode groups = true /\
  ~ (fv = VPtr None /\ IgnoreNilPointers opts = true) /\
  (NullIfEmpty opts = true \/
   (~ (OmitEmpty field = true /\ (fv = VPtr None \/ isEmptyValue h fv = Some true)) /\
    ~ (OmitZero field = true /\ isZeroValue fv = true))).

(** The keys a struct's fields may produce, embedded structs flattened. *)
Inductive keyFrom : list (fieldInfo * val) -> string -> Prop :=
| keyFrom_field fs field fv :
    In (field, fv) fs -> fieldMayEmit field fv ->
    ~ (Anonymous field = true /\ exists fs', fv = VStruct fs') ->
    keyFrom fs (JSONName field)
| keyFrom_embedded fs field fs' k :
    In (field, VStruct fs') fs -> shouldIncludeField field mode groups = true ->
    Anonymous field = true -> keyFrom fs' k -> keyFrom fs k.

Lemma keyFrom_weaken fs fs' k :
  keyFrom fs k -> (forall p, In p fs -> In p fs') -> keyFrom fs' k.
Proof.
  intros H Hs. destruct H as [fs field fv Hin Hm Ha|fs field fs'' k Hin Hi Ha Hk].
  - eapply keyFrom_field; eauto.
  - eapply keyFrom_embedded; eauto.
Qed.

Lemma set_key_keys k x m k' :
  In k' (map fst (set_key k x m)) -> k' = k \/ In k' (map fst m).
Proof.
  induction m as [|[k0 y] m IH]; cbn; [intuition|].
  destruct (String.eqb k k0) eqn:E; cbn.
  - intros [<-|H]; [left; reflexivity|right; right; exact H].
  - intros [<-|H]; [right; left; reflexivity|]. destruct (IH H); tauto.
Qed.

Lemma fold_set_key_keys (e m : list (string * ir)) k' :
  In k' (map fst (fold_left (fun m kv => set_key kv.1 kv.2 m) e m)) ->
  In k' (map fst e) \/ In k' (map fst m).
Proof.
  revert m. induction e as [|[k x] e IH]; intros m; cbn; [tauto|].
  intros H. destruct (IH _ H) as [H'|H']; [tauto|].
  apply set_key_keys in H' as [->|H']; tauto.
Qed.

Lemma plain_emit field fv empty :
  shouldIncludeField field mode groups = true ->
  isEmptyValue h fv = Some empty ->
  (isNilPtr fv && IgnoreNilPointers opts) = false ->
  ((OmitEmpty field && (isNilPtr fv || empty) && negb (NullIfEmpty opts)) ||
   (OmitZero field && isZeroValue fv && negb (NullIfEmpty opts))) = false ->
  fieldMayEmit field fv.
Proof.
  intros Hi He Hn Ho. split; [exact Hi|]. split.
  - intros [-> HI]. cbn in Hn. rewrite HI in Hn. discriminate.
  - destruct (NullIfEmpty opts); [left; reflexivity|right].
    rewrite !andb_true_r in Ho. apply orb_false_iff in Ho as [Ho1 Ho2].
    split.
    + intros [HO [->|HE]]; rewrite HO in Ho1; cbn in Ho1; [discriminate|].
      rewrite He in HE. injection HE as ->. rewrite orb_true_r in Ho1. discriminate.
    + intros [HO HZ]. rewrite HO, HZ in Ho2. discriminate.
Qed.


Section StructKeys.

Variable rec : serializeContext -> pointers -> val -> outcome ir.
Variable emb : serializeContext -> pointers -> val -> outcome (list (string * ir)).

Lemma structFields_keys ctx fs :
  forall st result m st',
  (forall field fs' ctx' st0 m0 st0', In (field, VStruct fs') fs ->
     emb ctx' st0 (VStruct fs') = ROk m0 st0' ->
     forall k, In k (map fst m0) -> keyFrom fs' k) ->
  structFields opts h groups mode rec emb ctx st result fs = ROk m st' ->
  forall k, In k (map fst m) -> In k (map fst result) \/ keyFrom fs k.
Proof.
  induction fs as [|[field fv] fs IH]; intros st result m st' Hemb H k Hk.
  { cbn in H. injection H as -> ->. left; exact Hk. }
  assert (Hemb' : forall field' fs' ctx' st0 m0 st0', In (field', VStruct fs') fs ->
     emb ctx' st0 (VStruct fs') = ROk m0 st0' ->
     forall k, In k (map fst m0) -> keyFrom fs' k).
  { intros until 1. apply (Hemb field' fs' ctx' st0 m0 st0'). right; exact H0. }
  assert (Hw : forall k, keyFrom fs k -> keyFrom ((field, fv) :: fs) k).
  { intros k' Hk'. apply (keyFrom_weaken _ _ _ Hk'). intros p Hp; right; exact Hp. }
  assert (Hcont : forall st0 r, structFields opts h groups mode rec emb ctx st0 r fs = ROk m st' ->
            In k (map fst r) \/ keyFrom ((field, fv) :: fs) k).
  { intros st0 r Hr. destruct (IH _ _ _ _ Hemb' Hr k Hk) as [H'|H']; [left; exact H'|].
    right; apply Hw; exact H'. }
  assert (Hplain : fieldMayEmit field fv ->
            ~ (Anonymous field = true /\ exists fs', fv = VStruct fs') ->
            forall st0 x, structFields opts h groups mode rec emb ctx st0
                            (set_key (JSONName field) x result) fs = ROk m st' ->
            In k (map fst result) \/ keyFrom ((field, fv) :: fs) k).
  { intros Hm Ha st0 x Hr. destruct (Hcont _ _ Hr) as [H'|H']; [|right; exact H'].
    apply set_key_keys in H' as [->|H']; [|left; exact H'].
    right. eapply keyFrom_field; [left; reflexivity|exact Hm|exact Ha]. }
  cbn [structFields] in H. cbv zeta in H.
  destruct (shouldIncludeField field mode groups) eqn:Hinc; cbn [negb] in H;
    [|apply (Hcont _ _ H)].
  assert (Hp : ~ (Anonymous field = true /\ (exists fs', fv = VStruct fs')) ->
    (if (match fv with VPtr None => true | _ => false end) && IgnoreNilPointers opts
     then structFields opts h groups mode rec emb ctx st result fs
     else match isEmptyValue h fv with
          | None => RPanic fault
          | Some empty =>
            if (OmitEmpty field && ((match fv with VPtr None => true | _ => false end) || empty) && negb (NullIfEmpty opts)) ||
               (OmitZero field && isZeroValue fv && negb (NullIfEmpty opts))
            then structFields opts h groups mode rec emb ctx st result fs
            else if ((match fv with VPtr None => true | _ => false end) || empty) && NullIfEmpty opts
            then structFields opts h groups mode rec emb ctx st
                   (set_key (JSONName field) IRNull result) fs
            else
            match rec (withPath ctx (Name field)) st fv with
            | ROk x st' =>
                if negb (is_nil x)
                then structFields opts h groups mode rec emb ctx st' (set_key (JSONName field) x result) fs
                else if NullIfEmpty opts
                then structFields opts h groups mode rec emb ctx st' (set_key (JSONName field) IRNull result) fs
                else structFields opts h groups mode rec emb ctx st' result fs
            | RErr e st' =>
                if String.eqb (Error e) "skip_field"
                then structFields opts h groups mode rec emb ctx st' result fs
                else RErr e st'
            | RPanic p => RPanic p
            | ROutOfFuel => ROutOfFuel
            end
          end) = ROk m st' ->
    In k (map fst result) \/ keyFrom ((field, fv) :: fs) k).
  { intros Ha Hr.
    destruct (_ && IgnoreNilPointers opts) eqn:Hnil; [apply (Hcont _ _ Hr)|].
    destruct (isEmptyValue h fv) as [empty|] eqn:He; [|discriminate].
    destruct (_ || _) eqn:Ho; [apply (Hcont _ _ Hr)|].
    assert (Hm : fieldMayEmit field fv) by (eapply plain_emit; eassumption).
    destruct (_ && NullIfEmpty opts); [apply (Hplain Hm Ha _ _ Hr)|].
    destruct (rec _ st fv) as [x st0|e st0|p|]; try discriminate.
    - destruct (negb (is_nil x)); [apply (Hplain Hm Ha _ _ Hr)|].
      destruct (NullIfEmpty opts); [apply (Hplain Hm Ha _ _ Hr)|apply (Hcont _ _ Hr)].
    - destruct (String.eqb _ _); [apply (Hcont _ _ Hr)|discriminate]. }
  destruct fv as [| | | | | | | |fs'| | | | |]; try (apply Hp; [intros [_ [? [=]]]|exact H]).
  destruct (Anonymous field) eqn:Han; [|apply Hp; [intros [[=] _]|exact H]].
  destruct (emb _ st _) as [x st0|e st0|p|] eqn:Hx; try discriminate.
  destruct (Hcont _ _ H) as [H'|H']; [|right; exact H'].
  apply fold_set_key_keys in H' as [H'|H']; [|left; exact H'].
  right. eapply keyFrom_embedded; [left; reflexivity|exact Hinc|exact Han|].
  eapply (Hemb field fs'); [left; reflexivity|exact Hx|exact H'].
Qed.

End StructKeys.

Lemma structEmbedded_keys rec v :
  forall fs ctx st m st', v = VStruct fs ->
  structEmbedded opts h groups mode rec ctx st v = ROk m st' ->
  forall k, In k (map fst m) -> keyFrom fs k.
Proof.
  induction v using val_nested_ind; intros fs0 ctx st m st' Heq; try discriminate.
  injection Heq as <-. intros Hr k Hk. cbn [structEmbedded] in Hr.
  destruct (structFields_keys rec (structEmbedded opts h groups mode rec) ctx fs st [] m st') with (k := k) as [[]|Hk']; try assumption.
  intros field fs' ctx' st0 m0 st0' Hin He k' Hk'.
  rewrite List.Forall_forall in H. apply (H _ Hin fs' ctx' st0 m0 st0' eq_refl He k' Hk').
Qed.

Lemma recoverAt_ok {A} p (o : outcome A) a st :
  recoverAt p o = ROk a st -> o = ROk a st.
Proof. destruct o as [| |[]|]; cbn; congruence. Qed.

Lemma struct_is_map fuel ctx st fs r st' :
  valueToMap opts h groups mode fuel ctx st (VStruct fs) = ROk r st' ->
  exists m, r = IRMap m.
Proof.
  destruct fuel as [|fuel]; [discriminate|]. cbn [valueToMap].
  intros H%recoverAt_ok. unfold valueToMap_body in H.
  destruct (depthExceeded _ _); [discriminate|].
  cbn [dispatch] in H. unfold structToMap in H.
  destruct (structFields _ _ _ _ _ _ _ _ _ _) as [m0 st0| | |]; try discriminate.
  injection H as <- _. eexists; reflexivity.
Qed.

(** The keys of the map [valueToMap] builds for a struct. *)
Lemma struct_keys_from_fields fuel ctx st fs m st' :
  valueToMap opts h groups mode fuel ctx st (VStruct fs) = ROk (IRMap m) st' ->
  forall k, In k (map fst m) -> keyFrom fs k.
Proof.
  destruct fuel as [|fuel]; [discriminate|]. cbn [valueToMap].
  intros H%recoverAt_ok. unfold valueToMap_body in H.
  destruct (depthExceeded _ _); [discriminate|].
  cbn [dispatch] in H. unfold structToMap in H.
  destruct (structFields _ _ _ _ _ _ _ _ _ _) as [m0 st0| | |] eqn:E; try discriminate.
  injection H as <- <-. intros k Hk.
  destruct (structFields_keys (valueToMap opts h groups mode fuel)
             (structEmbedded opts h groups mode (valueToMap opts h groups mode fuel))
             {| path := path ctx; depth := depth ctx + 1 |} fs st [] m0 st0) with (k := k) as [[]|Hk']; try assumption.
  intros field fs' ctx' st1 m1 st1' _ He k' Hk'.
  exact (structEmbedded_keys _ (VStruct fs') fs' ctx' st1 m1 st1' eq_refl He k' Hk').
Qed.

Lemma sliceElems_length rec ctx xs :
  forall st i result l st',
  sliceElems opts rec ctx st i result xs = ROk l st' ->
  (length result <= length l <= length result + length xs)%nat /\
  (NullIfEmpty opts = true -> length l = (length result + length xs)%nat).
Proof.
  induction xs as [|x xs IH]; intros st i result l st' H; cbn [sliceElems] in H.
  { injection H as <- <-. cbn. split; [lia|intros _; lia]. }
  destruct (rec _ st x) as [y st0| | |]; try discriminate.
  destruct (negb (is_nil y) || NullIfEmpty opts) eqn:Hk;
    apply IH in H as [H1 H2].
  - rewrite length_app in H1, H2. cbn in *. split; [lia|]. intros Hn.
    specialize (H2 Hn). lia.
  - cbn in *. split; [lia|]. intros Hn. rewrite Hn, orb_true_r in Hk. discriminate.
Qed.



End Keys.

Lemma recoverRoot_ok {A} (r : result A) a : recoverRoot r = Ok a -> r = Ok a.
Proof. destruct r as [| |[]|]; cbn; congruence. Qed.

(** X7: every key of the map [MarshalToMapWithOptions] returns for a struct
    is the JSON name of one of its fields that passes the group filter and
    is not dropped as a nil pointer or by omitempty / omitzero (unless
    NullIfEmpty is on), possibly reached through anonymous struct fields
    that pass the group filter. *)
Theorem MarshalToMap_struct_keys fuel h fs opts groups m :
  MarshalToMapWithOptions fuel h (Some (VStruct fs)) opts groups = Ok (Some m) ->
  forall k, In k (map fst m) -> keyFrom opts h groups (GroupModeOpt opts) fs k.
Proof.
  unfold MarshalToMapWithOptions. intros H%recoverRoot_ok.
  destruct (valueToMap _ _ _ _ _ _ _ _) as [r st'| | |] eqn:E; try discriminate.
  destruct (struct_is_map _ _ _ _ _ _ _ _ _ _ E) as [m0 ->].
  injection H as <-. exact (struct_keys_from_fields _ _ _ _ _ _ _ _ _ _ E).
Qed.

Lemma MarshalToMap_struct_keys_witness :
  MarshalToMapWithOptions 10 ∅ (Some (VStruct profileFields)) readmeOpts ["public"]
    = Ok (Some [("id", IRInt 7)]) /\
  keyFrom readmeOpts ∅ ["public"] (GroupModeOpt readmeOpts) profileFields "id".
Proof.
  split; [vm_compute; reflexivity|].
  apply (MarshalToMap_struct_keys 10 ∅ profileFields readmeOpts ["public"]
           [("id", IRInt 7)]); [vm_compute; reflexivity|left; reflexivity].
Defined.

(** X8: a slice or array [valueToMap] turns into a list has at most as
    many elements as it holds, and exactly as many under NullIfEmpty. *)
Theorem slice_output_length opts h groups mode fuel ctx st v xs l st' :
  (v = VArray xs \/ exists p, v = VSlice p /\ slice_elems h p = Some xs) ->
  valueToMap opts h groups mode fuel ctx st v = ROk (IRSeq l) st' ->
  (length l <= length xs)%nat /\
  (NullIfEmpty opts = true -> length l = length xs).
Proof.
  intros Hv. destruct fuel as [|fuel]; [discriminate|]. cbn [valueToMap].
  intros H%recoverAt_ok. unfold valueToMap_body in H.
  assert (Hs : forall st0, sliceToSlice opts
                 (valueToMap opts h groups mode fuel)
                 {| path := path ctx; depth := depth ctx + 1 |} st0 xs = ROk (IRSeq l) st' ->
               (length l <= length xs)%nat /\
               (NullIfEmpty opts = true -> length l = length xs)).
  { intros st0 Hr. unfold sliceToSlice in Hr.
    destruct (sliceElems _ _ _ _ _ _ _) as [l1 st1| | |] eqn:E; try discriminate.
    injection Hr as <- <-. apply (sliceElems_length opts) in E as [E1 E2]. cbn in E1, E2.
    split; [lia|exact E2]. }
  destruct Hv as [->|[p [-> Hp]]].
  - destruct (depthExceeded _ _); [discriminate|]. cbn [dispatch] in H.
    destruct xs as [|x xs'].
    + destruct (NullIfEmpty opts); [discriminate|]. injection H as <- <-. cbn. lia.
    + exact (Hs _ H).
  - destruct (depthExceeded _ _).
    + unfold Len in H. rewrite Hp in H. cbn in H.
      destruct (length xs) eqn:Hl; [|discriminate].
      destruct (NullIfEmpty opts); [discriminate|]. injection H as <- <-. cbn. lia.
    + destruct (checkPointer _ _ _ _ _) as [[] st0| | |]; try discriminate.
      cbn [dispatch] in H. rewrite Hp in H. destruct xs as [|x xs'].
      * destruct (NullIfEmpty opts); [destruct (ptr_is_nil p)|]; try discriminate;
        injection H as <- <-; cbn; split; try lia; intros; lia.
      * exact (Hs _ H).
Qed.

Lemma slice_output_length_witness :
  exists st', valueToMap (withNullIfEmpty readmeOpts) nilElemHeap [] GroupModeOr 5
                newContext ∅ (VSlice (Some 0%nat)) = ROk (IRSeq [IRNull]) st' /\
              length [IRNull] = length [VPtr None].
Proof.
  destruct (valueToMap (withNullIfEmpty readmeOpts) nilElemHeap [] GroupModeOr 5
              newContext ∅ (VSlice (Some 0%nat))) as [a st'| | |] eqn:E;
    pose proof E as E'; vm_compute in E'; try discriminate.
  injection E' as Ea _. subst a. exists st'. split; [reflexivity|].
  apply (slice_output_length (withNullIfEmpty readmeOpts) nilElemHeap [] GroupModeOr 5
           newContext ∅ (VSlice (Some 0%nat)) [VPtr None] [IRNull] st');
    [right; exists (Some 0%nat); split; reflexivity|exact E|reflexivity].
Defined.




Lemma set_key_keeps k x m k' :
  In k' (map fst m) -> In k' (map fst (set_key k x m)).
Proof.
  induction m as [|[k0 y] m IH]; cbn; [tauto|].
  destruct (String.eqb_spec k k0) as [->|]; cbn; [tauto|].
  intros [<-|H]; [left; reflexivity|right; exact (IH H)].
Qed.

Lemma set_key_has k x m : In k (map fst (set_key k x m)).
Proof.
  induction m as [|[k0 y] m IH]; cbn; [left; reflexivity|].
  destruct (String.eqb_spec k k0) as [->|]; cbn; [left; reflexivity|right; exact IH].
Qed.

(** The loop of [mapToMap] writes the keys of the entries it visits and,
    under NullIfEmpty, every one of them. *)
Lemma mapEntries_keys opts rec ctx kvs :
  forall st result m st',
  mapEntries opts rec ctx st result kvs = ROk m st' ->
  (forall k, In k (map fst m) -> In k (map fst result) \/ In k (map (fun kv => keyString kv.1) kvs)) /\
  (NullIfEmpty opts = true ->
   forall k, In k (map fst result) \/ In k (map (fun kv => keyString kv.1) kvs) -> In k (map fst m)).
Proof.
  induction kvs as [|[key x] kvs IH]; intros st result m st' H; cbn [mapEntries] in H.
  { injection H as <- <-. cbn. split; [tauto|intros _ k [Hk|[]]; exact Hk]. }
  destruct (rec _ st x) as [y st0| | |]; try discriminate.
  apply IH in H as [H1 H2]. cbn [map]. split.
  - intros k Hk. destruct (H1 k Hk) as [Hr|Hr]; [|right; right; exact Hr].
    destruct (negb (is_nil y) || NullIfEmpty opts); [|left; exact Hr].
    apply set_key_keys in Hr as [->|Hr]; [right; left; reflexivity|left; exact Hr].
  - intros Hn k Hk. apply H2; [exact Hn|]. rewrite Hn, orb_true_r.
    destruct Hk as [Hk|[<-|Hk]].
    + left. apply set_key_keeps. exact Hk.
    + left. apply set_key_has.
    + right. exact Hk.
Qed.

Lemma set_key_nodup k x m : NoDup (map fst m) -> NoDup (map fst (set_key k x m)).
Proof.
  induction m as [|[k0 y] m IH]; cbn; [intros _; apply NoDup_singleton|].
  intros Hnd. apply NoDup_cons in Hnd as [Hn Hnd].
  destruct (String.eqb_spec k k0) as [->|Hne]; cbn; apply NoDup_cons;
    (split; [|exact Hnd || exact (IH Hnd)]); [exact Hn|].
  rewrite list_elem_of_In. intros Hin.
  apply set_key_keys in Hin as [->|Hin]; [exact (Hne eq_refl)|].
  apply Hn, list_elem_of_In, Hin.
Qed.

Lemma set_key_in k x m : In (k, x) (set_key k x m).
Proof.
  induction m as [|[k0 y] m IH]; cbn; [left; reflexivity|].
  destruct (String.eqb k k0); [left; reflexivity|right; exact IH].
Qed.

Lemma set_key_other k x m k' y : k' <> k -> In (k', y) m -> In (k', y) (set_key k x m).
Proof.
  intros Hne. induction m as [|[k0 y0] m IH]; cbn; [tauto|].
  destruct (String.eqb_spec k k0) as [->|]; cbn.
  - intros [[= -> ->]|H]; [exact (False_ind _ (Hne eq_refl))|right; exact H].
  - intros [H|H]; [left; exact H|right; exact (IH H)].
Qed.

(** The loop of [mapToMap] keeps a result map without duplicate keys. *)
Lemma mapEntries_nodup opts rec ctx kvs :
  forall st result m st',
  mapEntries opts rec ctx st result kvs = ROk m st' ->
  NoDup (map fst result) -> NoDup (map fst m).
Proof.
  induction kvs as [|[key x] kvs IH]; intros st result m st' H Hnd; cbn [mapEntries] in H.
  { injection H as <- <-. exact Hnd. }
  destruct (rec _ st x) as [y st0| | |]; try discriminate.
  apply (IH _ _ _ _ H). destruct (_ || _); [apply set_key_nodup|]; exact Hnd.
Qed.

(** An entry of the result map that no later map entry writes over stays. *)
Lemma mapEntries_keep opts rec ctx kvs k y :
  Forall (fun kv => keyString kv.1 <> k) kvs ->
  forall st result m st',
  mapEntries opts rec ctx st result kvs = ROk m st' ->
  In (k, y) result -> In (k, y) m.
Proof.
  induction kvs as [|[key x] kvs IH]; intros Hf st result m st' H Hin; cbn [mapEntries] in H.
  { injection H as <- <-. exact Hin. }
  apply Forall_cons in Hf as [Hk Hf]. cbn in Hk.
  destruct (rec _ st x) as [y0 st0| | |]; try discriminate.
  apply (IH Hf _ _ _ _ H). destruct (_ || _); [|exact Hin].
  apply set_key_other; [congruence|exact Hin].
Qed.

(** Under NullIfEmpty an entry rendered as nil is written as null and
    stays unless a later entry has the same key text. *)
Lemma mapEntries_null opts rec ctx pre key x post :
  NullIfEmpty opts = true ->
  (forall c s y s', rec c s x = ROk y s' -> y = IRNull) ->
  Forall (fun kv => keyString kv.1 <> keyString key) post ->
  forall st result m st',
  mapEntries opts rec ctx st result (pre ++ (key, x) :: post) = ROk m st' ->
  In (keyString key, IRNull) m.
Proof.
  intros Hn Hx Hf. induction pre as [|[k0 x0] pre IH]; intros st result m st' H;
    cbn [app mapEntries] in H.
  - destruct (rec _ st x) as [y st0| | |] eqn:Hr; try discriminate.
    apply Hx in Hr as ->. rewrite Hn, orb_true_r in H.
    apply (mapEntries_keep _ _ _ _ _ _ Hf _ _ _ _ H). apply set_key_in.
  - destruct (rec _ st x0) as [y st0| | |]; try discriminate. exact (IH _ _ _ _ H).
Qed.

(** A nil interface, or a nil pointer with IgnoreNilPointers off, is
    rendered as nil. *)
Lemma nil_renders_null opts h groups mode fuel c s x y s' :
  x = VIface None \/ (x = VPtr None /\ IgnoreNilPointers opts = false) ->
  valueToMap opts h groups mode fuel c s x = ROk y s' -> y = IRNull.
Proof.
  intros Hx. destruct fuel as [|fuel]; [discriminate|]. cbn [valueToMap].
  intros H%recoverAt_ok. unfold valueToMap_body in H.
  destruct Hx as [->|[-> Hi]]; [|rewrite Hi in H]; congruence.
Qed.

(** X11: the map [valueToMap] builds for a Go map has no duplicate key,
    and every key is the key text of one of its entries.  Under
    NullIfEmpty every entry's key text appears, and an entry whose value
    is a nil interface, or a nil pointer with IgnoreNilPointers off, is
    kept as null, provided no later entry (in iteration order) has the
    same key text: when two keys print the same text, the later write
    replaces the earlier one. *)
Theorem map_output_keys opts h groups mode fuel ctx st p kvs m st' :
  map_entries h p = Some kvs ->
  valueToMap opts h groups mode fuel ctx st (VMap p) = ROk (IRMap m) st' ->
  NoDup (map fst m) /\
  (forall k, In k (map fst m) -> In k (map (fun kv => keyString kv.1) kvs)) /\
  (NullIfEmpty opts = true ->
   (forall k, In k (map (fun kv => keyString kv.1) kvs) -> In k (map fst m)) /\
   (forall pre key x post, kvs = pre ++ (key, x) :: post ->
    (x = VIface None \/ (x = VPtr None /\ IgnoreNilPointers opts = false)) ->
    Forall (fun kv => keyString kv.1 <> keyString key) post ->
    In (keyString key, IRNull) m)).
Proof.
  intros Hp. destruct fuel as [|fuel]; [discriminate|]. cbn [valueToMap].
  intros H%recoverAt_ok. unfold valueToMap_body in H.
  destruct (depthExceeded _ _).
  - unfold Len in H. rewrite Hp in H. cbn in H.
    destruct kvs as [|kv kvs]; cbn in H; [|discriminate].
    destruct (NullIfEmpty opts); [discriminate|]. injection H as <- <-.
    cbn. split; [constructor|split; [tauto|discriminate]].
  - destruct (checkPointer _ _ _ _ _) as [[] st0| | |]; try discriminate.
    cbn [dispatch] in H. rewrite Hp in H.
    destruct (Nat.eqb (length kvs) 0 && NullIfEmpty opts) eqn:Hz; [discriminate|].
    unfold mapToMap in H.
    destruct (mapEntries _ _ _ _ _ _) as [m0 st1| | |] eqn:E; try discriminate.
    injection H as <- <-. split; [|split].
    + exact (mapEntries_nodup _ _ _ _ _ _ _ _ E NoDup_nil_2).
    + apply mapEntries_keys in E as [E1 _].
      intros k Hk. destruct (E1 k Hk) as [[]|Hr]. exact Hr.
    + intros Hn. split.
      * apply mapEntries_keys in E as [_ E2].
        intros k Hk. apply E2; [exact Hn|right; exact Hk].
      * intros pre key x post -> Hx Hf.
        refine (mapEntries_null _ _ _ pre key x post Hn _ Hf _ _ _ _ E).
        intros c s y s'. apply nil_renders_null. exact Hx.
Qed.

Lemma map_output_keys_witness :
  exists st', valueToMap (withNullIfEmpty readmeOpts) nilElemHeap [] GroupModeOr 5
                newContext ∅ (VMap (Some 1%nat)) = ROk (IRMap [("k", IRNull)]) st' /\
              In ("k", IRNull) [("k", IRNull)].
Proof.
  destruct (valueToMap (withNullIfEmpty readmeOpts) nilElemHeap [] GroupModeOr 5
              newContext ∅ (VMap (Some 1%nat))) as [a st'| | |] eqn:E;
    pose proof E as E'; vm_compute in E'; try discriminate.
  injection E' as Ea _. subst a. exists st'. split; [reflexivity|].
  destruct (map_output_keys (withNullIfEmpty readmeOpts) nilElemHeap [] GroupModeOr 5
              newContext ∅ (Some 1%nat) [(MKString "k", VPtr None)] [("k", IRNull)] st'
              eq_refl E) as (_ & _ & H3).
  exact (proj2 (H3 eq_refl) [] (MKString "k") (VPtr None) [] eq_refl
           (or_intror (conj eq_refl eq_refl)) (List.Forall_nil _)).
Defined.

End OutputFacts.

(* ================================================================== *)
(** * The length of the LRU list *)

Module CacheLen.
Import Cache CacheFacts CacheInv.

(** [move] and [MoveToFront] relink nodes and keep the length. *)
Lemma move_len l l' e at_ : move l e at_ = Some l' -> len l' = len l.
Proof.
  unfold move. destruct (Nat.eqb e at_); [congruence|].
  repeat shape_step. intros [= <-].
  repeat match goal with H : _ /\ _ |- _ => destruct H end. congruence.
Qed.

Lemma MoveToFront_len l l' e : MoveToFront l e = Some l' -> len l' = len l.
Proof.
  unfold MoveToFront. do 2 shape_step.
  match goal with |- context [if ?b then _ else _] => destruct b end;
    [congruence|apply move_len].
Qed.

Lemma evict_maxSize c c' err : evict c = Some (c', err) -> maxSize c' = maxSize c.
Proof.
  unfold evict. destruct (Nat.eqb _ 0); [congruence|].
  destruct (Back _); [|congruence]. cbn [mbind option_bind].
  destruct (Remove _ _); cbn [mbind option_bind]; [|discriminate].
  destruct (nodes _ !! _); cbn [mbind option_bind]; [|discriminate].
  destruct (Value _); [|intros [= <- _]; reflexivity].
  destruct (List.find _ _) as [[]|]; intros [= <- _]; reflexivity.
Qed.

(** The eviction loop of a miss stops with the list shorter than the
    capacity, or empty. *)
Lemma evictForInsert_exit fuel c c' :
  evictForInsert fuel c = Some c' ->
  maxSize c' = maxSize c /\
  (Z.of_nat (len (evictList c')) < maxSize c' \/ len (evictList c') = 0%nat).
Proof.
  revert c. induction fuel as [|fuel IH]; intros c; cbn [evictForInsert].
  - destruct (_ && _) eqn:Hc; [discriminate|intros [= <-]].
    split; [reflexivity|]. apply andb_false_iff in Hc as [Hc|Hc];
      [apply Z.leb_gt in Hc; left; lia|apply Z.ltb_ge in Hc; right; lia].
  - destruct (_ && _) eqn:Hc.
    + destruct (evict c) as [[c1 err]|] eqn:E; cbn [mbind option_bind]; [|discriminate].
      intros H. apply IH in H as [Hm H]. apply evict_maxSize in E.
      cbn in Hm, H. split; [congruence|exact H].
    + intros [= <-]. split; [reflexivity|]. apply andb_false_iff in Hc as [Hc|Hc];
      [apply Z.leb_gt in Hc; left; lia|apply Z.ltb_ge in Hc; right; lia].
Qed.

(** [remove] unlinks one node: the length drops by one. *)
Lemma remove_len l l' e : remove l e = Some l' -> len l' = Nat.pred (len l).
Proof.
  unfold remove. repeat shape_step. intros [= <-].
  repeat match goal with H : _ /\ _ |- _ => destruct H end. cbn. congruence.
Qed.

Lemma Remove_len l l' e : Remove l e = Some l' -> (len l' <= len l)%nat.
Proof.
  unfold Remove. destruct (nodes l !! e); cbn [mbind option_bind]; [|discriminate].
  destruct (inList e0); [intros H%remove_len; lia|intros [= <-]; lia].
Qed.

(** [evict] never lengthens the list and counts no miss. *)
Lemma evict_len c c' err :
  evict c = Some (c', err) ->
  (len (evictList c') <= len (evictList c))%nat /\ misses c' = misses c.
Proof.
  unfold evict. destruct (Nat.eqb _ 0); [intros [= <- _]; split; [lia|reflexivity]|].
  destruct (Back _); [|intros [= <- _]; split; [lia|reflexivity]]. cbn [mbind option_bind].
  destruct (Remove _ _) eqn:Hr; cbn [mbind option_bind]; [|discriminate].
  apply Remove_len in Hr.
  destruct (nodes _ !! _); cbn [mbind option_bind]; [|discriminate].
  destruct (Value _); [|intros [= <- _]; cbn; split; [exact Hr|reflexivity]].
  destruct (List.find _ _) as [[]|]; intros [= <- _]; cbn; split; [exact Hr|reflexivity|exact Hr|reflexivity].
Qed.

Lemma evictForInsert_len fuel c c' :
  evictForInsert fuel c = Some c' ->
  (len (evictList c') <= len (evictList c))%nat /\ misses c' = misses c.
Proof.
  revert c. induction fuel as [|fuel IH]; intros c; cbn [evictForInsert].
  - destruct (_ && _); [discriminate|intros [= <-]; split; [lia|reflexivity]].
  - destruct (_ && _); [|intros [= <-]; split; [lia|reflexivity]].
    destruct (evict c) as [[c1 err]|] eqn:E; cbn [mbind option_bind]; [|discriminate].
    intros H. apply IH in H as [H1 H2]. apply evict_len in E as [E1 E2]. cbn in H1, H2.
    split; [lia|congruence].
Qed.

(** X10: with a positive capacity, a lookup keeps the length of the LRU
    list ([evictList.Len()]) within the capacity and the capacity as it
    is.  The path that inserts (the one that counts a miss) first evicts
    down to a length [k] that is below the capacity, or zero, and then
    pushes one entry, so the new length is [k + 1]; every other path counts
    no miss and leaves the length as it is. *)
Theorem lookup_keeps_len_bound parseFields t tagKey now c r c' sp :
  0 < maxSize c -> Z.of_nat (len (evictList c)) <= maxSize c ->
  getFieldsInfo parseFields t tagKey now c = Some (r, c', sp) ->
  maxSize c' = maxSize c /\ Z.of_nat (len (evictList c')) <= maxSize c' /\
  ((misses c' = misses c + 1 /\
    exists k, (Z.of_nat k < maxSize c \/ k = 0%nat) /\ (k <= len (evictList c))%nat /\
              len (evictList c') = S k) \/
   (misses c' = misses c /\ len (evictList c') = len (evictList c))).
Proof.
  intros Hpos Hb. unfold getFieldsInfo.
  destruct (negb (type_is_struct t)).
  { intros [= _ <- _]. split; [reflexivity|split; [exact Hb|right; split; reflexivity]]. }
  destruct (e ← mlookup t (cache c); _) as [[e entry]|] eqn:Hl.
  { intros [= _ <- _]. cbn. split; [reflexivity|split; [exact Hb|right; split; reflexivity]]. }
  destruct (parseFields t tagKey) as [fs|err].
  2:{ intros [= _ <- _]. split; [reflexivity|split; [exact Hb|right; split; reflexivity]]. }
  cbn [mbind option_bind].
  destruct (0 <? maxSize c) eqn:Hz; [|apply Z.ltb_ge in Hz; lia].
  destruct (evictForInsert _ c) as [c1|] eqn:Ev; cbn [mbind option_bind]; [|discriminate].
  destruct (PushFront _ _ _) as [l|] eqn:Hp; cbn [mbind option_bind]; [|discriminate].
  intros [= _ <- _]. cbn.
  pose proof (evictForInsert_len _ _ _ Ev) as [Hle Hmi].
  apply evictForInsert_exit in Ev as [Hm Hk].
  apply PushFront_value in Hp as [Hlen _]. rewrite Hlen, Hm, Hmi.
  split; [reflexivity|]. split.
  - rewrite Hm in Hk. destruct Hk as [Hk|Hk]; [lia|rewrite Hk; lia].
  - left. split; [reflexivity|]. exists (len (evictList c1)).
    rewrite Hm in Hk. split; [exact Hk|split; [exact Hle|reflexivity]].
Qed.

Lemma lookup_keeps_len_bound_witness :
  match run parseFix "groups" [OpGet t1 0] (newFieldCache 1) [] with
  | Some (c, _) =>
      exists r c' sp, getFieldsInfo parseFix t2 "groups" 1 c = Some (r, c', sp) /\
        maxSize c' = maxSize c /\ Z.of_nat (len (evictList c')) <= maxSize c' /\
        ((misses c' = misses c + 1 /\
          exists k, (Z.of_nat k < maxSize c \/ k = 0%nat) /\ (k <= len (evictList c))%nat /\
                    len (evictList c') = S k) \/
         (misses c' = misses c /\ len (evictList c') = len (evictList c)))
  | None => False
  end.
Proof.
  destruct (run parseFix "groups" [OpGet t1 0] (newFieldCache 1) []) as [[c p]|] eqn:E1;
    vm_compute in E1; [|discriminate].
  injection E1 as <- _.
  destruct (getFieldsInfo parseFix t2 "groups" 1 _) as [[[r c'] sp]|] eqn:E2;
    [|vm_compute in E2; discriminate].
  exists r, c', sp. split; [reflexivity|].
  apply (lookup_keeps_len_bound parseFix t2 "groups" 1 _ r c' sp);
    [vm_compute; reflexivity|vm_compute; congruence|exact E2].
Defined.

End CacheLen.
